(** * LocalMapsManagerService: a shallow embedding

    The service under study manages the custom maps installed next to a
    Beat Saber version: it hashes a map folder, loads it (through a cache
    keyed by folder name), scans a whole folder of maps, deletes maps and
    imports them from zip archives, reporting progress on an observable.

    The embedding threads an explicit world through every operation: the
    disk, the song cache, the log, a counter of reads, what the observer of
    the running pipeline has received, the archive being imported and the
    progress object of the import.  A promise that rejects and a [throw]
    are both the [Err] outcome of a computation, which keeps the world as
    the failing operation left it.

    - Paths are those of a POSIX system ([path.sep] is "/"); the functions
      of Node's [path] module are written out on strings.
    - The disk maps a normalised path to a file or a directory; the
      operations of [fs] and fs-extra are given their documented outcome on
      it.
    - A progress object is mutated in place by the pipelines; what the
      observer receives is recorded as a copy of the object at the moment
      of the push.
    - The promises of one batch of a scan are run one after the other, in
      the order of the batch.
    - Parsing a manifest, SHA-1, decoding a zip archive and the services
      that resolve the folder of a version are parameters ([Externals]). *)

From Stdlib Require Import Ascii.
From Stdlib Require String.
From stdpp Require Import base option list sorting gmap strings fin_maps.

(** ** Node's [path] module, POSIX flavour ([path.sep === "/"]) *)

Module path.

Definition sep : string := "/".

Definition is_slash (c : ascii) : bool := bool_decide (c = "/"%char).

Definition chars : string → list ascii := String.list_ascii_of_string.
Definition str : list ascii → string := String.string_of_list_ascii.

(** [take_while]/[drop_while] over characters. *)
Fixpoint take_while (f : ascii → bool) (l : list ascii) : list ascii :=
  match l with
  | [] => []
  | c :: l' => if f c then c :: take_while f l' else []
  end.

Fixpoint drop_while (f : ascii → bool) (l : list ascii) : list ascii :=
  match l with
  | [] => []
  | c :: l' => if f c then drop_while f l' else l
  end.

Definition not_slash (c : ascii) : bool := negb (is_slash c).

(** [strip_prefix p l = Some r] when [l = p ++ r]. *)
Fixpoint strip_prefix (p l : list ascii) : option (list ascii) :=
  match p, l with
  | [], _ => Some l
  | _ :: _, [] => None
  | a :: p', b :: l' => if bool_decide (a = b) then strip_prefix p' l' else None
  end.

(** The last path component, read on the reversed path: trailing slashes
    are skipped, then everything up to the next slash is the component. *)
Definition rev_component (r : list ascii) : list ascii :=
  take_while not_slash (drop_while is_slash r).

(** [path.basename(p)] *)
Definition basename (p : string) : string :=
  str (rev (rev_component (rev (chars p)))).

(** [path.basename(p, ext)]. The extension is removed from the last
    component unless the component is the extension itself.  When the
    component is a proper suffix of [ext], Node gives up stripping and
    returns the rest of the path from the component on, trailing slashes
    included. *)
Definition basename_ext (p ext : string) : string :=
  let r := rev (chars p) in
  let trail := take_while is_slash r in
  let rc := rev_component r in
  let e := rev (chars ext) in
  if bool_decide (e = []) || negb (bool_decide (length e ≤ length r))
  then str (rev rc)
  else if bool_decide (ext = p) then ""
  else match strip_prefix e rc with
       | Some [] => str (rev rc)
       | Some rest => str (rev rest)
       | None =>
           match strip_prefix rc e with
           | Some _ => str (rev rc ++ trail)
           | None => str (rev rc)
           end
       end.

(** [path.dirname(p)] *)
Definition dirname (p : string) : string :=
  match chars p with
  | [] => "."
  | c :: tl =>
      match drop_while not_slash (drop_while is_slash (rev tl)) with
      | [] => if is_slash c then "/" else "."
      | _ :: r3 =>
          if is_slash c && bool_decide (r3 = []) then "//"
          else str (c :: rev r3)
      end
  end.

(** Splitting on the separator; [cur] is the segment being read, reversed. *)
Fixpoint split_go (cur : list ascii) (l : list ascii) : list string :=
  match l with
  | [] => [str (rev cur)]
  | c :: l' =>
      if is_slash c then str (rev cur) :: split_go [] l'
      else split_go (c :: cur) l'
  end.

Definition split (p : string) : list string := split_go [] (chars p).

(** [normalizeString]: the stack of kept segments is held reversed. *)
Fixpoint normalize_segs (allowAboveRoot : bool) (stack : list string)
    (segs : list string) : list string :=
  match segs with
  | [] => rev stack
  | s :: segs' =>
      if bool_decide (s = "") || bool_decide (s = ".")
      then normalize_segs allowAboveRoot stack segs'
      else if bool_decide (s = "..") then
        match stack with
        | top :: stack' =>
            if bool_decide (top = "..")
            then normalize_segs allowAboveRoot
                   (if allowAboveRoot then ".." :: stack else stack) segs'
            else normalize_segs allowAboveRoot stack' segs'
        | [] =>
            normalize_segs allowAboveRoot
              (if allowAboveRoot then [".."] else []) segs'
        end
      else normalize_segs allowAboveRoot (s :: stack) segs'
  end.

Fixpoint intercalate (segs : list string) : string :=
  match segs with
  | [] => ""
  | [s] => s
  | s :: segs' => s +:+ "/" +:+ intercalate segs'
  end.

(** [path.normalize(p)] *)
Definition normalize (p : string) : string :=
  match chars p with
  | [] => "."
  | c :: _ =>
      let isAbsolute := is_slash c in
      let trailingSeparator :=
        match rev (chars p) with
        | d :: _ => is_slash d
        | [] => false
        end in
      let body := intercalate (normalize_segs (negb isAbsolute) [] (split p)) in
      if bool_decide (body = "") then
        if isAbsolute then "/" else if trailingSeparator then "./" else "."
      else
        (if isAbsolute then "/" else "") +:+ body +:+
        (if trailingSeparator then "/" else "")
  end.

(** [path.join(...args)]: the non-empty arguments joined by the separator,
    then normalised. *)
Definition join_list (args : list string) : string :=
  match filter (λ a, a ≠ "") args with
  | [] => "."
  | parts => normalize (intercalate parts)
  end.

Definition join (a b : string) : string := join_list [a; b].

End path.

(** [String.prototype.toLowerCase], on the ASCII range. *)
Definition lower_char (c : ascii) : ascii :=
  let n := nat_of_ascii c in
  if bool_decide (65 ≤ n) && bool_decide (n ≤ 90) then ascii_of_nat (n + 32) else c.

Definition toLowerCase (s : string) : string :=
  path.str (lower_char <$> path.chars s).

(** [String.prototype.includes] *)
Fixpoint includes_go (sub s : list ascii) : bool :=
  match path.strip_prefix sub s with
  | Some _ => true
  | None => match s with [] => false | _ :: s' => includes_go sub s' end
  end.

Definition includes (s sub : string) : bool :=
  includes_go (path.chars sub) (path.chars s).

(** ** JavaScript values that matter to the control flow *)

(** What a lookup such as [Array.prototype.find] hands back: the element, or
    [undefined]; [null] is a distinct value. *)
Inductive js (A : Type) : Type :=
| undefined
| null
| value (a : A).
Arguments undefined {A}.
Arguments null {A}.
Arguments value {A} a.

(** [Array.prototype.find]: the first element satisfying the predicate,
    [undefined] when there is none. *)
Fixpoint Array_find {A} (f : A → bool) (l : list A) : js A :=
  match l with
  | [] => undefined
  | x :: l' => if f x then value x else Array_find f l'
  end.

(** [v === null] *)
Definition strict_eq_null {A} (v : js A) : bool :=
  match v with null => true | _ => false end.

(** Truthiness of an optional string property: [undefined] and the empty
    string are falsy. *)
Definition truthy (o : option string) : option string :=
  match o with
  | Some s => if bool_decide (s = "") then None else Some s
  | None => None
  end.

(** ** Errors and outcomes *)

Inductive error : Type :=
| TypeError                            (* wrong argument type, property of null *)
| SystemError (code : string)          (* ENOENT, EISDIR, ENOTDIR, ... *)
| LibraryError                         (* an [Error] raised by a library *)
| CustomError (code : option string).  (* the repository's CustomError *)

(** [CustomError.fromError(error, message, code)] *)
Definition CustomError_fromError (e : error) (code : option string) : error :=
  CustomError code.

(** [error instanceof CustomError ? error : CustomError.fromError(error)] *)
Definition as_CustomError (e : error) : error :=
  match e with
  | CustomError _ => e
  | _ => CustomError_fromError e None
  end.

Inductive result (A : Type) : Type :=
| Ok (a : A)
| Err (e : error).
Arguments Ok {A} a.
Arguments Err {A} e.

Definition is_ok {A} (r : result A) : bool :=
  match r with Ok _ => true | Err _ => false end.

(** ** The data model *)

(** One entry of [mapInfo.difficulties]. *)
Record MapDifficulty := {
  beatmapFilename : option string;
  lightshowDataFilename : option string;
}.

(** [MapInfo], as far as the service reads it. *)
Record MapInfo := {
  coverImageFilename : string;
  songFilename : string;
  difficulties : list MapDifficulty;
}.

(** What the song cache keeps for a folder name. *)
Record CachedMapInfo := {
  cached_mapInfo : MapInfo;
  cached_hash : string;
}.

Definition SongDetails := string.
Definition BSVersion := string.

(** [BsmLocalMap] *)
Record BsmLocalMap := {
  mapInfo : MapInfo;
  coverUrl : string;
  songUrl : string;
  hash : string;
  map_path : string;
  songDetails : option SongDetails;
}.

(** A zip entry ([JSZipObject]) and the archive's [files] table, in
    insertion order. *)
Record JSZipObject := {
  zname : string;
  zdir : bool;
  zdata : string;
}.

Definition JSZip := list JSZipObject.

(** The progress objects, copied at the moment they are pushed to the
    observer.  [data = None] is [undefined]. *)
Inductive snapshot : Type :=
| BsmLocalMapsProgress (total loaded : nat) (maps : list BsmLocalMap)
| DeleteMapsProgress (total deleted : nat)
| Progression (total current : nat) (data : option BsmLocalMap).

Definition snap_total (s : snapshot) : nat :=
  match s with
  | BsmLocalMapsProgress t _ _ | DeleteMapsProgress t _ | Progression t _ _ => t
  end.

(** The second counter: [loaded], [deleted] or [current]. *)
Definition snap_count (s : snapshot) : nat :=
  match s with
  | BsmLocalMapsProgress _ c _ | DeleteMapsProgress _ c | Progression _ c _ => c
  end.

Definition snap_data (s : snapshot) : option BsmLocalMap :=
  match s with
  | Progression _ _ d => d
  | _ => None
  end.

(** Lines written through [electron-log]. *)
Inductive logline : Type :=
| ErrCannotComputeHash (mapPath : string)
| ErrCannotParseInfo (mapPath : string)
| WarnNoInfoDat (zipPath : string)
| WarnCouldNotCount (zipPath : string)
| ErrCouldNotImport (zipPath : string)
| InfoImporting (zipPath relativeFolder mapPath : string)
| InfoExtracting (filepath : string)
| WarnCouldBeBroken (mapPath : string).

(** A file-system node. File contents are byte strings.  The disk holds
    regular files and directories only: symbolic links (and with them a
    path that exists as a link without leading anywhere) are outside the
    model, and what is proved of the disk is proved of its files and
    directories. *)
Inductive node : Type :=
| File (content : string)
| Dir.

(** How a subscription ended. *)
Inductive terminal : Type :=
| Completed
| Errored (e : error).

(** The world the service runs in. Paths are keys of [fs] in normalised
    form, without a trailing separator. *)
Record world := {
  fs : gmap string node;
  songCache : gmap string CachedMapInfo;
  logs : list logline;
  reads : nat;                    (* file-system reads performed so far *)
  emitted : list snapshot;        (* what the observer received, oldest first *)
  closed : option terminal;       (* the observer's terminal notification *)
  archive : JSZip;                (* the [files] table of the JSZip object in use *)
  progress : nat * nat * option BsmLocalMap;
                                  (* the import's progress object:
                                     [total], [current], [data] *)
}.

(** What lies outside the repository's sources. *)
Class Externals := {
  (** [tryit(() => parseMapInfoDat(JSON.parse(raw)))]: [None] when it throws *)
  parseMapInfoDat : string → option MapInfo;
  (** the hex SHA-1 digest of everything fed to the hash object *)
  sha1_hex : string → string;
  (** [pathToFileURL(p).href] *)
  pathToFileURL : string → string;
  (** [songDetailsCache.getSongDetails(hash)] *)
  getSongDetails : string → option SongDetails;
  (** [JSZip.loadAsync(buffer)]: [None] when the buffer is no zip archive *)
  JSZip_loadAsync : string → option JSZip;
  (** [localVersion.getVersionPath(version)] *)
  getVersionPath : BSVersion → string;
  (** [installLocation.sharedContentPath()] *)
  sharedContentPath : string;
}.

(** ** Computations over the world *)

Definition M (A : Type) : Type := world → result A * world.

Definition ret {A} (a : A) : M A := λ w, (Ok a, w).

Definition throw {A} (e : error) : M A := λ w, (Err e, w).

Definition bind {A B} (m : M A) (k : A → M B) : M B :=
  λ w, match m w with
       | (Ok a, w') => k a w'
       | (Err e, w') => (Err e, w')
       end.

Notation "'do' x <- m ; k" := (bind m (λ x, k))
  (at level 10, x name, m at level 100, k at level 200).
Notation "'do' ' pat <- m ; k" := (bind m (λ x, match x with pat => k end))
  (at level 10, pat pattern, m at level 100, k at level 200).
Notation "m ;; k" := (bind m (λ _, k))
  (at level 100, k at level 200, right associativity).

(** [try { m } catch (error) { h error }] *)
Definition try_catch {A} (m : M A) (h : error → M A) : M A :=
  λ w, match m w with
       | (Ok a, w') => (Ok a, w')
       | (Err e, w') => h e w'
       end.

(** [try { m } finally { f }], for an [f] that does not throw. *)
Definition try_finally {A} (m : M A) (f : M unit) : M A :=
  λ w, match m w with
       | (r, w') => (r, (f w').2)
       end.

(** [tryit(() => m)]: the outcome as a value, [None] standing for the
    [error] side of the pair. *)
Definition tryit {A} (m : M A) : M (option A) :=
  λ w, match m w with
       | (Ok a, w') => (Ok (Some a), w')
       | (Err _, w') => (Ok None, w')
       end.

Definition set_fs (m : gmap string node) (w : world) : world :=
  {| fs := m; songCache := songCache w; logs := logs w; reads := reads w;
     emitted := emitted w; closed := closed w;
     archive := archive w; progress := progress w |}.

Definition set_songCache (c : gmap string CachedMapInfo) (w : world) : world :=
  {| fs := fs w; songCache := c; logs := logs w; reads := reads w;
     emitted := emitted w; closed := closed w;
     archive := archive w; progress := progress w |}.

Definition bump_reads (w : world) : world :=
  {| fs := fs w; songCache := songCache w; logs := logs w; reads := S (reads w);
     emitted := emitted w; closed := closed w;
     archive := archive w; progress := progress w |}.

Definition log (l : logline) : M unit :=
  λ w, (Ok (), {| fs := fs w; songCache := songCache w; logs := logs w ++ [l];
                  reads := reads w; emitted := emitted w; closed := closed w;
     archive := archive w; progress := progress w |}).

(** *** The observer

    Once the subscriber has been completed or has errored, it is stopped:
    later notifications are dropped. *)

Definition observer_next (s : snapshot) : M unit :=
  λ w, match closed w with
       | Some _ => (Ok (), w)
       | None =>
           (Ok (), {| fs := fs w; songCache := songCache w; logs := logs w;
                      reads := reads w; emitted := emitted w ++ [s];
                      closed := None;
                      archive := archive w; progress := progress w |})
       end.

Definition observer_close (t : terminal) (w : world) : world :=
  match closed w with
  | Some _ => w
  | None =>
      {| fs := fs w; songCache := songCache w; logs := logs w;
         reads := reads w; emitted := emitted w; closed := Some t;
         archive := archive w; progress := progress w |}
  end.

Definition observer_complete : M unit := λ w, (Ok (), observer_close Completed w).

Definition observer_error (e : error) : M unit :=
  λ w, (Ok (), observer_close (Errored e) w).

(** *** The file system *)

(** The key of a path: trailing separators do not matter to the system. *)
Definition fskey (p : string) : string :=
  match path.drop_while path.is_slash (rev (path.chars p)) with
  | [] => if bool_decide (p = "") then "" else "/"
  | r => path.str (rev r)
  end.

Definition is_root (k : string) : bool :=
  bool_decide (k = "/") || bool_decide (k = ".").

(** The node under a key; the root and the working directory are
    directories that need no entry. *)
Definition key_node (m : gmap string node) (k : string) : option node :=
  match m !! k with
  | Some n => Some n
  | None => if is_root k then Some Dir else None
  end.

(** The node a path resolves to. *)
Definition node_at (m : gmap string node) (p : string) : option node :=
  key_node m (fskey p).

(** [k] is [p] itself or lies below it. *)
Definition is_under (p k : string) : bool :=
  bool_decide (k = p) || String.prefix (p +:+ "/") k.

(** [pathExistsSync(p)] of fs-extra *)
Definition pathExistsSync (p : string) : M bool :=
  λ w, (Ok (bool_decide (is_Some (node_at (fs w) p))), w).

(** The proper prefixes of a key that end where a separator follows: the
    keys of its ancestors, outermost first. [seen] is what has been read,
    reversed. *)
Fixpoint prefixes_go (seen cs : list ascii) : list string :=
  match cs with
  | [] => []
  | c :: cs' =>
      (if path.is_slash c && negb (bool_decide (seen = []))
       then [path.str (rev seen)] else [])
      ++ prefixes_go (c :: seen) cs'
  end.

Definition ancestors (k : string) : list string :=
  prefixes_go [] (path.chars k).

(** Making sure each key is a directory, in order; nothing is created when
    one of them is a file. *)
Fixpoint mkdirs (keys : list string) (m : gmap string node)
    : result (gmap string node) :=
  match keys with
  | [] => Ok m
  | k :: keys' =>
      match key_node m k with
      | Some Dir => mkdirs keys' m
      | Some (File _) => Err (SystemError "ENOTDIR")
      | None => mkdirs keys' (<[k := Dir]> m)
      end
  end.

(** Creating the directory of key [k] and its missing ancestors. *)
Definition mkdirp (k : string) (m : gmap string node) : result (gmap string node) :=
  mkdirs (ancestors k ++ [k]) m.

(** [mkdir(p, { recursive: true })] of fs-extra *)
Definition mkdir_recursive (p : string) : M unit :=
  λ w, match node_at (fs w) p with
       | Some (File _) => (Err (SystemError "EEXIST"), w)
       | _ =>
           match mkdirp (fskey p) (fs w) with
           | Ok m => (Ok (), set_fs m w)
           | Err e => (Err e, w)
           end
       end.

(** [writeFile(p, content)]: the parent directory has to exist. *)
Definition writeFile (p : string) (content : string) : M unit :=
  λ w, let k := fskey p in
       match key_node (fs w) k with
       | Some Dir => (Err (SystemError "EISDIR"), w)
       | _ =>
           match node_at (fs w) (path.dirname k) with
           | Some Dir => (Ok (), set_fs (<[k := File content]> (fs w)) w)
           | Some (File _) => (Err (SystemError "ENOTDIR"), w)
           | None => (Err (SystemError "ENOENT"), w)
           end
       end.

(** [unlinkSync(p)]: removes a file; it does not work on a directory,
    empty or otherwise.  (It would remove a symbolic link, which the
    disk of the model does not hold.) *)
Definition unlinkSync (p : string) : M unit :=
  λ w, match node_at (fs w) p with
       | Some (File _) => (Ok (), set_fs (delete (fskey p) (fs w)) w)
       | Some Dir => (Err (SystemError "EISDIR"), w)
       | None => (Err (SystemError "ENOENT"), w)
       end.

(** [readFile(p, { encoding: "utf-8" })]. A path that is not a string is
    refused before the file system is touched. *)
Definition readFile (p : js string) : M string :=
  λ w, match p with
       | value p =>
           match node_at (fs w) p with
           | Some (File c) => (Ok c, bump_reads w)
           | Some Dir => (Err (SystemError "EISDIR"), bump_reads w)
           | None => (Err (SystemError "ENOENT"), bump_reads w)
           end
       | _ => (Err TypeError, w)
       end.

(** [createReadStream(p)] drained: every chunk of the file, concatenated,
    or the stream's error. *)
Definition createReadStream (p : string) : M string :=
  readFile (value p).

(** The paths of the entries directly inside folder [p] that satisfy [f]. *)
Definition list_children (f : node → bool) (p : string)
    (m : gmap string node) : list string :=
  (filter (λ kn : string * node,
             f kn.2 = true ∧ path.dirname kn.1 = fskey p ∧ kn.1 ≠ fskey p)
          (map_to_list m)).*1.

Definition is_file (n : node) : bool :=
  match n with File _ => true | Dir => false end.

Definition is_dir (n : node) : bool :=
  match n with File _ => false | Dir => true end.

(** Modelled from the spec: [getFilesInFolder] of helpers/fs.helpers, which
    "lists files in the folder"; the spec gives it no failure. *)
Definition getFilesInFolder (p : string) : M (list string) :=
  λ w, (Ok (list_children is_file p (fs w)), bump_reads w).

(** Modelled from the spec: [getFoldersInFolder] of helpers/fs.helpers, which
    "lists immediate subfolders"; the spec gives it no failure. *)
Definition getFoldersInFolder (p : string) : M (list string) :=
  λ w, (Ok (list_children is_dir p (fs w)), bump_reads w).

(** Modelled from the spec: [pathExist] of helpers/fs.helpers, the
    existence check. *)
Definition pathExist (p : string) : M bool := pathExistsSync p.

(** Modelled from the spec: [ensureFolderExist] of helpers/fs.helpers, which
    creates the folder "if missing", "creating intermediate directories as
    needed"; the spec gives it no failure, so a folder that cannot be
    created is left missing. *)
Definition ensureFolderExist (p : string) : M unit :=
  λ w, match node_at (fs w) p with
       | Some _ => (Ok (), w)
       | None =>
           match mkdirp (fskey p) (fs w) with
           | Ok m => (Ok (), set_fs m w)
           | Err _ => (Ok (), w)
           end
       end.

(** Modelled from the spec: [deleteFolder] of helpers/fs.helpers, which
    "delete[s] recursively": the folder and all that lies below it. *)
Definition deleteFolder (p : string) : M unit :=
  λ w, (Ok (), set_fs (filter (λ kn : string * node, is_under (fskey p) kn.1 = false)
                              (fs w)) w).

(** *** The song cache *)

(** Modelled from the spec: [SongCacheService.getMapInfoFromDirname], the
    [get(folderName)] of the metadata cache; it performs no existence
    re-check on read. *)
Definition getMapInfoFromDirname (dirname : string) : M (option CachedMapInfo) :=
  λ w, (Ok (songCache w !! dirname), w).

(** Modelled from the spec: [SongCacheService.setMapInfoFromDirname], the
    [put(folderName, record)] of the metadata cache. *)
Definition setMapInfoFromDirname (dirname : string) (c : CachedMapInfo) : M unit :=
  λ w, (Ok (), set_songCache (<[dirname := c]> (songCache w)) w).

(** Modelled from the spec: [SongCacheService.deleteMapInfoFromDirname], the
    [delete(folderName)] of the metadata cache. *)
Definition deleteMapInfoFromDirname (dirname : string) : M unit :=
  λ w, (Ok (), set_songCache (delete dirname (songCache w)) w).

(** ** JavaScript objects used as tables, and JSZip *)

Module JS.

Definition digit (c : ascii) : option N :=
  let n := N_of_ascii c in
  if bool_decide (48 ≤ n)%N && bool_decide (n ≤ 57)%N then Some (n - 48)%N else None.

Fixpoint digits_value (acc : N) (l : list ascii) : option N :=
  match l with
  | [] => Some acc
  | c :: l' =>
      match digit c with
      | Some d => digits_value (acc * 10 + d)%N l'
      | None => None
      end
  end.

(** A property key that is an array index: a canonical decimal numeral
    below [2^32 - 1]. *)
Definition array_index (s : string) : option N :=
  match path.chars s with
  | [] => None
  | [c] => digit c
  | c :: cs =>
      if bool_decide (c = "0"%char) then None
      else match digits_value 0 (c :: cs) with
           | Some v => if bool_decide (v < 4294967295)%N then Some v else None
           | None => None
           end
  end.

Definition index_le {A} (a b : N * A) : Prop := (a.1 ≤ b.1)%N.

#[global] Instance index_le_dec {A} : RelDecision (@index_le A).
Proof. intros a b. unfold index_le. apply _. Defined.

(** The order in which [for ... in] and [Object.entries] visit the own
    properties of an object: array indices in ascending order, then the
    other keys in insertion order.  [l] holds the properties in insertion
    order. *)
Definition own_properties {A} (l : list (string * A)) : list (string * A) :=
  (merge_sort index_le
     (omap (λ kv : string * A,
              match array_index kv.1 with
              | Some i => Some (i, kv)
              | None => None
              end) l)).*2
  ++ filter (λ kv : string * A, array_index kv.1 = None) l.

(** [obj[k] = v] on the properties in insertion order, for an object
    without the accessors of [Object.prototype]. *)
Fixpoint set_property {A} (k : string) (v : A) (l : list (string * A))
    : list (string * A) :=
  match l with
  | [] => [(k, v)]
  | (k', v') :: l' =>
      if bool_decide (k' = k) then (k, v) :: l'
      else (k', v') :: set_property k v l'
  end.

(** [obj[k] = v] on an object made by a literal, [v] being an object.
    The key ["__proto__"] reaches the accessor that [Object.prototype]
    has under this name: the assignment replaces the prototype of [obj]
    and adds no own property; later assignments go on as before, as the
    own properties of a zip entry are writable data properties and
    [Object.prototype] stays on the chain. *)
Definition assign {A} (k : string) (v : A) (l : list (string * A))
    : list (string * A) :=
  if bool_decide (k = "__proto__") then l else set_property k v l.

End JS.

Module JSZipModel.

(** The [files] table as properties in insertion order. *)
Definition properties (z : JSZip) : list (string * JSZipObject) :=
  (λ f, (zname f, f)) <$> z.

Definition has_entry (name : string) (z : JSZip) : bool :=
  existsb (λ f, bool_decide (zname f = name)) z.

Definition forceTrailingSlash (name : string) : string :=
  match rev (path.chars name) with
  | c :: _ => if path.is_slash c then name else name +:+ "/"
  | [] => name +:+ "/"
  end.

(** [parentFolder(path)]: the text before the last separator, one
    trailing separator apart; empty when there is none. *)
Definition parentFolder (p : string) : string :=
  let r := match rev (path.chars p) with
           | c :: r' => if path.is_slash c then r' else c :: r'
           | [] => []
           end in
  match path.drop_while path.not_slash r with
  | [] => ""
  | _ :: before => path.str (rev before)
  end.

(** [folderAdd(name)] with [createFolders]: the folder entry is added
    after its missing parents. [fuel] bounds the depth. *)
Fixpoint folderAdd (fuel : nat) (name : string) (z : JSZip) : JSZip :=
  let name := forceTrailingSlash name in
  if has_entry name z then z
  else
    let parent := parentFolder name in
    let z1 := match fuel with
              | S fuel' =>
                  if bool_decide (parent = "") then z else folderAdd fuel' parent z
              | 0 => z
              end in
    z1 ++ [ {| zname := name; zdir := true; zdata := "" |} ].

(** [forEach(cb)] on the view rooted at [root]: the entries strictly
    below the root, with their path relative to it. *)
Definition forEach (root : string) (z : JSZip) : list (string * JSZipObject) :=
  omap (λ kf : string * JSZipObject,
          let relativePath :=
            String.substring (String.length root)
              (String.length kf.1 - String.length root) kf.1 in
          if negb (bool_decide (relativePath = "")) && String.prefix root kf.1
          then Some (relativePath, kf.2) else None)
       (JS.own_properties (properties z)).

(** Is the character a line terminator, which [.] does not match? *)
Definition line_terminator (c : ascii) : bool :=
  bool_decide (c = "010"%char) || bool_decide (c = "013"%char).

(** [INFO_DAT_REGEX.test(name)] for [/(^|\/)(I|i)nfo.dat$/], read from
    the end of the name. Names are taken to be ASCII. *)
Definition INFO_DAT_REGEX_test (name : string) : bool :=
  match rev (path.chars name) with
  | t :: a :: d :: x :: o :: f :: n :: i :: before =>
      bool_decide (t = "t"%char) && bool_decide (a = "a"%char)
      && bool_decide (d = "d"%char) && negb (line_terminator x)
      && bool_decide (o = "o"%char) && bool_decide (f = "f"%char)
      && bool_decide (n = "n"%char)
      && (bool_decide (i = "I"%char) || bool_decide (i = "i"%char))
      && match before with
         | [] => true
         | c :: _ => path.is_slash c
         end
  | _ => false
  end.

(** [zip.file(regex)]: the entries that are not folders and whose name
    matches. *)
Definition file_regex (test : string → bool) (z : JSZip) : list JSZipObject :=
  omap (λ kf : string * JSZipObject,
          if negb (zdir kf.2) && test kf.1 then Some kf.2 else None)
       (forEach "" z).

End JSZipModel.

(** [Array.prototype.findIndex]: [-1] when no element qualifies. *)
Fixpoint Array_findIndex_from {A} (i : Z) (f : A → bool) (l : list A) : Z :=
  match l with
  | [] => (-1)%Z
  | x :: l' => if f x then i else Array_findIndex_from (i + 1)%Z f l'
  end.

Definition Array_findIndex {A} (f : A → bool) (l : list A) : Z :=
  Array_findIndex_from 0%Z f l.

(** One planned archive of an import. *)
Record zipInfo := {
  zi_path : string;
  zi_single : bool;
  zi_folders : list string;
}.

(** ** The service *)

Section LocalMapsManagerService.

Context `{Externals}.

Definition LEVELS_ROOT_FOLDER : string := "Beat Saber_Data".
Definition CUSTOM_LEVELS_FOLDER : string := "CustomLevels".
Definition RELATIVE_MAPS_FOLDER : string :=
  path.join LEVELS_ROOT_FOLDER CUSTOM_LEVELS_FOLDER.
Definition SHARED_MAPS_FOLDER : string := "SharedMaps".

(** [getMapsFolderPath(version?)] *)
Definition getMapsFolderPath (version : option BSVersion) : M string :=
  match version with
  | Some v => ret (path.join (getVersionPath v) RELATIVE_MAPS_FOLDER)
  | None =>
      let sharedMapsPath :=
        path.join_list [sharedContentPath; SHARED_MAPS_FOLDER; CUSTOM_LEVELS_FOLDER] in
      do exists_ <- pathExist sharedMapsPath;
      (if negb exists_ then ensureFolderExist sharedMapsPath else ret ());;
      ret sharedMapsPath
  end.

(** [hashFile(filePath)]: every chunk of the stream is fed to the hash
    object; [shasum] is what the object has been fed so far. *)
Definition hashFile (filePath : string) (shasum : string) : M string :=
  do data <- createReadStream filePath;
  ret (shasum +:+ data).

(** The loop over [mapInfo.difficulties] in [computeMapHash]. *)
Fixpoint hashDifficulties (mapPath : string) (diffs : list MapDifficulty)
    (shasum : string) : M string :=
  match diffs with
  | [] => ret shasum
  | diff :: diffs' =>
      do shasum1 <-
        match truthy (beatmapFilename diff) with
        | Some f => hashFile (path.join mapPath f) shasum
        | None => ret shasum
        end;
      do shasum2 <-
        match truthy (lightshowDataFilename diff) with
        | Some f => hashFile (path.join mapPath f) shasum1
        | None => ret shasum1
        end;
      hashDifficulties mapPath diffs' shasum2
  end.

(** [computeMapHash(mapPath, rawInfoString)] *)
Definition computeMapHash (mapPath rawInfoString : string) : M string :=
  match parseMapInfoDat rawInfoString with
  | None =>
      log (ErrCannotComputeHash mapPath);;
      throw (CustomError (Some "cannot-parse-map-info"))
  | Some mapInfo =>
      do shasum <- hashDifficulties mapPath (difficulties mapInfo) rawInfoString;
      ret (sha1_hex shasum)
  end.

(** The local helper [getUrlsAndReturn] of [loadMapInfoFromPath]. *)
Definition getUrlsAndReturn (mapInfo : MapInfo) (hash mapPath : string)
    : BsmLocalMap :=
  {| mapInfo := mapInfo;
     coverUrl := pathToFileURL (path.join mapPath (coverImageFilename mapInfo));
     songUrl := pathToFileURL (path.join mapPath (songFilename mapInfo));
     hash := hash;
     map_path := mapPath;
     songDetails := getSongDetails hash |}.

(** [loadMapInfoFromPath(mapPath)]; [None] is the [null] result. *)
Definition loadMapInfoFromPath (mapPath : string) : M (option BsmLocalMap) :=
  do cachedMapInfos <- getMapInfoFromDirname (path.basename mapPath);
  match cachedMapInfos with
  | Some c => ret (Some (getUrlsAndReturn (cached_mapInfo c) (cached_hash c) mapPath))
  | None =>
      do files <- getFilesInFolder mapPath;
      let infoFile :=
        Array_find (λ file, bool_decide (toLowerCase (path.basename file) = "info.dat"))
                   files in
      if strict_eq_null infoFile then ret None
      else
        do rawInfoString <- readFile infoFile;
        match parseMapInfoDat rawInfoString with
        | None =>
            log (ErrCannotParseInfo mapPath);;
            throw (CustomError (Some "cannot-parse-map-info"))
        | Some mapInfo =>
            do hash <- computeMapHash mapPath rawInfoString;
            ret (Some (getUrlsAndReturn mapInfo hash mapPath))
        end
  end.

(** Modelled from the spec: [splitIntoChunk] of shared/helpers/array.helpers,
    which "splits them into fixed-size batches"; [fuel] bounds the number
    of batches. *)
Fixpoint splitIntoChunk_go {A} (fuel : nat) (l : list A) (size : nat)
    : list (list A) :=
  match fuel, l with
  | 0, _ | _, [] => []
  | S fuel', _ => take size l :: splitIntoChunk_go fuel' (drop size l) size
  end.

Definition splitIntoChunk {A} (l : list A) (size : nat) : list (list A) :=
  splitIntoChunk_go (length l) l size.

(** Modelled from the spec: [allSettled] of shared/helpers/promise.helpers
    with [removeFalsy], under which "a failing folder is dropped from
    results, not fatal to the scan"; here for one promise of the batch,
    [None] standing for a rejected or falsy outcome.  The promises of a
    batch are run one after the other, in the order of the batch. *)
Definition settled {A} (m : M (option A)) : M (option A) :=
  λ w, match m w with
       | (Ok (Some a), w') => (Ok (Some a), w')
       | (Ok None, w') | (Err _, w') => (Ok None, w')
       end.

(** The callback mapped over a chunk in [getMaps]. [loaded] is the
    counter of the shared progress object. *)
Definition scanOne (total : nat) (mapPath : string) (loaded : nat)
    : M (nat * option BsmLocalMap) :=
  do r <- settled (loadMapInfoFromPath mapPath);
  match r with
  | None => ret (loaded, None)
  | Some localMap =>
      setMapInfoFromDirname (path.basename mapPath)
        {| cached_mapInfo := mapInfo localMap; cached_hash := hash localMap |};;
      observer_next (BsmLocalMapsProgress total (S loaded) []);;
      ret (S loaded, Some localMap)
  end.

Fixpoint scanChunk (total : nat) (chunk : list string) (loaded : nat)
    : M (nat * list BsmLocalMap) :=
  match chunk with
  | [] => ret (loaded, [])
  | mapPath :: chunk' =>
      do '(loaded1, r) <- scanOne total mapPath loaded;
      do '(loaded2, rs) <- scanChunk total chunk' loaded1;
      ret (loaded2, option_list r ++ rs)
  end.

(** [for (const chunk of pathChunks)] *)
Fixpoint scanChunks (total : nat) (pathChunks : list (list string))
    (loaded : nat) (loadedMaps : list BsmLocalMap)
    : M (nat * list BsmLocalMap) :=
  match pathChunks with
  | [] => ret (loaded, loadedMaps)
  | chunk :: pathChunks' =>
      do '(loaded1, mapsInfo) <- scanChunk total chunk loaded;
      scanChunks total pathChunks' loaded1 (loadedMaps ++ mapsInfo)
  end.

(** A subscription starts with an observer that has received nothing. *)
Definition fresh_observer (w : world) : world :=
  {| fs := fs w; songCache := songCache w; logs := logs w; reads := reads w;
     emitted := []; closed := None;
     archive := archive w; progress := progress w |}.

(** [body.then(() => observer.complete()).catch(e => observer.error(e))]
    and [body.catch(e => observer.error(e)).finally(() => observer.complete())]
    leave the observer in the same state. *)
Definition subscribe (body : M unit) (w : world) : world :=
  match body (fresh_observer w) with
  | (Ok _, w') => observer_close Completed w'
  | (Err e, w') => observer_close Completed (observer_close (Errored e) w')
  end.

(** The asynchronous body of [getMaps(version?)]. The wait for the song
    details cache, which comes first, touches nothing of the world. *)
Definition getMaps_body (version : option BSVersion) : M unit :=
  do levelsFolder <- getMapsFolderPath version;
  do exists_ <- pathExist levelsFolder;
  if negb exists_ then observer_complete
  else
    do levelsPaths <- getFoldersInFolder levelsFolder;
    let total := length levelsPaths in
    let pathChunks := splitIntoChunk levelsPaths 50 in
    do '(loaded, loadedMaps) <- scanChunks total pathChunks 0 [];
    observer_next (BsmLocalMapsProgress total loaded loadedMaps).

Definition getMaps (version : option BSVersion) : world → world :=
  subscribe (getMaps_body version).

(** The loop of [deleteMaps(maps)], over the [path] of each map. *)
Fixpoint deleteMaps_loop (total : nat) (maps : list string) (deleted : nat)
    : M nat :=
  match maps with
  | [] => ret deleted
  | mapPath :: maps' =>
      do exists_ <- pathExistsSync mapPath;
      do deleted1 <-
        (if exists_ then
           deleteFolder mapPath;;
           deleteMapInfoFromDirname (path.basename mapPath);;
           ret (S deleted)
         else ret deleted);
      observer_next (DeleteMapsProgress total deleted1);;
      deleteMaps_loop total maps' deleted1
  end.

Definition deleteMaps (maps : list string) : world → world :=
  subscribe (deleteMaps_loop (length maps) maps 0;; ret ()).

(** [hashs.includes(h)] *)
Definition hashs_includes (hashs : list string) (h : string) : bool :=
  bool_decide (h ∈ hashs).

(** One turn of the loop of [deleteMapsFromHashs]: [true] when the folder
    was deleted. *)
Definition deleteFromHashs_one (hashs : list string) (mapPath : string)
    : M bool :=
  do r <- tryit (loadMapInfoFromPath mapPath);
  match r with
  | Some (Some localMap) =>
      if hashs_includes hashs (hash localMap) then
        deleteFolder mapPath;;
        deleteMapInfoFromDirname (path.basename mapPath);;
        ret true
      else ret false
  | _ => ret false
  end.

Fixpoint deleteFromHashs_loop (total : nat) (hashs : list string)
    (mapsPaths : list string) (current : nat) : M nat :=
  match mapsPaths with
  | [] => ret current
  | mapPath :: mapsPaths' =>
      do del <- deleteFromHashs_one hashs mapPath;
      let current1 := if del then S current else current in
      observer_next (Progression total current1 None);;
      deleteFromHashs_loop total hashs mapsPaths' current1
  end.

Definition deleteMapsFromHashs_body (version : BSVersion) (hashs : list string)
    : M unit :=
  do versionMapsPath <- getMapsFolderPath (Some version);
  do mapsPaths <- getFoldersInFolder versionMapsPath;
  deleteFromHashs_loop (length hashs) hashs mapsPaths 0;;
  ret ().

Definition deleteMapsFromHashs (version : BSVersion) (hashs : list string)
    : world → world :=
  subscribe (deleteMapsFromHashs_body version hashs).

(** *** Import *)

Definition set_archive (z : JSZip) (w : world) : world :=
  {| fs := fs w; songCache := songCache w; logs := logs w; reads := reads w;
     emitted := emitted w; closed := closed w;
     archive := z; progress := progress w |}.

Definition set_progress (p : nat * nat * option BsmLocalMap) (w : world) : world :=
  {| fs := fs w; songCache := songCache w; logs := logs w; reads := reads w;
     emitted := emitted w; closed := closed w;
     archive := archive w; progress := p |}.

(** [++progress.current] *)
Definition incr_current : M unit :=
  λ w, match progress w with
       | (total, current, data) => (Ok (), set_progress (total, S current, data) w)
       end.

(** [progress.data = d] *)
Definition set_data (d : option BsmLocalMap) : M unit :=
  λ w, match progress w with
       | (total, current, _) => (Ok (), set_progress (total, current, d) w)
       end.

(** [observer.next(progress)] *)
Definition next_progress : M unit :=
  λ w, match progress w with
       | (total, current, data) => observer_next (Progression total current data) w
       end.

(** [JSZip.loadAsync(await readFile(zipPath))], the table of the new
    object being kept in the world. *)
Definition loadArchive (zipPath : string) : M JSZip :=
  do content <- readFile (value zipPath);
  match JSZip_loadAsync content with
  | Some z => λ w, (Ok z, set_archive z w)
  | None => throw LibraryError
  end.

(** [zip.folder(relativeFolder).forEach((relativeFolder, file) =>
    { files[relativeFolder] = file; })]: the folder entry is added to the
    archive when missing, and [files] collects the entries below it. *)
Definition collect_folder (relativeFolder : string)
    : M (list (string * JSZipObject)) :=
  λ w, let z := JSZipModel.folderAdd (String.length relativeFolder)
                  relativeFolder (archive w) in
       let root := JSZipModel.forceTrailingSlash relativeFolder in
       (Ok (foldl (λ files kf, JS.assign kf.1 kf.2 files) []
                  (JSZipModel.forEach root z)),
        set_archive z w).

(** [for (const [relativePath, file] of Object.entries(files))] *)
Fixpoint extractFiles (mapPath : string) (entries : list (string * JSZipObject))
    : M unit :=
  match entries with
  | [] => ret ()
  | (relativePath, file) :: entries' =>
      let filepath := path.join mapPath relativePath in
      (if zdir file then ensureFolderExist filepath
       else
         log (InfoExtracting filepath);;
         writeFile filepath (zdata file));;
      extractFiles mapPath entries'
  end.

(** [importMap(zip, zipPath, relativeFolder, mapName, mapsFolder)], the
    zip being the archive of the world.  Neither [path.join] nor
    [pathExistsSync] throws, so [mapPath] and [existing] are assigned by
    the time the handler runs. *)
Definition importMap (zipPath relativeFolder mapName mapsFolder : string)
    : M BsmLocalMap :=
  let mapPath := path.join mapsFolder mapName in
  do existing <- pathExistsSync mapPath;
  try_catch
    (log (InfoImporting zipPath relativeFolder mapPath);;
     (if negb existing then mkdir_recursive mapPath else ret ());;
     do files <-
       (if bool_decide (relativeFolder = "")
        then λ w, (Ok (JSZipModel.properties (archive w)), w)
        else collect_folder relativeFolder);
     extractFiles mapPath (JS.own_properties files);;
     do localMap <- loadMapInfoFromPath mapPath;
     match localMap with
     | None => throw TypeError
     | Some localMap =>
         ret {| mapInfo := mapInfo localMap;
                coverUrl := coverUrl localMap;
                songUrl := songUrl localMap;
                hash := hash localMap;
                map_path := map_path localMap;
                songDetails := getSongDetails (hash localMap) |}
     end)
    (λ error,
       (if negb existing && negb (bool_decide (mapPath = ""))
        then unlinkSync mapPath
        else if existing && negb (bool_decide (mapPath = ""))
             then log (WarnCouldBeBroken mapPath)
             else ret ());;
       throw (as_CustomError error)).

(** The matched manifest entries of an archive. *)
Definition infoDatFiles (zip : JSZip) : list JSZipObject :=
  JSZipModel.file_regex JSZipModel.INFO_DAT_REGEX_test zip.

(** The first loop of [handleZipPaths]: planning. *)
Fixpoint countMaps (zipPaths : list string) (zips : list zipInfo) (total : nat)
    : M (list zipInfo * nat) :=
  match zipPaths with
  | [] => ret (zips, total)
  | zipPath :: zipPaths' =>
      do '(zips1, total1) <-
        try_catch
          (do zip <- loadArchive zipPath;
           let files := infoDatFiles zip in
           if bool_decide (length files = 0) then
             log (WarnNoInfoDat zipPath);;
             ret (zips, total)
           else
             ret (zips ++
                    [ {| zi_path := zipPath;
                         zi_single :=
                           bool_decide
                             (Array_findIndex
                                (λ file, includes (zname file) path.sep) files
                              = (-1)%Z);
                         zi_folders := (λ file, path.dirname (zname file)) <$> files |} ],
                  total + length files))
          (λ error,
             log (WarnCouldNotCount zipPath);;
             ret (zips, total));
      countMaps zipPaths' zips1 total1
  end.

(** [for (const relativeFolder of zipInfo.folders)] *)
Fixpoint importFolders (zipPath mapsFolder : string) (folders : list string)
    : M unit :=
  match folders with
  | [] => ret ()
  | relativeFolder :: folders' =>
      incr_current;;
      try_finally
        (try_catch
           (do data <- importMap zipPath relativeFolder
                         (path.basename relativeFolder) mapsFolder;
            set_data (Some data))
           (λ error,
              log (ErrCouldNotImport zipPath);;
              set_data None))
        next_progress;;
      importFolders zipPath mapsFolder folders'
  end.

(** One turn of [for (const zipInfo of info.zips)]. *)
Definition importZip (mapsFolder : string) (zi : zipInfo) : M unit :=
  try_catch
    (loadArchive (zi_path zi);;
     if zi_single zi then
       incr_current;;
       do data <- importMap (zi_path zi) ""
                    (path.basename_ext (zi_path zi) ".zip") mapsFolder;
       set_data (Some data);;
       next_progress
     else
       importFolders (zi_path zi) mapsFolder (zi_folders zi))
    (λ error,
       log (ErrCouldNotImport (zi_path zi));;
       set_data None;;
       next_progress).

Fixpoint importZips (mapsFolder : string) (zips : list zipInfo) : M unit :=
  match zips with
  | [] => ret ()
  | zi :: zips' => importZip mapsFolder zi;; importZips mapsFolder zips'
  end.

(** [handleZipPaths(zipPaths, observer, version?)] *)
Definition handleZipPaths (zipPaths : list string) (version : option BSVersion)
    : M unit :=
  do '(zips, total) <- countMaps zipPaths [] 0;
  if bool_decide (total = 0) then throw (CustomError (Some "invalid-zip"))
  else
    (λ w, (Ok (), set_progress (total, 0, None) w));;
    do mapsFolder <- getMapsFolderPath version;
    next_progress;;
    importZips mapsFolder zips.

(** [importMaps(zipPaths, version?)] *)
Definition importMaps (zipPaths : list string) (version : option BSVersion)
    : world → world :=
  subscribe (handleZipPaths zipPaths version).

(** *** Lookup by hash *)

(** Modelled from the spec: [SongCacheService.getMapInfoFromHash], the
    [getByHash(hash) -> folderNameHint] of the metadata cache: the folder
    name of an entry that holds this hash, when there is one. *)
Definition songCache_getMapInfoFromHash (hash_ : string) : M (option string) :=
  λ w, (Ok (head (filter (λ kv : string * CachedMapInfo, cached_hash kv.2 = hash_)
                         (map_to_list (songCache w))).*1), w).

(** The search loop of [getMapInfoFromHash]: the first folder whose load
    succeeds with the hash asked for. *)
Fixpoint findMapWithHash (hash_ : string) (mapsPaths : list string)
    : M (option BsmLocalMap) :=
  match mapsPaths with
  | [] => ret None
  | mapPath :: mapsPaths' =>
      do r <- tryit (loadMapInfoFromPath mapPath);
      match r with
      | Some (Some localMap) =>
          if bool_decide (hash localMap = hash_) then ret (Some localMap)
          else findMapWithHash hash_ mapsPaths'
      | _ => findMapWithHash hash_ mapsPaths'
      end
  end.

(** [getMapInfoFromHash(hash, version?)]; [None] is the [null] result.
    [cachedMapPath] is falsy when either operand of the conjunction is. *)
Definition getMapInfoFromHash (hash_ : string) (version : option BSVersion)
    : M (option BsmLocalMap) :=
  do versionMapsPath <- getMapsFolderPath version;
  do cached <- songCache_getMapInfoFromHash hash_;
  let cachedMapPath :=
    match cached with
    | Some dirname =>
        if negb (bool_decide (versionMapsPath = ""))
           && negb (bool_decide (dirname = ""))
        then Some (path.join versionMapsPath dirname)
        else None
    | None => None
    end in
  do found <-
    match cachedMapPath with
    | Some p => if bool_decide (p = "") then ret false else pathExistsSync p
    | None => ret false
    end;
  match found, cachedMapPath with
  | true, Some p => loadMapInfoFromPath p
  | _, _ =>
      do mapsPaths <- getFoldersInFolder versionMapsPath;
      findMapWithHash hash_ mapsPaths
  end.

End LocalMapsManagerService.

(** ** The vocabulary of the properties *)

(** Every run of [m] takes a world to an [R]-related one. *)
Definition preserves {A} (R : world → world → Prop) (m : M A) : Prop :=
  ∀ w, R w (m w).2.

(** A projection of the world that a computation leaves alone. *)
Definition keeps {X} (f : world → X) (w w' : world) : Prop := f w' = f w.

(** The log only ever grows. *)
Definition logs_grow (w w' : world) : Prop := logs w `prefix_of` logs w'.

Section Vocabulary.

Context `{Externals}.

(** Reading a whole file: what [createReadStream] delivers. *)
Definition read_result (n : option node) : result string :=
  match n with
  | Some (File c) => Ok c
  | Some Dir => Err (SystemError "EISDIR")
  | None => Err (SystemError "ENOENT")
  end.

(** The file names a manifest refers to, in declaration order: for each
    difficulty the beatmap file, then the lightshow file. *)
Definition referenced (diffs : list MapDifficulty) : list string :=
  diffs ≫= λ diff,
    option_list (truthy (beatmapFilename diff))
    ++ option_list (truthy (lightshowDataFilename diff)).

(** Feeding the hash object the files read, in order, until one fails. *)
Fixpoint feed (shasum : string) (files : list (result string)) : result string :=
  match files with
  | [] => Ok shasum
  | Ok c :: files' => feed (shasum +:+ c) files'
  | Err e :: _ => Err e
  end.

(** The digest as a function of the manifest text and of the content of
    the referenced files alone. *)
Definition digest_of (rawInfoString : string) (content : string → result string)
    : result string :=
  match parseMapInfoDat rawInfoString with
  | None => Err (CustomError (Some "cannot-parse-map-info"))
  | Some mapInfo =>
      match feed rawInfoString (content <$> referenced (difficulties mapInfo)) with
      | Ok shasum => Ok (sha1_hex shasum)
      | Err e => Err e
      end
  end.

Definition cache_entry (localMap : BsmLocalMap) : CachedMapInfo :=
  {| cached_mapInfo := mapInfo localMap; cached_hash := hash localMap |}.

(** The cache holds what was loaded for the folder name of [localMap]. *)
Definition cached_in (w : world) (localMap : BsmLocalMap) : Prop :=
  songCache w !! path.basename (map_path localMap) = Some (cache_entry localMap).

(** Entries of the cache are kept as they are. *)
Definition cache_grows (w w' : world) : Prop := songCache w ⊆ songCache w'.

Definition snap_maps (s : snapshot) : list BsmLocalMap :=
  match s with
  | BsmLocalMapsProgress _ _ maps => maps
  | _ => []
  end.

(** The counters never decrease along a sequence of snapshots. *)
Definition counters_monotone (snaps : list snapshot) : Prop :=
  ∀ i j s t, i ≤ j → snaps !! i = Some s → snaps !! j = Some t →
             snap_total s ≤ snap_total t ∧ snap_count s ≤ snap_count t.

(** Snapshots of one run: the same total throughout, the counter climbing
    from [lo] without passing [hi]. *)
Fixpoint ramp (total lo hi : nat) (snaps : list snapshot) : Prop :=
  match snaps with
  | [] => lo ≤ hi
  | s :: snaps' =>
      snap_total s = total ∧ lo ≤ snap_count s ∧ ramp total (snap_count s) hi snaps'
  end.

(** The observer is open, and the run appends [snaps] to what it got. *)
Definition emits (w w' : world) (snaps : list snapshot) : Prop :=
  closed w' = None ∧ emitted w' = emitted w ++ snaps.

(** Computations that do not talk to the observer. *)
Definition silent {A} (m : M A) : Prop :=
  preserves (keeps emitted) m ∧ preserves (keeps closed) m.

(** The snapshots of a scan before the last one carry no maps. *)
Definition scan_trace (total lo hi : nat) (snaps : list snapshot) : Prop :=
  ramp total lo hi snaps ∧ Forall (λ s, snap_maps s = []) snaps.

(** Removing a folder and what lies below it. *)
Definition remove_tree (p : string) (m : gmap string node) : gmap string node :=
  filter (λ kn : string * node, is_under (fskey p) kn.1 = false) m.

(** The outcome of a load as a function of the disk and of the cache. *)
Definition load_result (m : gmap string node) (c : gmap string CachedMapInfo)
    (mapPath : string) : result (option BsmLocalMap) :=
  match c !! path.basename mapPath with
  | Some e => Ok (Some (getUrlsAndReturn (cached_mapInfo e) (cached_hash e) mapPath))
  | None =>
      match Array_find
              (λ file, bool_decide (toLowerCase (path.basename file) = "info.dat"))
              (list_children is_file mapPath m) with
      | null => Ok None
      | undefined => Err TypeError
      | value infoFile =>
          match read_result (node_at m infoFile) with
          | Err e => Err e
          | Ok raw =>
              match parseMapInfoDat raw with
              | None => Err (CustomError (Some "cannot-parse-map-info"))
              | Some mapInfo =>
                  match digest_of raw
                          (λ f, read_result (node_at m (path.join mapPath f))) with
                  | Ok h => Ok (Some (getUrlsAndReturn mapInfo h mapPath))
                  | Err e => Err e
                  end
              end
          end
      end
  end.

(** Does the turn of [mapPath] find a map whose hash was asked for? *)
Definition matches (hashs : list string) (m : gmap string node)
    (c : gmap string CachedMapInfo) (mapPath : string) : bool :=
  match load_result m c mapPath with
  | Ok (Some localMap) => hashs_includes hashs (hash localMap)
  | _ => false
  end.

(** The folders the loop of [deleteMapsFromHashs] removes: those whose
    turn finds a map with a requested hash, on the disk and with the
    cache as the earlier turns left them. *)
Fixpoint removed (hashs : list string) (mapsPaths : list string)
    (m : gmap string node) (c : gmap string CachedMapInfo) : list string :=
  match mapsPaths with
  | [] => []
  | mapPath :: mapsPaths' =>
      if matches hashs m c mapPath
      then mapPath :: removed hashs mapsPaths' (remove_tree mapPath m)
                        (delete (path.basename mapPath) c)
      else removed hashs mapsPaths' m c
  end.

(** The hash each removed folder was loaded with, in the order of the
    removals. *)
Fixpoint removed_hashs (hashs : list string) (mapsPaths : list string)
    (m : gmap string node) (c : gmap string CachedMapInfo) : list string :=
  match mapsPaths with
  | [] => []
  | mapPath :: mapsPaths' =>
      match load_result m c mapPath with
      | Ok (Some localMap) =>
          if hashs_includes hashs (hash localMap)
          then hash localMap
                 :: removed_hashs hashs mapsPaths' (remove_tree mapPath m)
                      (delete (path.basename mapPath) c)
          else removed_hashs hashs mapsPaths' m c
      | _ => removed_hashs hashs mapsPaths' m c
      end
  end.

(** The result slot of a unit: the record, or nothing when it failed. *)
Definition slot (r : result BsmLocalMap) : option BsmLocalMap :=
  match r with
  | Ok localMap => Some localMap
  | Err _ => None
  end.

(** The body of the loop over the folders of a multi-map archive, after
    the counter has been advanced. *)
Definition unit_body (zipPath mapsFolder relativeFolder : string) : M unit :=
  try_finally
    (try_catch
       (do data <- importMap zipPath relativeFolder
                     (path.basename relativeFolder) mapsFolder;
        set_data (Some data))
       (λ error, log (ErrCouldNotImport zipPath);; set_data None))
    next_progress.

(** The world in which the unit of index [i] starts, its counter advanced. *)
Definition unit_world (zipPath mapsFolder : string) (folders : list string)
    (i : nat) (w : world) : world :=
  (incr_current (importFolders zipPath mapsFolder (take i folders) w).2).2.

(** The folder names the units of a planned archive are extracted to. *)
Definition unit_names (zi : zipInfo) : list string :=
  if zi_single zi then [path.basename_ext (zi_path zi) ".zip"]
  else path.basename <$> zi_folders zi.

(** A record pushed for an archive lies in one of its unit folders. *)
Definition lands_in (mapsFolder : string) (zi : zipInfo) (s : snapshot) : Prop :=
  ∀ localMap, snap_data s = Some localMap →
    ∃ name, name ∈ unit_names zi ∧ map_path localMap = path.join mapsFolder name.

(** The archive at [zipPath], when the file can be read and is a zip. *)
Definition archive_of (m : gmap string node) (zipPath : string) : option JSZip :=
  match read_result (node_at m zipPath) with
  | Ok content => JSZip_loadAsync content
  | Err _ => None
  end.

(** The number of manifest entries an archive contributes. *)
Definition yield (m : gmap string node) (zipPath : string) : nat :=
  match archive_of m zipPath with
  | Some zip => length (infoDatFiles zip)
  | None => 0
  end.

(** The plan for an archive: none when it contributes nothing. *)
Definition plan_of (m : gmap string node) (zipPath : string) : option zipInfo :=
  match archive_of m zipPath with
  | Some zip =>
      let files := infoDatFiles zip in
      if bool_decide (length files = 0) then None
      else Some {| zi_path := zipPath;
                   zi_single :=
                     bool_decide
                       (Array_findIndex
                          (λ file, includes (zname file) path.sep) files
                        = (-1)%Z);
                   zi_folders := (λ file, path.dirname (zname file)) <$> files |}
  | None => None
  end.

(** The maps folder of a version, or of the shared pool. *)
Definition mapsFolderPath (version : option BSVersion) : string :=
  match version with
  | Some v => path.join (getVersionPath v) RELATIVE_MAPS_FOLDER
  | None => path.join_list [sharedContentPath; SHARED_MAPS_FOLDER; CUSTOM_LEVELS_FOLDER]
  end.



(** Directories stay directories. *)
Definition dirs_persist (w w' : world) : Prop :=
  ∀ k, key_node (fs w) k = Some Dir → key_node (fs w') k = Some Dir.

(** The part of [importMap] that follows the creation of the folder. *)
Definition importMap_rest (relativeFolder mapPath : string) : M BsmLocalMap :=
  do files <-
    (if bool_decide (relativeFolder = "")
     then λ w, (Ok (JSZipModel.properties (archive w)), w)
     else collect_folder relativeFolder);
  extractFiles mapPath (JS.own_properties files);;
  do localMap <- loadMapInfoFromPath mapPath;
  match localMap with
  | None => throw TypeError
  | Some localMap =>
      ret {| mapInfo := mapInfo localMap;
             coverUrl := coverUrl localMap;
             songUrl := songUrl localMap;
             hash := hash localMap;
             map_path := map_path localMap;
             songDetails := getSongDetails (hash localMap) |}
  end.

(** The handler of [importMap]. *)
Definition importMap_handler (existing : bool) (mapPath : string) (error : error)
    : M BsmLocalMap :=
  (if negb existing && negb (bool_decide (mapPath = ""))
   then unlinkSync mapPath
   else if existing && negb (bool_decide (mapPath = ""))
        then log (WarnCouldBeBroken mapPath)
        else ret ());;
  throw (as_CustomError error).

(** The maps a scan of [mapsPaths] collects, in order, on disk [m] and
    with the cache as the earlier folders left it. *)
Fixpoint scanned (mapsPaths : list string) (m : gmap string node)
    (c : gmap string CachedMapInfo) : list BsmLocalMap :=
  match mapsPaths with
  | [] => []
  | mapPath :: mapsPaths' =>
      match load_result m c mapPath with
      | Ok (Some localMap) =>
          localMap :: scanned mapsPaths' m
                        (<[path.basename mapPath := cache_entry localMap]> c)
      | _ => scanned mapsPaths' m c
      end
  end.

(** The cache a scan of [mapsPaths] leaves. *)
Fixpoint scan_cache (mapsPaths : list string) (m : gmap string node)
    (c : gmap string CachedMapInfo) : gmap string CachedMapInfo :=
  match mapsPaths with
  | [] => c
  | mapPath :: mapsPaths' =>
      match load_result m c mapPath with
      | Ok (Some localMap) =>
          scan_cache mapsPaths' m
            (<[path.basename mapPath := cache_entry localMap]> c)
      | _ => scan_cache mapsPaths' m c
      end
  end.

(** The snapshots pushed while the maps are loaded: the counter goes up
    by one from [from], the list of maps is still empty. *)
Definition ticks (total from n : nat) : list snapshot :=
  (λ k, BsmLocalMapsProgress total k []) <$> seq (S from) n.

(** The listed folders that exist when their turn comes in [deleteMaps]:
    those before them have been removed by then. *)
Fixpoint unlinked (maps : list string) (m : gmap string node) : list string :=
  match maps with
  | [] => []
  | mapPath :: maps' =>
      if bool_decide (is_Some (node_at m mapPath))
      then mapPath :: unlinked maps' (remove_tree mapPath m)
      else unlinked maps' m
  end.

(** Nothing that was on disk is lost: every entry is still there, a file
    still a file and a folder still a folder. The content of a file may
    have changed. *)
Definition nothing_lost (w w' : world) : Prop :=
  ∀ k n, fs w !! k = Some n → ∃ n', fs w' !! k = Some n' ∧ is_dir n' = is_dir n.

(** The number of units planned for an archive. *)
Definition units (zi : zipInfo) : nat :=
  if zi_single zi then 1 else length (zi_folders zi).

(** The entries a unit of a multi-map archive iterates over, each with its
    path relative to the unit's folder: what [zip.folder(relativeFolder)
    .forEach] visits. *)
Definition unit_entries (relativeFolder : string) (z : JSZip)
    : list (string * JSZipObject) :=
  JSZipModel.forEach (JSZipModel.forceTrailingSlash relativeFolder)
    (JSZipModel.folderAdd (String.length relativeFolder) relativeFolder z).

(** The entries a unit extracts, each with its path relative to the
    destination folder: the whole archive when the archive holds a single
    map, else the entries under the unit's folder. *)
Definition unit_scope (relativeFolder : string) (z : JSZip)
    : list (string * JSZipObject) :=
  if bool_decide (relativeFolder = "") then JSZipModel.properties z
  else unit_entries relativeFolder z.


(** Two worlds that differ at most in the log and in the count of reads. *)
Definition alike (w1 w2 : world) : Prop :=
  fs w1 = fs w2 ∧ songCache w1 = songCache w2 ∧ emitted w1 = emitted w2
  ∧ closed w1 = closed w2 ∧ archive w1 = archive w2 ∧ progress w1 = progress w2.

(** A computation that looks neither at the log nor at the count of
    reads: from alike worlds it gives the same result and alike worlds. *)
Definition blind {A} (m : M A) : Prop :=
  ∀ w1 w2, alike w1 w2 → (m w1).1 = (m w2).1 ∧ alike (m w1).2 (m w2).2.

End Vocabulary.
(** ** A concrete instance, for running the service on examples *)

Module Demo.

Definition easy : MapInfo :=
  {| coverImageFilename := "cover.png"; songFilename := "song.ogg";
     difficulties :=
       [ {| beatmapFilename := Some "Easy.dat"; lightshowDataFilename := None |} ] |}.

Definition two : MapInfo :=
  {| coverImageFilename := "cover.png"; songFilename := "song.ogg";
     difficulties :=
       [ {| beatmapFilename := Some "Easy.dat"; lightshowDataFilename := Some "Lights.dat" |};
         {| beatmapFilename := Some "Expert.dat"; lightshowDataFilename := None |} ] |}.

(** Archives, by the content of the zip file. *)
Definition entry (name data : string) : JSZipObject :=
  {| zname := name; zdir := false; zdata := data |}.

Definition folder (name : string) : JSZipObject :=
  {| zname := name; zdir := true; zdata := "" |}.

Definition MyMap_zip : JSZip :=
  [ entry "Info.dat" "manifest:two"; entry "Easy.dat" "e"; entry "Lights.dat" "l";
    entry "Expert.dat" "x" ].

Definition Broken_zip : JSZip :=
  [ entry "Info.dat" "not a manifest"; entry "Easy.dat" "e" ].

Definition Pack_zip : JSZip :=
  [ folder "Pack/"; folder "Pack/A/"; entry "Pack/A/Info.dat" "manifest:easy";
    entry "Pack/A/Easy.dat" "a";
    folder "Pack/B/"; entry "Pack/B/Info.dat" "not a manifest";
    folder "Pack/C/"; entry "Pack/C/info.dat" "manifest:easy";
    entry "Pack/C/Easy.dat" "c" ].

Definition Empty_zip : JSZip := [ entry "readme.txt" "hello" ].

#[export] Instance externals : Externals :=
  {| parseMapInfoDat raw :=
       if bool_decide (raw = "manifest:easy") then Some easy
       else if bool_decide (raw = "manifest:two") then Some two
       else None;
     sha1_hex s := "sha1(" +:+ s +:+ ")";
     pathToFileURL p := "file://" +:+ p;
     getSongDetails _ := None;
     JSZip_loadAsync content :=
       if bool_decide (content = "zip:MyMap") then Some MyMap_zip
       else if bool_decide (content = "zip:Broken") then Some Broken_zip
       else if bool_decide (content = "zip:Pack") then Some Pack_zip
       else if bool_decide (content = "zip:Empty") then Some Empty_zip
       else None;
     getVersionPath v := "/bs/" +:+ v;
     sharedContentPath := "/shared" |}.

Definition levels : string := "/bs/1.29.1/Beat Saber_Data/CustomLevels".

Definition disk : gmap string node :=
  list_to_map
    [ ("/bs", Dir); ("/bs/1.29.1", Dir); ("/bs/1.29.1/Beat Saber_Data", Dir);
      (levels, Dir);
      (levels +:+ "/SongA", Dir);
      (levels +:+ "/SongA/Info.dat", File "manifest:easy");
      (levels +:+ "/SongA/Easy.dat", File "aaa");
      (levels +:+ "/Notes", Dir);
      (levels +:+ "/Notes/readme.txt", File "not a map");
      ("/backup", Dir);
      ("/backup/Copy", Dir);
      ("/backup/Copy/Info.dat", File "manifest:easy");
      ("/backup/Copy/Easy.dat", File "aaa");
      ("/downloads", Dir);
      ("/downloads/MyMap.zip", File "zip:MyMap");
      ("/downloads/Broken.zip", File "zip:Broken");
      ("/downloads/Pack.zip", File "zip:Pack");
      ("/downloads/Empty.zip", File "zip:Empty") ].

Definition w0 : world :=
  {| fs := disk; songCache := ∅; logs := []; reads := 0; emitted := [];
     closed := None; archive := []; progress := (0, 0, None) |}.

Definition SongA : BsmLocalMap :=
  {| mapInfo := easy;
     coverUrl := "file:///bs/1.29.1/Beat Saber_Data/CustomLevels/SongA/cover.png";
     songUrl := "file:///bs/1.29.1/Beat Saber_Data/CustomLevels/SongA/song.ogg";
     hash := "sha1(manifest:easyaaa)";
     map_path := "/bs/1.29.1/Beat Saber_Data/CustomLevels/SongA";
     songDetails := None |}.

Definition MyMap : BsmLocalMap :=
  {| mapInfo := two;
     coverUrl := "file:///bs/1.29.1/Beat Saber_Data/CustomLevels/MyMap/cover.png";
     songUrl := "file:///bs/1.29.1/Beat Saber_Data/CustomLevels/MyMap/song.ogg";
     hash := "sha1(manifest:twoelx)";
     map_path := "/bs/1.29.1/Beat Saber_Data/CustomLevels/MyMap";
     songDetails := None |}.

Definition Pack_plan : zipInfo :=
  {| zi_path := "/downloads/Pack.zip"; zi_single := false;
     zi_folders := ["Pack/A"; "Pack/B"; "Pack/C"] |}.

(** The world in which the units of an import of three maps start. *)
Definition importing : world := set_progress (3, 0, None) w0.

(** A cache that knows SongA, as a scan of version 1.29.1 leaves it. *)
Definition scanned_cache : gmap string CachedMapInfo :=
  {[ "SongA" := {| cached_mapInfo := easy;
                   cached_hash := "sha1(manifest:easyaaa)" |} ]}.

Definition w_scanned : world := set_songCache scanned_cache w0.

(** A cache with an entry left over for a folder named MyMap. *)
Definition stale : CachedMapInfo :=
  {| cached_mapInfo := easy; cached_hash := "sha1(old)" |}.

Definition w_stale : world :=
  set_archive MyMap_zip (set_songCache {[ "MyMap" := stale ]} w0).

(** What an import into MyMap returns while the stale entry is there. *)
Definition MyMap_stale : BsmLocalMap :=
  {| mapInfo := easy;
     coverUrl := "file:///bs/1.29.1/Beat Saber_Data/CustomLevels/MyMap/cover.png";
     songUrl := "file:///bs/1.29.1/Beat Saber_Data/CustomLevels/MyMap/song.ogg";
     hash := "sha1(old)";
     map_path := "/bs/1.29.1/Beat Saber_Data/CustomLevels/MyMap";
     songDetails := None |}.

Definition Broken_plan : zipInfo :=
  {| zi_path := "/downloads/Broken.zip"; zi_single := true; zi_folders := ["."] |}.

(** The record of the unit Pack/A of Pack.zip. *)
Definition PackA : BsmLocalMap :=
  {| mapInfo := easy;
     coverUrl := "file:///bs/1.29.1/Beat Saber_Data/CustomLevels/A/cover.png";
     songUrl := "file:///bs/1.29.1/Beat Saber_Data/CustomLevels/A/song.ogg";
     hash := "sha1(manifest:easya)";
     map_path := "/bs/1.29.1/Beat Saber_Data/CustomLevels/A";
     songDetails := None |}.

(** An archive with one map at its root and one in a folder. *)
Definition RootPack_zip : JSZip :=
  [ entry "Info.dat" "manifest:easy"; entry "Easy.dat" "r";
    folder "Pack/"; folder "Pack/A/"; entry "Pack/A/Info.dat" "manifest:easy";
    entry "Pack/A/Easy.dat" "a" ].


(** An import of a single map and of a pack, and its plan. *)
Definition two_archives : list string :=
  ["/downloads/MyMap.zip"; "/downloads/Pack.zip"].


(** A pack whose map holds an entry named as the accessor of
    [Object.prototype]. *)
Definition ProtoPack_zip : JSZip :=
  [ folder "P/"; folder "P/A/"; entry "P/A/Info.dat" "manifest:easy";
    entry "P/A/Easy.dat" "a"; entry "P/A/__proto__" "x" ].

(** SongA installed twice, under two names. *)
Definition w_twins : world :=
  set_fs (<[levels +:+ "/SongB" := Dir]>
            (<[levels +:+ "/SongB/Info.dat" := File "manifest:easy"]>
               (<[levels +:+ "/SongB/Easy.dat" := File "aaa"]> (fs w0)))) w0.

End Demo.

(** * Properties *)

(** ** Reasoning about computations *)

Section Preservation.

Context (R : world → world → Prop) `{!PreOrder R}.

Lemma preserves_ret {A} (a : A) : preserves R (ret a).
Proof. intros w. reflexivity. Qed.

Lemma preserves_throw {A} (e : error) : preserves R (@throw A e).
Proof. intros w. reflexivity. Qed.

Lemma preserves_bind {A B} (m : M A) (k : A → M B) :
  preserves R m → (∀ a, preserves R (k a)) → preserves R (bind m k).
Proof.
  intros Hm Hk w. unfold bind. specialize (Hm w).
  destruct (m w) as [[a|e] w1]; simpl in *; [|done].
  etrans; [exact Hm|apply Hk].
Qed.

Lemma preserves_try_catch {A} (m : M A) (h : error → M A) :
  preserves R m → (∀ e, preserves R (h e)) → preserves R (try_catch m h).
Proof.
  intros Hm Hh w. unfold try_catch. specialize (Hm w).
  destruct (m w) as [[a|e] w1]; simpl in *; [done|].
  etrans; [exact Hm|apply Hh].
Qed.

Lemma preserves_try_finally {A} (m : M A) (f : M unit) :
  preserves R m → preserves R f → preserves R (try_finally m f).
Proof.
  intros Hm Hf w. unfold try_finally. specialize (Hm w).
  destruct (m w) as [r w1]; simpl in *.
  etrans; [exact Hm|apply Hf].
Qed.

Lemma preserves_tryit {A} (m : M A) : preserves R m → preserves R (tryit m).
Proof.
  intros Hm w. unfold tryit. specialize (Hm w).
  by destruct (m w) as [[a|e] w1].
Qed.

Lemma preserves_settled {A} (m : M (option A)) :
  preserves R m → preserves R (settled m).
Proof.
  intros Hm w. unfold settled. specialize (Hm w).
  by destruct (m w) as [[[a|]|e] w1].
Qed.

End Preservation.

#[global] Instance keeps_preorder {X} (f : world → X) : PreOrder (keeps f).
Proof. split; [by intros w|intros w1 w2 w3; unfold keeps; congruence]. Qed.

#[global] Instance logs_grow_preorder : PreOrder logs_grow.
Proof. unfold logs_grow. split; [by intros w|intros w1 w2 w3; apply transitivity]. Qed.

Create HintDb frame discriminated.
Create HintDb prims discriminated.

#[global] Hint Unfold log observer_next observer_close observer_complete
  observer_error pathExistsSync pathExist mkdir_recursive writeFile
  unlinkSync readFile createReadStream getFilesInFolder getFoldersInFolder
  ensureFolderExist deleteFolder getMapInfoFromDirname setMapInfoFromDirname
  deleteMapInfoFromDirname set_fs set_songCache bump_reads : prims.

(** The primitive operations are settled by unfolding. *)
Ltac prim :=
  let w := fresh "w" in
  intros w; unfold keeps, logs_grow; autounfold with prims;
  repeat case_match; simpl;
  first [ done | by apply prefix_app_r ].

Ltac frame_step :=
  first
    [ assumption
    | match goal with |- PreOrder _ => apply _ end
    | solve [ auto 2 with frame nocore ]
    | apply preserves_ret
    | apply preserves_throw
    | apply preserves_bind; [apply _ | | intros ?]
    | apply preserves_try_catch; [apply _ | | intros ?]
    | apply preserves_try_finally
    | apply preserves_tryit
    | apply preserves_settled
    | match goal with
      | |- preserves _ (match ?x with _ => _ end) => destruct x
      | |- preserves _ (let '(_, _) := ?x in _) => destruct x
      end
    | solve [ prim ] ].

Ltac frame := repeat frame_step.

Section Properties.

Context `{Externals}.

(** ** What the operations leave related *)

(** An operation that only replaces the disk is covered by what holds
    for every replacement of the disk. *)
Lemma fs_writes_preserve (R : world → world → Prop) `{!PreOrder R} :
  (∀ m w, R w (set_fs m w)) →
  (∀ p, preserves R (pathExistsSync p))
  ∧ (∀ p, preserves R (mkdir_recursive p))
  ∧ (∀ p c, preserves R (writeFile p c))
  ∧ (∀ p, preserves R (unlinkSync p))
  ∧ (∀ p, preserves R (ensureFolderExist p)).
Proof.
  intros R_fs. repeat split; intros; intros w;
    unfold pathExistsSync, mkdir_recursive, writeFile, unlinkSync,
      ensureFolderExist;
    repeat case_match; cbn [fst snd]; done.
Qed.

Section Frame.

Context (R : world → world → Prop) `{!PreOrder R}.
Hypothesis R_writes :
  (∀ p, preserves R (pathExistsSync p))
  ∧ (∀ p, preserves R (mkdir_recursive p))
  ∧ (∀ p c, preserves R (writeFile p c))
  ∧ (∀ p, preserves R (unlinkSync p))
  ∧ (∀ p, preserves R (ensureFolderExist p)).
Hypothesis R_log : ∀ l w, R w (log l w).2.
Hypothesis R_reads : ∀ w, R w (bump_reads w).
Hypothesis R_archive : ∀ z w, R w (set_archive z w).

Lemma readFile_preserves p : preserves R (readFile p).
Proof. intros w. unfold readFile. repeat case_match; cbn [fst snd]; done. Qed.

Lemma hashDifficulties_preserves mapPath diffs shasum :
  preserves R (hashDifficulties mapPath diffs shasum).
Proof.
  pose proof readFile_preserves.
  revert shasum. induction diffs as [|diff diffs IH]; intros shasum; simpl.
  - frame.
  - unfold hashFile, createReadStream. frame.
Qed.

Lemma computeMapHash_preserves mapPath raw :
  preserves R (computeMapHash mapPath raw).
Proof.
  pose proof hashDifficulties_preserves.
  assert (∀ l, preserves R (log l)) by (intros l w; apply R_log).
  unfold computeMapHash. frame.
Qed.

Lemma loadMapInfoFromPath_preserves mapPath :
  preserves R (loadMapInfoFromPath mapPath).
Proof.
  pose proof readFile_preserves. pose proof computeMapHash_preserves.
  assert (∀ l, preserves R (log l)) by (intros l w; apply R_log).
  assert (∀ p, preserves R (getFilesInFolder p)).
  { intros p w. unfold getFilesInFolder. cbn [fst snd]. done. }
  assert (∀ p, preserves R (getMapInfoFromDirname p)) by (by intros p w).
  unfold loadMapInfoFromPath. frame.
Qed.

Lemma extractFiles_preserves mapPath entries :
  preserves R (extractFiles mapPath entries).
Proof.
  destruct R_writes as (? & ? & ? & ? & ?).
  assert (∀ l, preserves R (log l)) by (intros l w; apply R_log).
  induction entries as [|[relativePath file] entries IH]; simpl; frame.
Qed.

Lemma collect_folder_preserves relativeFolder :
  preserves R (collect_folder relativeFolder).
Proof. intros w. unfold collect_folder. cbn [fst snd]. done. Qed.

Lemma loadArchive_preserves zipPath : preserves R (loadArchive zipPath).
Proof.
  pose proof readFile_preserves.
  unfold loadArchive. frame; try (intros w; apply R_archive).
Qed.

Lemma importMap_preserves zipPath relativeFolder mapName mapsFolder :
  preserves R (importMap zipPath relativeFolder mapName mapsFolder).
Proof.
  destruct R_writes as (? & ? & ? & ? & ?).
  assert (∀ l, preserves R (log l)) by (intros l w; apply R_log).
  pose proof extractFiles_preserves. pose proof collect_folder_preserves.
  pose proof loadMapInfoFromPath_preserves.
  unfold importMap. frame; try by intros w.
Qed.

End Frame.

(** The instances for a projection [f] of the world. *)
Lemma loadMapInfoFromPath_keeps {X} (f : world → X) mapPath :
  (∀ w, f (bump_reads w) = f w) →
  (∀ l w, f (log l w).2 = f w) →
  preserves (keeps f) (loadMapInfoFromPath mapPath).
Proof. intros ? ?. apply loadMapInfoFromPath_preserves; try apply _; by unfold keeps. Qed.

Lemma importMap_keeps {X} (f : world → X)
    zipPath relativeFolder mapName mapsFolder :
  (∀ m w, f (set_fs m w) = f w) →
  (∀ l w, f (log l w).2 = f w) →
  (∀ w, f (bump_reads w) = f w) →
  (∀ z w, f (set_archive z w) = f w) →
  preserves (keeps f) (importMap zipPath relativeFolder mapName mapsFolder).
Proof.
  intros ? ? ? ?. apply importMap_preserves; try apply _; try by unfold keeps.
  apply fs_writes_preserve; [apply _|by unfold keeps].
Qed.

Lemma loadArchive_keeps {X} (f : world → X) zipPath :
  (∀ w, f (bump_reads w) = f w) →
  (∀ z w, f (set_archive z w) = f w) →
  preserves (keeps f) (loadArchive zipPath).
Proof. intros ? ?. apply loadArchive_preserves; try apply _; by unfold keeps. Qed.

Lemma logs_grow_log l w : logs_grow w (log l w).2.
Proof. unfold logs_grow, log. simpl. by apply prefix_app_r. Qed.

Lemma importMap_logs_grow zipPath relativeFolder mapName mapsFolder :
  preserves logs_grow (importMap zipPath relativeFolder mapName mapsFolder).
Proof.
  apply importMap_preserves; try apply _; try (by intros; unfold logs_grow).
  - apply fs_writes_preserve; [apply _|by intros; unfold logs_grow].
  - apply logs_grow_log.
Qed.

Lemma loadArchive_logs_grow zipPath : preserves logs_grow (loadArchive zipPath).
Proof. apply loadArchive_preserves; try apply _; by intros; unfold logs_grow. Qed.

(** ** The hash of a map *)

Lemma feed_app shasum l1 l2 :
  feed shasum (l1 ++ l2)
  = match feed shasum l1 with
    | Ok shasum1 => feed shasum1 l2
    | Err e => Err e
    end.
Proof.
  revert shasum. induction l1 as [|[c|e] l1 IH]; intros shasum; simpl; auto.
Qed.

(** One optional file of a difficulty: the outcome, and a world that
    differs by the reads only. *)
Lemma hash_optional_run mapPath (o : option string) shasum w :
  ∃ w',
    match truthy o with
    | Some f => hashFile (path.join mapPath f) shasum
    | None => ret shasum
    end w
    = (feed shasum
         ((λ f, read_result (node_at (fs w) (path.join mapPath f)))
            <$> option_list (truthy o)), w')
    ∧ fs w' = fs w.
Proof.
  destruct (truthy o) as [f|]; simpl; [|by exists w].
  exists (bump_reads w). split; [|done].
  unfold hashFile, createReadStream, readFile, bind, ret, read_result.
  by destruct (node_at (fs w) (path.join mapPath f)) as [[c|]|].
Qed.

Lemma hashDifficulties_feed mapPath diffs shasum w :
  (hashDifficulties mapPath diffs shasum w).1
  = feed shasum
      ((λ f, read_result (node_at (fs w) (path.join mapPath f)))
         <$> referenced diffs).
Proof.
  revert shasum w. induction diffs as [|diff diffs IH]; intros shasum w; [done|].
  unfold referenced. rewrite bind_cons, !fmap_app, <- !app_assoc, !feed_app.
  fold (referenced diffs).
  simpl hashDifficulties. unfold bind at 1.
  destruct (hash_optional_run mapPath (beatmapFilename diff) shasum w)
    as (w1 & -> & Hw1).
  destruct (feed shasum _) as [shasum1|e]; [|done].
  rewrite feed_app. unfold bind at 1.
  destruct (hash_optional_run mapPath (lightshowDataFilename diff) shasum1 w1)
    as (w2 & -> & Hw2).
  rewrite Hw1.
  destruct (feed shasum1 _) as [shasum2|e]; [|done].
  rewrite IH. by rewrite Hw2, Hw1.
Qed.

Lemma computeMapHash_keeps_fs mapPath raw :
  preserves (keeps fs) (computeMapHash mapPath raw).
Proof. apply computeMapHash_preserves; try apply _; by unfold keeps. Qed.

Lemma computeMapHash_digest_of mapPath raw w :
  (computeMapHash mapPath raw w).1
  = digest_of raw (λ f, read_result (node_at (fs w) (path.join mapPath f))).
Proof.
  unfold computeMapHash, digest_of.
  destruct (parseMapInfoDat raw) as [mi|]; [|done].
  rewrite <- hashDifficulties_feed. unfold bind, ret.
  by destruct (hashDifficulties _ _ _ w) as [[s|e] w1].
Qed.

(** C2. The digest [computeMapHash] returns is a function of the manifest
    text and of the bytes of the referenced beatmap and lightshow files,
    fed in declaration order ([digest_of]): two folders with the same
    manifest text whose referenced files read the same give the same
    outcome wherever they lie, and a second call on the world the first
    one left gives the same outcome again. *)
Theorem computeMapHash_deterministic
    (raw mapPath1 mapPath2 : string) (w1 w2 : world) :
  (∀ mapInfo f,
     parseMapInfoDat raw = Some mapInfo →
     f ∈ referenced (difficulties mapInfo) →
     read_result (node_at (fs w1) (path.join mapPath1 f))
     = read_result (node_at (fs w2) (path.join mapPath2 f))) →
  (computeMapHash mapPath1 raw w1).1
  = digest_of raw (λ f, read_result (node_at (fs w1) (path.join mapPath1 f)))
  ∧ (computeMapHash mapPath1 raw w1).1 = (computeMapHash mapPath2 raw w2).1
  ∧ (computeMapHash mapPath1 raw (computeMapHash mapPath1 raw w1).2).1
    = (computeMapHash mapPath1 raw w1).1.
Proof.
  intros Hsame. split; [apply computeMapHash_digest_of|]. split.
  - rewrite !computeMapHash_digest_of. unfold digest_of.
    destruct (parseMapInfoDat raw) as [mi|] eqn:Hp; [|done].
    assert ((λ f, read_result (node_at (fs w1) (path.join mapPath1 f)))
              <$> referenced (difficulties mi)
            = (λ f, read_result (node_at (fs w2) (path.join mapPath2 f)))
              <$> referenced (difficulties mi)) as ->; [|done].
    apply list_fmap_ext. intros i f Hf.
    eapply Hsame; [done|]. by eapply list_elem_of_lookup_2.
  - rewrite !computeMapHash_digest_of.
    by rewrite (computeMapHash_keeps_fs mapPath1 raw w1).
Qed.

(** ** Loading one folder *)

Lemma loadMapInfoFromPath_keeps_fs mapPath :
  preserves (keeps fs) (loadMapInfoFromPath mapPath).
Proof. by apply loadMapInfoFromPath_keeps. Qed.

Lemma loadMapInfoFromPath_keeps_songCache mapPath :
  preserves (keeps songCache) (loadMapInfoFromPath mapPath).
Proof. by apply loadMapInfoFromPath_keeps. Qed.

(** On a hit the load answers from the cache and touches nothing. *)
Lemma loadMapInfoFromPath_hit mapPath c w :
  songCache w !! path.basename mapPath = Some c →
  loadMapInfoFromPath mapPath w
  = (Ok (Some (getUrlsAndReturn (cached_mapInfo c) (cached_hash c) mapPath)), w).
Proof.
  intros Hc. unfold loadMapInfoFromPath, bind, getMapInfoFromDirname.
  by rewrite Hc.
Qed.

(** A load that succeeds returns a record for the path it was given. *)
Lemma loadMapInfoFromPath_path mapPath w localMap :
  (loadMapInfoFromPath mapPath w).1 = Ok (Some localMap) →
  map_path localMap = mapPath.
Proof.
  unfold loadMapInfoFromPath, bind, getMapInfoFromDirname, ret, throw.
  destruct (songCache w !! _); simpl; [by intros [= <-]|].
  destruct (strict_eq_null _); simpl; [done|].
  destruct (readFile _ _) as [[raw|e] w1]; simpl; [|done].
  destruct (parseMapInfoDat raw); simpl; [|done].
  destruct (computeMapHash _ _ _) as [[h|e] w2]; simpl; [|done].
  by intros [= <-].
Qed.

(** On a miss, a folder without any manifest makes the load raise: the
    lookup yields [undefined], which is not [null]. *)
Lemma loadMapInfoFromPath_no_manifest mapPath w :
  songCache w !! path.basename mapPath = None →
  (∀ file, file ∈ list_children is_file mapPath (fs w) →
           toLowerCase (path.basename file) ≠ "info.dat") →
  (loadMapInfoFromPath mapPath w).1 = Err TypeError.
Proof.
  intros Hc Hno. unfold loadMapInfoFromPath, bind, getMapInfoFromDirname.
  rewrite Hc. simpl.
  assert (Array_find
            (λ file, bool_decide (toLowerCase (path.basename file) = "info.dat"))
            (list_children is_file mapPath (fs w)) = undefined) as ->; [|done].
  induction (list_children is_file mapPath (fs w)) as [|file files IH]; [done|].
  simpl. rewrite bool_decide_eq_false_2 by (apply Hno; left).
  apply IH. intros f Hf. apply Hno. by right.
Qed.

(** ** The cache and the scan *)

#[local] Instance cache_grows_preorder : PreOrder cache_grows.
Proof.
  unfold cache_grows. split; [by intros w|].
  intros w1 w2 w3 ??. by etrans.
Qed.

Lemma cached_in_grows w w' localMap :
  cache_grows w w' → cached_in w localMap → cached_in w' localMap.
Proof. unfold cache_grows, cached_in. intros Hsub Hc. by eapply lookup_weaken. Qed.

Lemma insert_agree_subseteq (m : gmap string CachedMapInfo) k v :
  (∀ c, m !! k = Some c → v = c) → m ⊆ <[k:=v]> m.
Proof.
  intros Hv. destruct (m !! k) as [c|] eqn:Hk.
  - by rewrite insert_id by (by rewrite (Hv c)).
  - by apply insert_subseteq.
Qed.

(** What a successful load returns agrees with the entry the cache
    already holds for the folder name, if any. *)
Lemma loadMapInfoFromPath_agrees mapPath w localMap c :
  (loadMapInfoFromPath mapPath w).1 = Ok (Some localMap) →
  songCache w !! path.basename mapPath = Some c →
  cache_entry localMap = c.
Proof.
  intros Hl Hc. rewrite (loadMapInfoFromPath_hit _ _ _ Hc) in Hl.
  simpl in Hl. injection Hl as <-. by destruct c.
Qed.

Lemma scanOne_run total mapPath loaded w r w' :
  scanOne total mapPath loaded w = (r, w') →
  cache_grows w w'
  ∧ ∃ loaded1 o, r = Ok (loaded1, o)
     ∧ ∀ localMap, o = Some localMap → cached_in w' localMap.
Proof.
  unfold scanOne, bind, settled.
  pose proof (loadMapInfoFromPath_keeps_songCache mapPath w) as Hk.
  pose proof (loadMapInfoFromPath_path mapPath w) as Hp.
  pose proof (loadMapInfoFromPath_agrees mapPath w) as Ha.
  unfold keeps, cache_grows in *.
  destruct (loadMapInfoFromPath mapPath w) as [[[localMap|]|e] w1];
    simpl in *; try (intros [= <- <-]; split; [by rewrite Hk|]; by eexists _, _).
  specialize (Hp _ eq_refl).
  unfold setMapInfoFromDirname, observer_next, ret. simpl.
  fold (cache_entry localMap).
  assert (songCache w ⊆ <[path.basename mapPath:=cache_entry localMap]> (songCache w1)).
  { rewrite Hk. apply insert_agree_subseteq. intros c Hc. exact (Ha _ _ eq_refl Hc). }
  destruct (closed w1); simpl; intros [= <- <-]; simpl;
    (split; [done|]); eexists _, _; (split; [done|]); intros ? [= <-];
    unfold cached_in; simpl; rewrite Hp; apply lookup_insert_eq.
Qed.

Lemma scanChunk_run total chunk loaded w r w' :
  scanChunk total chunk loaded w = (r, w') →
  cache_grows w w'
  ∧ ∃ loaded1 maps, r = Ok (loaded1, maps)
     ∧ ∀ localMap, localMap ∈ maps → cached_in w' localMap.
Proof.
  revert loaded w r w'. induction chunk as [|mapPath chunk IH];
    intros loaded w r w'; simpl.
  { intros [= <- <-]. split; [done|]. eexists _, _. split; [done|].
    by intros ? ?%elem_of_nil. }
  unfold bind at 1.
  destruct (scanOne total mapPath loaded w) as [r1 w1] eqn:H1.
  apply scanOne_run in H1 as (Hg1 & loaded1 & o & -> & Hc1).
  unfold bind at 1.
  destruct (scanChunk total chunk loaded1 w1) as [r2 w2] eqn:H2.
  apply IH in H2 as (Hg2 & loaded2 & maps & -> & Hc2).
  intros [= <- <-].
  split; [by etrans; [exact Hg1|]|]. eexists _, _. split; [done|].
  intros localMap [Hin|Hin]%elem_of_app.
  - destruct o as [m|]; simpl in Hin; [|by apply elem_of_nil in Hin].
    apply list_elem_of_singleton in Hin as ->.
    eapply cached_in_grows; [exact Hg2|]. by apply Hc1.
  - by apply Hc2.
Qed.

Lemma scanChunks_run total pathChunks loaded loadedMaps w r w' :
  (∀ localMap, localMap ∈ loadedMaps → cached_in w localMap) →
  scanChunks total pathChunks loaded loadedMaps w = (r, w') →
  cache_grows w w'
  ∧ ∃ loaded1 maps, r = Ok (loaded1, maps)
     ∧ ∀ localMap, localMap ∈ maps → cached_in w' localMap.
Proof.
  revert loaded loadedMaps w r w'.
  induction pathChunks as [|chunk pathChunks IH];
    intros loaded loadedMaps w r w' Hin; simpl.
  { intros [= <- <-]. split; [done|]. by eexists _, _. }
  unfold bind at 1.
  destruct (scanChunk total chunk loaded w) as [r1 w1] eqn:H1.
  apply scanChunk_run in H1 as (Hg1 & loaded1 & maps1 & -> & Hc1).
  intros H2. apply IH in H2 as (Hg2 & Hrest).
  - split; [by etrans; [exact Hg1|]|done].
  - intros localMap [?|?]%elem_of_app; [|by apply Hc1].
    eapply cached_in_grows; [exact Hg1|]. by apply Hin.
Qed.

(** ** Progress snapshots *)

Lemma ramp_le total lo hi snaps : ramp total lo hi snaps → lo ≤ hi.
Proof.
  revert lo. induction snaps as [|s snaps IH]; intros lo; simpl; [done|].
  intros (_ & Hlo & Hr). apply IH in Hr. lia.
Qed.

Lemma ramp_weaken total lo lo' hi snaps :
  lo' ≤ lo → ramp total lo hi snaps → ramp total lo' hi snaps.
Proof. destruct snaps; simpl; [lia|]. intros ? (? & ? & ?). repeat split; [done|lia|done]. Qed.

Lemma ramp_app total lo mid hi snaps1 snaps2 :
  ramp total lo mid snaps1 → ramp total mid hi snaps2 →
  ramp total lo hi (snaps1 ++ snaps2).
Proof.
  revert lo. induction snaps1 as [|s snaps1 IH]; intros lo; simpl.
  - intros ? ?. by eapply ramp_weaken.
  - intros (? & ? & ?) ?. repeat split; [done..|]. by apply IH.
Qed.

Lemma ramp_bounds total lo hi snaps s :
  ramp total lo hi snaps → s ∈ snaps →
  snap_total s = total ∧ lo ≤ snap_count s ≤ hi.
Proof.
  revert lo. induction snaps as [|s' snaps IH]; intros lo Hr Hin.
  { by apply elem_of_nil in Hin. }
  destruct Hr as (Ht & Hlo & Hr).
  apply elem_of_cons in Hin as [->|Hin].
  - apply ramp_le in Hr. lia.
  - destruct (IH _ Hr Hin). lia.
Qed.

Lemma ramp_monotone total lo hi snaps :
  ramp total lo hi snaps → counters_monotone snaps.
Proof.
  revert lo. induction snaps as [|s0 snaps IH]; intros lo Hr i j s t Hij Hi Hj.
  { by rewrite lookup_nil in Hi. }
  destruct Hr as (Ht & Hlo & Hr).
  destruct i as [|i], j as [|j]; simpl in *; simplify_eq.
  - done.
  - apply list_elem_of_lookup_2 in Hj.
    destruct (ramp_bounds _ _ _ _ _ Hr Hj). lia.
  - lia.
  - eapply (IH _ Hr i j); [lia|done..].
Qed.

Lemma emits_trans w1 w2 w3 snaps1 snaps2 :
  emits w1 w2 snaps1 → emits w2 w3 snaps2 → emits w1 w3 (snaps1 ++ snaps2).
Proof.
  unfold emits. intros [? ->] [? ->]. by rewrite app_assoc.
Qed.

Lemma observer_next_emits s w :
  closed w = None → emits w (observer_next s w).2 [s].
Proof. unfold emits, observer_next. by intros ->. Qed.

Lemma silent_emits {A} (m : M A) w :
  silent m → closed w = None → emits w (m w).2 [].
Proof.
  intros [He Hc] Hw. unfold emits. rewrite (He w), (Hc w), app_nil_r. done.
Qed.

Lemma loadMapInfoFromPath_silent mapPath : silent (loadMapInfoFromPath mapPath).
Proof. split; by apply loadMapInfoFromPath_keeps. Qed.

Lemma scan_trace_app total lo mid hi snaps1 snaps2 :
  scan_trace total lo mid snaps1 → scan_trace total mid hi snaps2 →
  scan_trace total lo hi (snaps1 ++ snaps2).
Proof.
  intros [? ?] [? ?]. split; [by eapply ramp_app|by apply Forall_app].
Qed.

Lemma scanOne_emits total mapPath loaded w r w' :
  closed w = None →
  scanOne total mapPath loaded w = (r, w') →
  ∃ loaded1 o snaps,
    r = Ok (loaded1, o) ∧ emits w w' snaps ∧ scan_trace total loaded loaded1 snaps.
Proof.
  intros Hw. unfold scanOne, bind, settled.
  pose proof (silent_emits _ w (loadMapInfoFromPath_silent mapPath) Hw) as [Hc He].
  rewrite app_nil_r in He.
  destruct (loadMapInfoFromPath mapPath w) as [[[localMap|]|e] w1]; simpl in *;
    try (intros [= <- <-]; eexists _, _, []; unfold emits;
         rewrite app_nil_r; repeat split; simpl; done).
  unfold setMapInfoFromDirname, observer_next, ret. simpl. rewrite Hc. simpl.
  intros [= <- <-].
  eexists _, _, [_]. unfold emits. simpl. rewrite He.
  repeat split; simpl; try done; try lia. by repeat constructor.
Qed.

Lemma scanChunk_emits total chunk loaded w r w' :
  closed w = None →
  scanChunk total chunk loaded w = (r, w') →
  ∃ loaded1 maps snaps,
    r = Ok (loaded1, maps) ∧ emits w w' snaps ∧ scan_trace total loaded loaded1 snaps.
Proof.
  revert loaded w r w'. induction chunk as [|mapPath chunk IH];
    intros loaded w r w' Hw; simpl.
  { intros [= <- <-]. eexists _, _, []. unfold emits. rewrite app_nil_r.
    repeat split; simpl; done. }
  unfold bind at 1.
  destruct (scanOne total mapPath loaded w) as [r1 w1] eqn:H1.
  apply scanOne_emits in H1 as (loaded1 & o & snaps1 & -> & He1 & Ht1); [|done].
  unfold bind at 1.
  destruct (scanChunk total chunk loaded1 w1) as [r2 w2] eqn:H2.
  apply IH in H2 as (loaded2 & maps & snaps2 & -> & He2 & Ht2); [|by destruct He1].
  intros [= <- <-]. eexists _, _, _. split; [done|].
  split; [by eapply emits_trans|by eapply scan_trace_app].
Qed.

Lemma scanChunks_emits total pathChunks loaded loadedMaps w r w' :
  closed w = None →
  scanChunks total pathChunks loaded loadedMaps w = (r, w') →
  ∃ loaded1 maps snaps,
    r = Ok (loaded1, maps) ∧ emits w w' snaps ∧ scan_trace total loaded loaded1 snaps.
Proof.
  revert loaded loadedMaps w r w'.
  induction pathChunks as [|chunk pathChunks IH];
    intros loaded loadedMaps w r w' Hw; simpl.
  { intros [= <- <-]. eexists _, _, []. unfold emits. rewrite app_nil_r.
    repeat split; simpl; done. }
  unfold bind at 1.
  destruct (scanChunk total chunk loaded w) as [r1 w1] eqn:H1.
  apply scanChunk_emits in H1 as (loaded1 & maps1 & snaps1 & -> & He1 & Ht1); [|done].
  intros H2.
  apply IH in H2 as (loaded2 & maps & snaps2 & -> & He2 & Ht2); [|by destruct He1].
  eexists _, _, _. split; [done|].
  split; [by eapply emits_trans|by eapply scan_trace_app].
Qed.

(** The batches of a scan are the folders, cut up: none is lost. *)
Lemma splitIntoChunk_concat {A} (l : list A) (size : nat) :
  0 < size → concat (splitIntoChunk l size) = l.
Proof.
  intros Hsize. unfold splitIntoChunk.
  assert (∀ fuel (l : list A), length l ≤ fuel →
            concat (splitIntoChunk_go fuel l size) = l) as Hgo; [|by apply Hgo].
  clear l. induction fuel as [|fuel IH]; intros l Hl.
  { destruct l; [done|simpl in Hl; lia]. }
  destruct l as [|x l]; [done|].
  change (splitIntoChunk_go (S fuel) (x :: l) size)
    with (take size (x :: l) :: splitIntoChunk_go fuel (drop size (x :: l)) size).
  simpl concat. rewrite IH; [apply take_drop|].
  rewrite length_drop. simpl in *. lia.
Qed.

(** Resolving the maps folder always succeeds and is silent; it leaves
    the cache alone. *)
Lemma getMapsFolderPath_run version w :
  ∃ levelsFolder w',
    getMapsFolderPath version w = (Ok levelsFolder, w')
    ∧ emitted w' = emitted w ∧ closed w' = closed w
    ∧ songCache w' = songCache w ∧ progress w' = progress w
    ∧ logs w' = logs w.
Proof.
  unfold getMapsFolderPath. destruct version as [v|].
  { by eexists _, _. }
  unfold bind, pathExist, pathExistsSync, ensureFolderExist, ret. simpl.
  repeat case_match; simplify_eq/=; by eexists _, _.
Qed.

Lemma getMaps_body_run version w r w' :
  closed w = None →
  getMaps_body version w = (r, w') →
  r = Ok ()
  ∧ ((closed w' = Some Completed ∧ emitted w' = emitted w)
     ∨ ∃ total loaded maps snaps,
         emits w w' (snaps ++ [BsmLocalMapsProgress total loaded maps])
         ∧ scan_trace total 0 loaded snaps
         ∧ ∀ localMap, localMap ∈ maps → cached_in w' localMap).
Proof.
  intros Hw. unfold getMaps_body. unfold bind at 1.
  destruct (getMapsFolderPath_run version w)
    as (levelsFolder & w1 & -> & He1 & Hc1 & _).
  unfold bind at 1, pathExist, pathExistsSync. simpl.
  destruct (negb _).
  { unfold observer_complete, observer_close. rewrite Hc1, Hw.
    intros [= <- <-]. split; [done|]. by left. }
  unfold bind at 1, getFoldersInFolder. simpl.
  set (levelsPaths := list_children is_dir levelsFolder (fs w1)).
  unfold bind at 1.
  destruct (scanChunks _ _ _ _ _) as [r2 w2] eqn:H2.
  pose proof H2 as H2'.
  apply scanChunks_emits in H2 as (loaded & maps & snaps & -> & [Hc2 He2] & Ht);
    [|by simpl; rewrite Hc1].
  apply scanChunks_run in H2' as (_ & ? & ? & [= <- <-] & Hcached);
    [|by intros ? ?%elem_of_nil].
  unfold observer_next. rewrite Hc2. intros [= <- <-].
  split; [done|]. right. eexists _, _, _, snaps. unfold emits. simpl.
  rewrite He2. simpl. rewrite He1, app_assoc. done.
Qed.

(** What a subscriber of [getMaps] has received when the stream ends. *)
Lemma getMaps_run version w :
  closed (getMaps version w) = Some Completed
  ∧ (emitted (getMaps version w) = []
     ∨ ∃ total loaded maps snaps,
         emitted (getMaps version w) = snaps ++ [BsmLocalMapsProgress total loaded maps]
         ∧ scan_trace total 0 loaded snaps
         ∧ ∀ localMap, localMap ∈ maps → cached_in (getMaps version w) localMap).
Proof.
  unfold getMaps, subscribe.
  destruct (getMaps_body version (fresh_observer w)) as [r wb] eqn:Hb.
  apply getMaps_body_run in Hb as (-> & Hb); [|done].
  destruct Hb as [[Hc He]|(total & loaded & maps & snaps & [Hc He] & Ht & Hcached)].
  - unfold observer_close. rewrite Hc. split; [done|]. by left.
  - unfold observer_close. rewrite Hc. simpl. split; [done|]. right.
    eexists _, _, _, _. split; [exact He|]. done.
Qed.

(** A successful load on a miss leaves the cache as it was. *)
Lemma loadMapInfoFromPath_does_not_populate mapPath w :
  songCache (loadMapInfoFromPath mapPath w).2 = songCache w.
Proof. apply loadMapInfoFromPath_keeps_songCache. Qed.

(** C4, as the code has it. A load through [loadMapInfoFromPath] leaves
    the cache as it was; it is the scan, [getMaps], that stores each
    folder it loads under the folder's basename.  So for every map of
    the result a scan pushes, a later load of any path with the same
    folder name is answered from the cache, with the same manifest and
    hash, and leaves the world untouched: no file is read. *)
Theorem getMaps_populates_cache
    (version : option BSVersion) (w : world) (s : snapshot)
    (localMap : BsmLocalMap) (mapPath : string) :
  s ∈ emitted (getMaps version w) →
  localMap ∈ snap_maps s →
  path.basename mapPath = path.basename (map_path localMap) →
  (∀ w0 p, songCache (loadMapInfoFromPath p w0).2 = songCache w0)
  ∧ songCache (getMaps version w) !! path.basename mapPath
    = Some (cache_entry localMap)
  ∧ ∃ again,
      loadMapInfoFromPath mapPath (getMaps version w)
      = (Ok (Some again), getMaps version w)
      ∧ mapInfo again = mapInfo localMap
      ∧ hash again = hash localMap.
Proof.
  intros Hs Hm Hb. split; [intros; apply loadMapInfoFromPath_does_not_populate|].
  destruct (getMaps_run version w) as (_ & [Hnil|Hrun]).
  { rewrite Hnil in Hs. by apply elem_of_nil in Hs. }
  destruct Hrun as (total & loaded & maps & snaps & He & [_ Hempty] & Hcached).
  rewrite He in Hs. apply elem_of_app in Hs as [Hs|Hs].
  { rewrite Forall_forall in Hempty. rewrite (Hempty _ Hs) in Hm.
    by apply elem_of_nil in Hm. }
  apply list_elem_of_singleton in Hs as ->. simpl in Hm.
  specialize (Hcached _ Hm). unfold cached_in in Hcached.
  rewrite <- Hb in Hcached. split; [done|].
  eexists. split; [by apply loadMapInfoFromPath_hit|]. done.
Qed.

(** ** Deleting *)

Lemma subscribe_emitted body w :
  emitted (subscribe body w) = emitted (body (fresh_observer w)).2.
Proof.
  unfold subscribe, observer_close.
  destruct (body (fresh_observer w)) as [[?|?] wb]; simpl;
    by repeat (case_match; simpl).
Qed.

Lemma subscribe_fs body w :
  fs (subscribe body w) = fs (body (fresh_observer w)).2.
Proof.
  unfold subscribe, observer_close.
  destruct (body (fresh_observer w)) as [[?|?] wb]; simpl;
    by repeat (case_match; simpl).
Qed.

Lemma subscribe_songCache body w :
  songCache (subscribe body w) = songCache (body (fresh_observer w)).2.
Proof.
  unfold subscribe, observer_close.
  destruct (body (fresh_observer w)) as [[?|?] wb]; simpl;
    by repeat (case_match; simpl).
Qed.

Lemma subscribe_logs body w :
  logs (subscribe body w) = logs (body (fresh_observer w)).2.
Proof.
  unfold subscribe, observer_close.
  destruct (body (fresh_observer w)) as [[?|?] wb]; simpl;
    by repeat (case_match; simpl).
Qed.

Lemma deleteMaps_loop_emits total maps deleted w r w' :
  closed w = None →
  deleteMaps_loop total maps deleted w = (r, w') →
  ∃ deleted1 snaps,
    r = Ok deleted1 ∧ emits w w' snaps ∧ ramp total deleted deleted1 snaps
    ∧ length snaps = length maps.
Proof.
  revert deleted w r w'. induction maps as [|mapPath maps IH];
    intros deleted w r w' Hw; simpl.
  { intros [= <- <-]. eexists _, []. unfold emits. rewrite app_nil_r.
    repeat split; simpl; done. }
  unfold bind at 1, pathExistsSync. simpl.
  set (exists_ := bool_decide _).
  unfold bind at 1.
  set (step := if exists_ then _ else _).
  assert (∃ deleted1 w1, step w = (Ok deleted1, w1) ∧ deleted ≤ deleted1
                         ∧ closed w1 = None ∧ emitted w1 = emitted w)
    as (deleted1 & w1 & -> & Hd & Hc1 & He1).
  { unfold step. destruct exists_.
    - unfold bind, deleteFolder, deleteMapInfoFromDirname, ret. simpl.
      eexists _, _. split; [done|]. simpl. repeat split; [lia|done..].
    - eexists _, _. split; [done|]. repeat split; [lia|done..]. }
  unfold bind at 1, observer_next. rewrite Hc1.
  intros Hrest. apply IH in Hrest as (deleted2 & snaps & -> & [Hc2 He2] & Hr & Hlen);
    [|done].
  eexists _, (_ :: snaps). split; [done|]. unfold emits. simpl in *.
  rewrite He2, He1, <- app_assoc. simpl.
  repeat split; [done..|lia].
Qed.

Lemma loadMapInfoFromPath_result mapPath w :
  (loadMapInfoFromPath mapPath w).1 = load_result (fs w) (songCache w) mapPath.
Proof.
  unfold loadMapInfoFromPath, load_result, bind, getMapInfoFromDirname.
  destruct (songCache w !! _); [done|]. simpl.
  destruct (Array_find _ _) as [| |infoFile]; simpl; [done..|].
  unfold read_result.
  destruct (node_at (fs w) infoFile) as [[raw|]|]; simpl; [|done..].
  destruct (parseMapInfoDat raw) eqn:Hp; simpl; [|done].
  pose proof (computeMapHash_digest_of mapPath raw (bump_reads (bump_reads w))) as Hd.
  simpl in Hd. unfold read_result in Hd. rewrite <- Hd.
  by destruct (computeMapHash mapPath raw (bump_reads (bump_reads w))) as [[h|e] w1].
Qed.

Lemma deleteFromHashs_one_run hashs mapPath w r w' :
  deleteFromHashs_one hashs mapPath w = (r, w') →
  let del := matches hashs (fs w) (songCache w) mapPath in
  r = Ok del
  ∧ emitted w' = emitted w ∧ closed w' = closed w
  ∧ fs w' = (if del then remove_tree mapPath (fs w) else fs w)
  ∧ songCache w' = (if del then delete (path.basename mapPath) (songCache w)
                    else songCache w).
Proof.
  unfold deleteFromHashs_one, matches, bind, tryit.
  rewrite <- loadMapInfoFromPath_result.
  pose proof (loadMapInfoFromPath_keeps emitted mapPath
                (λ _, eq_refl) (λ _ _, eq_refl) w) as He.
  pose proof (loadMapInfoFromPath_keeps closed mapPath
                (λ _, eq_refl) (λ _ _, eq_refl) w) as Hc.
  pose proof (loadMapInfoFromPath_keeps_fs mapPath w) as Hf.
  pose proof (loadMapInfoFromPath_keeps_songCache mapPath w) as Hs.
  unfold keeps in *.
  destruct (loadMapInfoFromPath mapPath w) as [[[localMap|]|e] w1]; simpl in *;
    try (by intros [= <- <-]).
  destruct (hashs_includes hashs (hash localMap)); [|by intros [= <- <-]].
  unfold deleteFolder, deleteMapInfoFromDirname, ret, remove_tree. simpl.
  intros [= <- <-]. simpl. by rewrite Hf, Hs.
Qed.

Lemma deleteFromHashs_loop_run total hashs mapsPaths current w r w' :
  closed w = None →
  deleteFromHashs_loop total hashs mapsPaths current w = (r, w') →
  let gone := removed hashs mapsPaths (fs w) (songCache w) in
  ∃ snaps,
    r = Ok (current + length gone)
    ∧ emits w w' snaps
    ∧ ramp total current (current + length gone) snaps
    ∧ length snaps = length mapsPaths
    ∧ (∀ s, last snaps = Some s → snap_count s = current + length gone)
    ∧ fs w' = foldl (λ m p, remove_tree p m) (fs w) gone
    ∧ songCache w' = foldl (λ c p, delete (path.basename p) c) (songCache w) gone.
Proof.
  revert current w r w'. induction mapsPaths as [|mapPath mapsPaths IH];
    intros current w r w' Hw; simpl.
  { intros [= <- <-]. exists []. unfold emits. rewrite app_nil_r, Nat.add_0_r.
    repeat split; simpl; done. }
  unfold bind at 1.
  destruct (deleteFromHashs_one hashs mapPath w) as [r1 w1] eqn:H1.
  apply deleteFromHashs_one_run in H1 as (-> & He1 & Hc1 & Hf1 & Hs1).
  simpl. unfold bind at 1, observer_next. rewrite Hc1, Hw.
  intros Hrest.
  apply IH in Hrest as (snaps & -> & [Hc2 He2] & Hr & Hlen & Hlast & Hf2 & Hs2);
    [|done].
  simpl in *. rewrite Hf1, Hs1 in *.
  destruct (matches hashs (fs w) (songCache w) mapPath); simpl in *.
  - exists (Progression total (S current) None :: snaps).
    rewrite <- !Nat.add_succ_comm.
    split; [done|]. split; [|split; [|split; [|split; [|split]]]].
    + unfold emits. by rewrite He2, He1, <- app_assoc.
    + simpl. repeat split; [lia|done].
    + simpl. lia.
    + intros s. destruct snaps as [|s' snaps'] eqn:Hsn.
      * simpl. intros [= <-]. simpl. simpl in Hlen.
        destruct mapsPaths; [|done]. simpl. lia.
      * rewrite last_cons_cons. apply Hlast.
    + done.
    + done.
  - exists (Progression total current None :: snaps).
    split; [done|]. split; [|split; [|split; [|split; [|split]]]].
    + unfold emits. by rewrite He2, He1, <- app_assoc.
    + simpl. repeat split; [lia|done].
    + simpl. lia.
    + intros s. destruct snaps as [|s' snaps'] eqn:Hsn.
      * simpl. intros [= <-]. simpl. simpl in Hlen.
        destruct mapsPaths; [|done]. simpl. lia.
      * rewrite last_cons_cons. apply Hlast.
    + done.
    + done.
Qed.

Lemma remove_tree_lookup p m k :
  is_under (fskey p) k = true → remove_tree p m !! k = None.
Proof.
  intros Hu. unfold remove_tree. apply map_lookup_filter_None. right.
  intros n _. simpl. by rewrite Hu.
Qed.

Lemma remove_tree_subseteq p m : remove_tree p m ⊆ m.
Proof. apply map_filter_subseteq. Qed.

Lemma foldl_remove_tree_subseteq l m :
  foldl (λ m p, remove_tree p m) m l ⊆ m.
Proof.
  revert m. induction l as [|p l IH]; intros m; simpl; [done|].
  etrans; [apply IH|apply remove_tree_subseteq].
Qed.

Lemma foldl_remove_tree_gone l m p k :
  p ∈ l → is_under (fskey p) k = true →
  foldl (λ m p, remove_tree p m) m l !! k = None.
Proof.
  revert m. induction l as [|q l IH]; intros m Hin Hu; simpl.
  { by apply elem_of_nil in Hin. }
  apply elem_of_cons in Hin as [->|Hin]; [|by apply IH].
  eapply lookup_weaken_None; [|apply foldl_remove_tree_subseteq].
  by apply remove_tree_lookup.
Qed.

Lemma foldl_delete_gone (l : list string) (c : gmap string CachedMapInfo) p :
  p ∈ l →
  foldl (λ c p, delete (path.basename p) c) c l !! path.basename p = None.
Proof.
  revert c. induction l as [|q l IH]; intros c Hin; simpl.
  { by apply elem_of_nil in Hin. }
  apply elem_of_cons in Hin as [->|Hin]; [|by apply IH].
  assert (∀ l (c : gmap string CachedMapInfo),
            foldl (λ c p, delete (path.basename p) c) c l ⊆ c) as Hsub.
  { clear. intros l. induction l as [|p l IH]; intros c; simpl; [done|].
    etrans; [apply IH|apply delete_subseteq]. }
  eapply lookup_weaken_None; [apply lookup_delete_eq|apply Hsub].
Qed.

Lemma deleteMapsFromHashs_body_run version hashs w r w' :
  closed w = None →
  deleteMapsFromHashs_body version hashs w = (r, w') →
  let mapsPaths :=
    list_children is_dir (path.join (getVersionPath version) RELATIVE_MAPS_FOLDER)
                  (fs w) in
  let gone := removed hashs mapsPaths (fs w) (songCache w) in
  ∃ snaps,
    r = Ok () ∧ emits w w' snaps
    ∧ ramp (length hashs) 0 (length gone) snaps
    ∧ length snaps = length mapsPaths
    ∧ (∀ s, last snaps = Some s → snap_count s = length gone)
    ∧ fs w' = foldl (λ m p, remove_tree p m) (fs w) gone
    ∧ songCache w' = foldl (λ c p, delete (path.basename p) c) (songCache w) gone.
Proof.
  intros Hw. unfold deleteMapsFromHashs_body, getMapsFolderPath.
  unfold bind at 1, ret at 1. unfold bind at 1, getFoldersInFolder. simpl.
  unfold bind at 1.
  destruct (deleteFromHashs_loop _ _ _ _ _) as [r1 w1] eqn:H1.
  apply deleteFromHashs_loop_run in H1
    as (snaps & -> & He & Hr & Hlen & Hlast & Hf & Hs); [|done].
  intros [= <- <-]. exists snaps. simpl in *. done.
Qed.

Lemma removed_length hashs mapsPaths m c :
  length (removed hashs mapsPaths m c) ≤ length mapsPaths.
Proof.
  revert m c. induction mapsPaths as [|mapPath mapsPaths IH]; intros m c; simpl.
  { done. }
  destruct (matches hashs m c mapPath); simpl.
  - apply le_n_S, IH.
  - etrans; [apply IH|]. apply Nat.le_succ_diag_r.
Qed.

Lemma removed_hashs_length hashs mapsPaths m c :
  length (removed_hashs hashs mapsPaths m c) = length (removed hashs mapsPaths m c).
Proof.
  revert m c. induction mapsPaths as [|mapPath mapsPaths IH]; intros m c; simpl.
  { done. }
  unfold matches.
  destruct (load_result m c mapPath) as [[localMap|]|e]; [|apply IH..].
  destruct (hashs_includes hashs (hash localMap)); simpl; [|apply IH].
  f_equal. apply IH.
Qed.

Lemma removed_hashs_requested hashs mapsPaths m c h :
  h ∈ removed_hashs hashs mapsPaths m c → h ∈ hashs.
Proof.
  revert m c. induction mapsPaths as [|mapPath mapsPaths IH]; intros m c; simpl.
  { by intros ?%elem_of_nil. }
  destruct (load_result m c mapPath) as [[localMap|]|e]; [|apply IH..].
  destruct (hashs_includes hashs (hash localMap)) eqn:Hinc; [|apply IH].
  intros [->|Hin]%elem_of_cons; [|by eapply IH].
  unfold hashs_includes in Hinc. by apply bool_decide_eq_true in Hinc.
Qed.

(** C6, as the code has it. [deleteMapsFromHashs] walks the folders
    installed for the version, not the requested hashes: [total] is the
    number of requested hashes, one update is pushed per installed folder
    whether or not it matched, and [current] counts the folders removed,
    so that the last update carries the number of folders whose loaded
    hash was requested.  That number is at most the number of installed
    folders; when the removed folders were loaded with pairwise different
    hashes it is at most the number of requested hashes, and below it as
    soon as some requested hash is the hash of none of them.  Exactly the
    folders whose loaded hash was requested ([removed]) are taken off the
    disk, with all they contain, and evicted from the cache. *)
Theorem deleteMapsFromHashs_counts_removed_folders
    (version : BSVersion) (hashs : list string) (w : world) :
  let mapsPaths :=
    list_children is_dir (path.join (getVersionPath version) RELATIVE_MAPS_FOLDER)
                  (fs w) in
  let gone := removed hashs mapsPaths (fs w) (songCache w) in
  let loaded := removed_hashs hashs mapsPaths (fs w) (songCache w) in
  let w' := deleteMapsFromHashs version hashs w in
  closed w' = Some Completed
  ∧ length (emitted w') = length mapsPaths
  ∧ (∀ s, s ∈ emitted w' → snap_total s = length hashs)
  ∧ (∀ s, last (emitted w') = Some s → snap_count s = length gone)
  ∧ length gone ≤ length mapsPaths
  ∧ (NoDup loaded →
     length gone ≤ length hashs
     ∧ ∀ h, h ∈ hashs → h ∉ loaded → length gone < length hashs)
  ∧ fs w' = foldl (λ m p, remove_tree p m) (fs w) gone
  ∧ songCache w' = foldl (λ c p, delete (path.basename p) c) (songCache w) gone
  ∧ (∀ p k, p ∈ gone → is_under (fskey p) k = true → fs w' !! k = None)
  ∧ (∀ p, p ∈ gone → songCache w' !! path.basename p = None).
Proof.
  intros mapsPaths gone loaded w'.
  assert (closed w' = Some Completed
          ∧ ∃ snaps, emitted w' = snaps
             ∧ ramp (length hashs) 0 (length gone) snaps
             ∧ length snaps = length mapsPaths
             ∧ (∀ s, last snaps = Some s → snap_count s = length gone)
             ∧ fs w' = foldl (λ m p, remove_tree p m) (fs w) gone
             ∧ songCache w'
               = foldl (λ c p, delete (path.basename p) c) (songCache w) gone)
    as (Hc & snaps & He & Hr & Hlen & Hlast & Hf & Hs).
  { unfold w', deleteMapsFromHashs, subscribe.
    destruct (deleteMapsFromHashs_body version hashs (fresh_observer w))
      as [r wb] eqn:Hb.
    apply deleteMapsFromHashs_body_run in Hb
      as (snaps & -> & [Hc He] & Hr & Hlen & Hlast & Hf & Hs); [|done].
    unfold observer_close. rewrite Hc. simpl. split; [done|].
    exists snaps. done. }
  rewrite He. split_and!; try done.
  - intros s Hin. by destruct (ramp_bounds _ _ _ _ _ Hr Hin).
  - apply removed_length.
  - intros Hnodup.
    assert (length gone = length loaded) as ->.
    { symmetry. apply removed_hashs_length. }
    split.
    + apply submseteq_length, NoDup_submseteq; [done|].
      intros h. apply removed_hashs_requested.
    + intros h Hreq Hnot.
      eapply Nat.le_lt_trans; [|apply (length_filter_lt (λ x, x ≠ h) hashs h Hreq)].
      * apply submseteq_length, NoDup_submseteq; [done|].
        intros x Hx. apply list_elem_of_filter. split.
        -- by intros ->.
        -- by eapply removed_hashs_requested.
      * by intros Hne.
  - intros p k Hp Hk. rewrite Hf. by eapply foldl_remove_tree_gone.
  - intros p Hp. rewrite Hs. by apply foldl_delete_gone.
Qed.

Lemma deleteMapsFromHashs_monotone version hashs w :
  counters_monotone (emitted (deleteMapsFromHashs version hashs w)).
Proof.
  unfold deleteMapsFromHashs, subscribe.
  destruct (deleteMapsFromHashs_body version hashs (fresh_observer w))
    as [r wb] eqn:Hb.
  apply deleteMapsFromHashs_body_run in Hb
    as (snaps & -> & [Hc He] & Hr & _); [|done].
  unfold observer_close. rewrite Hc. simpl. rewrite He. simpl.
  by eapply ramp_monotone.
Qed.

Lemma deleteMaps_monotone maps w :
  counters_monotone (emitted (deleteMaps maps w)).
Proof.
  unfold deleteMaps, subscribe. unfold bind at 1.
  destruct (deleteMaps_loop _ _ _ _) as [r wb] eqn:Hb.
  apply deleteMaps_loop_emits in Hb as (deleted & snaps & -> & [Hc He] & Hr & _);
    [|done].
  unfold ret, observer_close. rewrite Hc. simpl. rewrite He. simpl.
  by eapply ramp_monotone.
Qed.

Lemma getMaps_monotone version w :
  counters_monotone (emitted (getMaps version w)).
Proof.
  destruct (getMaps_run version w) as (_ & [->|Hrun]).
  { intros i j s t _ Hi. by rewrite lookup_nil in Hi. }
  destruct Hrun as (total & loaded & maps & snaps & -> & [Hr _] & _).
  eapply (ramp_monotone total 0 loaded). eapply ramp_app; [exact Hr|].
  simpl. repeat split; lia.
Qed.

(** C10. When the maps folder resolved for a version does not exist,
    the stream of [getMaps] completes without an error and without having
    pushed any snapshot, the final one included. *)
Theorem getMaps_missing_folder (version : BSVersion) (w : world) :
  node_at (fs w) (path.join (getVersionPath version) RELATIVE_MAPS_FOLDER) = None →
  emitted (getMaps (Some version) w) = []
  ∧ closed (getMaps (Some version) w) = Some Completed.
Proof.
  intros Hno.
  assert (getMaps_body (Some version) (fresh_observer w)
          = (Ok (), observer_close Completed (fresh_observer w))) as Hb.
  { unfold getMaps_body, getMapsFolderPath, bind, ret, pathExist, pathExistsSync.
    simpl. rewrite Hno. by rewrite bool_decide_eq_false_2 by (by intros [? ?]). }
  unfold getMaps, subscribe. by rewrite Hb.
Qed.

(** ** Importing *)

Lemma importMap_silent zipPath relativeFolder mapName mapsFolder :
  silent (importMap zipPath relativeFolder mapName mapsFolder).
Proof. split; by apply importMap_keeps. Qed.

Lemma importMap_keeps_progress zipPath relativeFolder mapName mapsFolder :
  preserves (keeps progress) (importMap zipPath relativeFolder mapName mapsFolder).
Proof. by apply importMap_keeps. Qed.

(** A unit that is imported yields a record for its destination folder. *)
Lemma importMap_path zipPath relativeFolder mapName mapsFolder w localMap :
  (importMap zipPath relativeFolder mapName mapsFolder w).1 = Ok localMap →
  map_path localMap = path.join mapsFolder mapName.
Proof.
  unfold importMap. unfold bind at 1, pathExistsSync. simpl.
  unfold try_catch.
  match goal with |- (match ?m ?w0 with _ => _ end).1 = _ → _ =>
    destruct (m w0) as [[r|e] w1] eqn:Hm end; simpl.
  - intros [= ->]. revert Hm.
    repeat (unfold bind at 1;
            match goal with |- (match ?m ?w0 with _ => _ end) = _ → _ =>
              destruct (m w0) as [[?|?] ?] eqn:? end; [|done]).
    match goal with Hl : loadMapInfoFromPath _ _ = (Ok ?o, _) |- _ =>
      destruct o as [lm|]; [|done];
      pose proof (loadMapInfoFromPath_path _ _ lm (f_equal fst Hl)) as Hp end.
    intros [= <- <-]. done.
  - unfold bind at 1.
    match goal with |- (match ?m ?w0 with _ => _ end).1 = _ → _ =>
      destruct (m w0) as [[?|?] ?] end; done.
Qed.

Lemma importFolders_cons zipPath mapsFolder relativeFolder folders :
  importFolders zipPath mapsFolder (relativeFolder :: folders)
  = (incr_current;; unit_body zipPath mapsFolder relativeFolder;;
     importFolders zipPath mapsFolder folders).
Proof. reflexivity. Qed.

Lemma unit_body_run zipPath mapsFolder relativeFolder w total current data :
  closed w = None →
  progress w = (total, current, data) →
  let o := slot (importMap zipPath relativeFolder (path.basename relativeFolder)
                   mapsFolder w).1 in
  ∃ w',
    unit_body zipPath mapsFolder relativeFolder w = (Ok (), w')
    ∧ closed w' = None
    ∧ emitted w' = emitted w ++ [Progression total current o]
    ∧ progress w' = (total, current, o).
Proof.
  intros Hc Hp. simpl.
  pose proof (importMap_silent zipPath relativeFolder
                (path.basename relativeFolder) mapsFolder) as [He Hcl].
  pose proof (importMap_keeps_progress zipPath relativeFolder
                (path.basename relativeFolder) mapsFolder w) as Hpr.
  specialize (He w). specialize (Hcl w). unfold keeps in *.
  unfold unit_body, try_finally, try_catch, bind.
  destruct (importMap _ _ _ _ w) as [[localMap|e] w1]; simpl in *.
  - unfold set_data, next_progress, observer_next. rewrite Hpr, Hp. simpl.
    rewrite Hcl, Hc. simpl. eexists. split; [done|]. simpl. by rewrite He.
  - unfold log, set_data, next_progress, observer_next. simpl.
    rewrite Hpr, Hp. simpl. rewrite Hcl, Hc. simpl.
    eexists. split; [done|]. simpl. by rewrite He.
Qed.

Lemma incr_current_run w total current data :
  progress w = (total, current, data) →
  incr_current w = (Ok (), set_progress (total, S current, data) w).
Proof. unfold incr_current. by intros ->. Qed.

Lemma importFolders_run zipPath mapsFolder folders w total current data :
  closed w = None →
  progress w = (total, current, data) →
  ∃ w' snaps data',
    importFolders zipPath mapsFolder folders w = (Ok (), w')
    ∧ emits w w' snaps
    ∧ progress w' = (total, current + length folders, data')
    ∧ length snaps = length folders
    ∧ ∀ i relativeFolder,
        folders !! i = Some relativeFolder →
        snaps !! i
        = Some (Progression total (current + S i)
                  (slot (importMap zipPath relativeFolder
                           (path.basename relativeFolder) mapsFolder
                           (unit_world zipPath mapsFolder folders i w)).1)).
Proof.
  revert w current data.
  induction folders as [|relativeFolder folders IH]; intros w current data Hc Hp.
  { exists w, [], data. unfold emits. rewrite app_nil_r, Nat.add_0_r.
    repeat split; done. }
  rewrite importFolders_cons. unfold bind at 1.
  rewrite (incr_current_run _ _ _ _ Hp).
  set (w0 := set_progress (total, S current, data) w).
  destruct (unit_body_run zipPath mapsFolder relativeFolder w0 total (S current) data)
    as (w1 & Hu & Hc1 & He1 & Hp1); [done..|].
  unfold bind at 1. rewrite Hu.
  destruct (IH w1 (S current) _ Hc1 Hp1) as (w' & snaps & data' & Hr & [Hc2 He2] & Hp2 & Hlen & Hsn).
  exists w', (Progression total (S current)
               (slot (importMap zipPath relativeFolder
                        (path.basename relativeFolder) mapsFolder w0).1) :: snaps), data'.
  split; [done|]. split; [|split; [|split]].
  - unfold emits. split; [done|]. rewrite He2, He1. simpl. by rewrite <- app_assoc.
  - rewrite Hp2. simpl. f_equal. f_equal. lia.
  - simpl. lia.
  - intros [|i] f Hf; simpl in *.
    + injection Hf as <-. unfold unit_world. simpl.
      unfold incr_current. rewrite Hp. simpl. by rewrite Nat.add_1_r.
    + rewrite (Hsn i f Hf). unfold unit_world. simpl take.
      assert (importFolders zipPath mapsFolder (relativeFolder :: take i folders) w
              = importFolders zipPath mapsFolder (take i folders) w1) as ->.
      { rewrite importFolders_cons. unfold bind.
        rewrite (incr_current_run _ _ _ _ Hp). fold w0. by rewrite Hu. }
      do 2 f_equal. lia.
Qed.

Lemma ramp_of_counts total current snaps :
  (∀ i s, snaps !! i = Some s →
          snap_total s = total ∧ snap_count s = current + S i) →
  ramp total current (current + length snaps) snaps.
Proof.
  revert current. induction snaps as [|s snaps IH]; intros current Hs; simpl.
  { lia. }
  destruct (Hs 0 s eq_refl) as [Ht Hc]. repeat split; [done|lia|].
  rewrite Hc. replace (current + S (length snaps)) with (current + 1 + length snaps) by lia.
  apply IH. intros i s' Hi. destruct (Hs (S i) s' Hi). split; [done|lia].
Qed.

Lemma loadArchive_frame zipPath w :
  closed (loadArchive zipPath w).2 = closed w
  ∧ emitted (loadArchive zipPath w).2 = emitted w
  ∧ progress (loadArchive zipPath w).2 = progress w
  ∧ fs (loadArchive zipPath w).2 = fs w.
Proof. repeat split; by apply (loadArchive_keeps _ zipPath). Qed.

Lemma importZip_run mapsFolder zi w total current data :
  closed w = None →
  progress w = (total, current, data) →
  ∃ w' snaps current' data',
    importZip mapsFolder zi w = (Ok (), w')
    ∧ emits w w' snaps
    ∧ progress w' = (total, current', data')
    ∧ ramp total current current' snaps
    ∧ Forall (lands_in mapsFolder zi) snaps.
Proof.
  intros Hc Hp. unfold importZip, try_catch. unfold bind at 1.
  destruct (loadArchive_frame (zi_path zi) w) as (Hc0 & He0 & Hp0 & _).
  destruct (loadArchive (zi_path zi) w) as [[zip|e] w0]; simpl in *.
  2: { unfold bind, log, set_data, next_progress, observer_next. simpl.
       rewrite Hp0, Hp. simpl. rewrite Hc0, Hc. simpl.
       eexists _, [_], _, _. split; [done|]. unfold emits. simpl. rewrite He0.
       split; [done|]. split; [done|]. split; [simpl; repeat split; lia|].
       apply Forall_singleton. by intros ? [=]. }
  rewrite <- Hc0 in Hc. rewrite <- Hp0 in Hp.
  unfold lands_in, unit_names. destruct (zi_single zi).
  - unfold bind at 1. rewrite (incr_current_run _ _ _ _ Hp).
    set (w1 := set_progress _ w0). unfold bind at 1.
    pose proof (importMap_silent (zi_path zi) ""
                  (path.basename_ext (zi_path zi) ".zip") mapsFolder) as [He Hcl].
    pose proof (importMap_keeps_progress (zi_path zi) ""
                  (path.basename_ext (zi_path zi) ".zip") mapsFolder w1) as Hpr.
    pose proof (importMap_path (zi_path zi) ""
                  (path.basename_ext (zi_path zi) ".zip") mapsFolder w1) as Hpath.
    specialize (He w1). specialize (Hcl w1). unfold keeps in *.
    destruct (importMap _ _ _ _ w1) as [[localMap|e] w2]; simpl in *.
    + unfold bind, set_data, next_progress, observer_next. simpl.
      rewrite Hpr. simpl. rewrite Hcl, Hc. simpl.
      eexists _, [_], _, _. split; [done|]. unfold emits. simpl.
      rewrite He, He0.
      split; [done|]. split; [done|]. split; [simpl; repeat split; lia|].
      apply Forall_singleton. intros ? [= <-]. eexists. split; [by left|].
      by apply Hpath.
    + unfold bind, log, set_data, next_progress, observer_next. simpl.
      rewrite Hpr. simpl. rewrite Hcl, Hc. simpl.
      eexists _, [_], _, _. split; [done|]. unfold emits. simpl.
      rewrite He, He0.
      split; [done|]. split; [done|]. split; [simpl; repeat split; lia|].
      apply Forall_singleton. by intros ? [=].
  - destruct (importFolders_run (zi_path zi) mapsFolder (zi_folders zi)
                w0 total current data Hc Hp)
      as (w' & snaps & data' & -> & [Hc' He'] & Hp' & Hlen & Hsn).
    exists w', snaps, (current + length (zi_folders zi)), data'.
    split; [done|]. split; [by unfold emits; rewrite He', He0|].
    split; [done|]. split.
    + rewrite <- Hlen. apply ramp_of_counts. intros i s Hi.
      destruct (lookup_lt_is_Some_2 (zi_folders zi) i) as [f Hf].
      { rewrite <- Hlen. by eapply lookup_lt_Some. }
      rewrite (Hsn _ _ Hf) in Hi. by injection Hi as <-.
    + apply Forall_lookup. intros i s Hi localMap Hd.
      destruct (lookup_lt_is_Some_2 (zi_folders zi) i) as [f Hf].
      { rewrite <- Hlen. by eapply lookup_lt_Some. }
      rewrite (Hsn _ _ Hf) in Hi. injection Hi as <-. simpl in Hd.
      exists (path.basename f). split.
      * apply list_elem_of_fmap. exists f. split; [done|].
        by eapply list_elem_of_lookup_2.
      * eapply importMap_path.
        destruct (importMap _ _ _ _ _).1 as [m|] eqn:Hm; simpl in Hd; [|done].
        injection Hd as ->. exact Hm.
Qed.

Lemma importZip_logs_grow mapsFolder zi w :
  logs_grow w (importZip mapsFolder zi w).2.
Proof.
  revert w. change (preserves logs_grow (importZip mapsFolder zi)).
  pose proof importMap_logs_grow. pose proof loadArchive_logs_grow.
  assert (∀ l, preserves logs_grow (log l)) by (intros l w; apply logs_grow_log).
  assert (preserves logs_grow incr_current ∧ preserves logs_grow next_progress
          ∧ ∀ d, preserves logs_grow (set_data d)) as (? & ? & ?).
  { unfold incr_current, next_progress, set_data, observer_next.
    repeat split; intros; intros w; unfold logs_grow;
      repeat case_match; simpl; done. }
  assert (∀ folders, preserves logs_grow
            (importFolders (zi_path zi) mapsFolder folders)).
  { induction folders as [|f folders IH]; simpl; frame. }
  unfold importZip. frame.
Qed.

Lemma importZips_run mapsFolder zips w total current data :
  closed w = None →
  progress w = (total, current, data) →
  ∃ w' snaps current',
    importZips mapsFolder zips w = (Ok (), w')
    ∧ emits w w' snaps
    ∧ ramp total current current' snaps
    ∧ logs_grow w w'
    ∧ Forall (λ s, ∃ zi, zi ∈ zips ∧ lands_in mapsFolder zi s) snaps.
Proof.
  revert w current data. induction zips as [|zi zips IH]; intros w current data Hc Hp.
  { exists w, [], current. unfold emits. rewrite app_nil_r.
    repeat split; simpl; done. }
  simpl. unfold bind.
  pose proof (importZip_logs_grow mapsFolder zi w) as Hl1.
  destruct (importZip_run mapsFolder zi w total current data Hc Hp)
    as (w1 & snaps1 & current1 & data1 & Hr1 & He1 & Hp1 & Hrm1 & Hd1).
  rewrite Hr1 in *. simpl in Hl1.
  destruct (IH w1 current1 data1 (proj1 He1) Hp1)
    as (w' & snaps2 & current' & -> & He2 & Hrm2 & Hl2 & Hd2).
  exists w', (snaps1 ++ snaps2), current'.
  split; [done|]. split; [by eapply emits_trans|].
  split; [by eapply ramp_app|]. split; [by etrans; [exact Hl1|]|].
  apply Forall_app. split.
  - eapply Forall_impl; [exact Hd1|]. intros s Hs. exists zi. split; [by left|done].
  - eapply Forall_impl; [exact Hd2|]. intros s (zi' & ? & ?).
    exists zi'. split; [by right|done].
Qed.

(** *** Planning *)

Lemma loadArchive_result zipPath w :
  match archive_of (fs w) zipPath with
  | Some zip => (loadArchive zipPath w).1 = Ok zip
  | None => ∃ e, (loadArchive zipPath w).1 = Err e
  end.
Proof.
  unfold archive_of, loadArchive, bind, readFile, read_result.
  destruct (node_at (fs w) zipPath) as [[content|]|]; simpl; eauto.
  destruct (JSZip_loadAsync content); simpl; eauto.
Qed.

Lemma countMaps_run zipPaths zips total w :
  ∃ w',
    countMaps zipPaths zips total w
    = (Ok (zips ++ omap (plan_of (fs w)) zipPaths,
           total + sum_list (yield (fs w) <$> zipPaths)), w')
    ∧ fs w' = fs w ∧ emitted w' = emitted w ∧ closed w' = closed w
    ∧ logs_grow w w'
    ∧ ∀ zipPath zip,
        zipPath ∈ zipPaths → archive_of (fs w) zipPath = Some zip →
        infoDatFiles zip = [] → WarnNoInfoDat zipPath ∈ logs w'.
Proof.
  revert zips total w. induction zipPaths as [|zipPath zipPaths IH];
    intros zips total w.
  { exists w. simpl. rewrite app_nil_r, Nat.add_0_r.
    repeat split; try done. by intros ? ? ?%elem_of_nil. }
  simpl. unfold bind at 1, try_catch. unfold bind at 1.
  pose proof (loadArchive_result zipPath w) as Hres.
  destruct (loadArchive_frame zipPath w) as (Hc0 & He0 & _ & Hf0).
  pose proof (loadArchive_logs_grow zipPath w) as Hl0.
  unfold plan_of at 1, yield at 1.
  destruct (loadArchive zipPath w) as [r0 w0]. simpl in *.
  destruct (archive_of (fs w) zipPath) as [zip|] eqn:Ha.
  - subst r0. case_bool_decide as Hlen.
    + unfold bind, log, ret. simpl.
      match goal with |- context [countMaps _ _ _ ?w1] =>
        destruct (IH zips total w1) as (w' & -> & Hf & He & Hc & Hl & Hw) end.
      simpl in *. rewrite Hf0 in *. exists w'. rewrite Hlen. simpl.
      repeat split; try done; try congruence.
      * etrans; [exact Hl0|]. etrans; [|exact Hl]. unfold logs_grow. simpl.
        by apply prefix_app_r.
      * intros p z [->|Hin]%elem_of_cons Hz Hnil; [|by eapply Hw].
        destruct Hl as [l' ->]. simpl. set_solver.
    + unfold ret.
      match goal with |- context [countMaps _ ?zs ?t ?w1] =>
        destruct (IH zs t w1) as (w' & -> & Hf & He & Hc & Hl & Hw) end.
      simpl in *. rewrite Hf0 in *. exists w'.
      rewrite <- app_assoc, Nat.add_assoc. simpl.
      repeat split; try done; try congruence.
      * by etrans; [exact Hl0|].
      * intros p z [->|Hin]%elem_of_cons Hz Hnil; [|by eapply Hw].
        rewrite Ha in Hz. injection Hz as <-. by rewrite Hnil in Hlen.
  - destruct Hres as [e ->]. unfold bind, log, ret. simpl.
    match goal with |- context [countMaps _ _ _ ?w1] =>
      destruct (IH zips total w1) as (w' & -> & Hf & He & Hc & Hl & Hw) end.
    simpl in *. rewrite Hf0 in *. exists w'.
    repeat split; try done; try congruence.
    * etrans; [exact Hl0|]. etrans; [|exact Hl]. unfold logs_grow. simpl.
      by apply prefix_app_r.
    * intros p z [->|Hin]%elem_of_cons Hz Hnil; [|by eapply Hw].
      by rewrite Ha in Hz.
Qed.

Lemma getMapsFolderPath_value version w :
  (getMapsFolderPath version w).1 = Ok (mapsFolderPath version).
Proof.
  unfold getMapsFolderPath, mapsFolderPath. destruct version; [done|].
  unfold bind, pathExist, pathExistsSync, ensureFolderExist, ret. simpl.
  by repeat case_match.
Qed.

Lemma sum_list_zero (l : list nat) : sum_list l = 0 ↔ ∀ n, n ∈ l → n = 0.
Proof.
  induction l as [|n l IH]; simpl.
  - split; [by intros _ ? ?%elem_of_nil|done].
  - split.
    + intros Hs k [->|Hk]%elem_of_cons; [lia|]. apply IH; [lia|done].
    + intros Hall. rewrite (Hall n) by (by left). apply IH.
      intros k Hk. apply Hall. by right.
Qed.

(** The two ways [handleZipPaths] ends on an open observer. *)
Lemma handleZipPaths_run zipPaths version w :
  closed w = None →
  let total := sum_list (yield (fs w) <$> zipPaths) in
  ∃ r w',
    handleZipPaths zipPaths version w = (r, w')
    ∧ closed w' = None
    ∧ (∀ zipPath zip,
         zipPath ∈ zipPaths → archive_of (fs w) zipPath = Some zip →
         infoDatFiles zip = [] → WarnNoInfoDat zipPath ∈ logs w')
    ∧ ((total = 0 ∧ r = Err (CustomError (Some "invalid-zip"))
        ∧ emitted w' = emitted w)
       ∨ (total ≠ 0 ∧ r = Ok ()
          ∧ ∃ snaps hi,
              emitted w' = emitted w ++ Progression total 0 None :: snaps
              ∧ ramp total 0 hi snaps
              ∧ Forall (λ s, ∃ zi, zi ∈ omap (plan_of (fs w)) zipPaths
                                   ∧ lands_in (mapsFolderPath version) zi s) snaps)).
Proof.
  intros Hc. simpl. unfold handleZipPaths. unfold bind at 1.
  destruct (countMaps_run zipPaths [] 0 w) as (w1 & -> & Hf1 & He1 & Hc1 & Hl1 & Hw1).
  simpl. case_bool_decide as Ht.
  { eexists _, _. split; [done|]. split; [congruence|]. split; [done|]. left.
    by rewrite Ht. }
  set (total := sum_list _) in *.
  unfold bind at 1. simpl.
  set (w2 := set_progress (total, 0, None) w1).
  unfold bind at 1.
  pose proof (getMapsFolderPath_value version w2) as Hv.
  destruct (getMapsFolderPath_run version w2)
    as (mapsFolder & w3 & Hg & He3 & Hc3 & _ & Hp3 & Hl3).
  rewrite Hg in *. simpl in Hv. injection Hv as ->.
  unfold bind at 1, next_progress, observer_next.
  rewrite Hp3. simpl. rewrite Hc3. simpl. rewrite Hc1, Hc.
  match goal with |- context [importZips _ _ ?w4] =>
    destruct (importZips_run (mapsFolderPath version)
                (omap (plan_of (fs w)) zipPaths) w4 total 0 None)
      as (w' & snaps & hi & -> & [Hc' He'] & Hr & Hl & Hd) end;
    [done|by simpl|].
  eexists _, _. split; [done|]. split; [done|]. split.
  - intros p z Hp Hz Hnil. specialize (Hw1 p z Hp Hz Hnil).
    destruct Hl as [l' ->]. simpl. rewrite Hl3. simpl. set_solver.
  - right. split; [done|]. split; [done|]. exists snaps, hi.
    rewrite He'. simpl. rewrite He3. simpl. rewrite He1, <- app_assoc. done.
Qed.

(** C5. [importMaps] ends with the "invalid-zip" error exactly when no
    archive of the list yields a matched manifest entry; as soon as one
    archive does, the stream completes, and every readable archive
    without such an entry has been skipped with a warning in the log. *)
Theorem importMaps_fails_iff_no_manifest
    (zipPaths : list string) (version : option BSVersion) (w : world) :
  (closed (importMaps zipPaths version w)
   = Some (Errored (CustomError (Some "invalid-zip")))
   ↔ ∀ zipPath, zipPath ∈ zipPaths → yield (fs w) zipPath = 0)
  ∧ ((∃ zipPath, zipPath ∈ zipPaths ∧ yield (fs w) zipPath ≠ 0) →
     closed (importMaps zipPaths version w) = Some Completed)
  ∧ (∀ zipPath zip,
       zipPath ∈ zipPaths → archive_of (fs w) zipPath = Some zip →
       infoDatFiles zip = [] →
       WarnNoInfoDat zipPath ∈ logs (importMaps zipPaths version w)).
Proof.
  assert ((∀ zipPath, zipPath ∈ zipPaths → yield (fs w) zipPath = 0)
          ↔ sum_list (yield (fs w) <$> zipPaths) = 0) as Hzero.
  { rewrite sum_list_zero. split.
    - intros Hall n (p & -> & Hp)%list_elem_of_fmap. by apply Hall.
    - intros Hall p Hp. apply Hall. apply list_elem_of_fmap. by exists p. }
  unfold importMaps.
  destruct (handleZipPaths_run zipPaths version (fresh_observer w) eq_refl)
    as (r & wb & Hb & Hc & Hwarn & Hcases).
  simpl in Hwarn, Hcases.
  assert (closed (subscribe (handleZipPaths zipPaths version) w)
          = Some (match r with Ok _ => Completed | Err e => Errored e end)) as Hcl.
  { unfold subscribe. rewrite Hb. unfold observer_close.
    destruct r; simpl; by rewrite Hc. }
  split; [|split].
  - rewrite Hzero, Hcl.
    destruct Hcases as [(Ht & -> & _)|(Ht & -> & _)]; split; done.
  - intros (p & Hp & Hy). rewrite Hcl.
    destruct Hcases as [(Ht & -> & _)|(Ht & -> & _)]; [|done].
    by pose proof (proj2 Hzero Ht p Hp).
  - intros p z Hp Hz Hnil. rewrite subscribe_logs, Hb. simpl. by eapply Hwarn.
Qed.

Lemma importMaps_monotone zipPaths version w :
  counters_monotone (emitted (importMaps zipPaths version w)).
Proof.
  unfold importMaps. rewrite subscribe_emitted.
  destruct (handleZipPaths_run zipPaths version (fresh_observer w) eq_refl)
    as (r & wb & -> & Hc & _ & Hcases). simpl in *.
  destruct Hcases as [(_ & _ & ->)|(_ & _ & snaps & hi & -> & Hr & _)].
  - intros i j s t _ Hi. by rewrite lookup_nil in Hi.
  - eapply (ramp_monotone _ 0 hi). simpl. repeat split; [lia|done].
Qed.

(** C9. For each of the four pipelines, the counters of the progress
    state never decrease along the snapshots a subscriber receives. *)
Theorem progress_counters_monotone
    (version : option BSVersion) (v : BSVersion) (maps : list string)
    (hashs zipPaths : list string) (w : world) :
  counters_monotone (emitted (getMaps version w))
  ∧ counters_monotone (emitted (deleteMaps maps w))
  ∧ counters_monotone (emitted (deleteMapsFromHashs v hashs w))
  ∧ counters_monotone (emitted (importMaps zipPaths version w)).
Proof.
  split; [apply getMaps_monotone|].
  split; [apply deleteMaps_monotone|].
  split; [apply deleteMapsFromHashs_monotone|apply importMaps_monotone].
Qed.

(** C7. In a multi-map archive every unit gets its turn, whatever
    happened to the units before it: the loop ends normally having pushed
    one snapshot per unit, the snapshot of the unit of index [i] carries
    the counter advanced [i + 1] times, and its result slot holds the
    record the unit's import returned, or nothing when that import
    failed. *)
Theorem multi_map_archive_units_are_independent
    (mapsFolder : string) (zi : zipInfo) (zip : JSZip) (w : world)
    (total current : nat) (data : option BsmLocalMap) :
  closed w = None →
  progress w = (total, current, data) →
  zi_single zi = false →
  (loadArchive (zi_path zi) w).1 = Ok zip →
  ∃ w' snaps,
    importZip mapsFolder zi w = (Ok (), w')
    ∧ emitted w' = emitted w ++ snaps
    ∧ length snaps = length (zi_folders zi)
    ∧ ∀ i relativeFolder,
        zi_folders zi !! i = Some relativeFolder →
        let outcome :=
          (importMap (zi_path zi) relativeFolder (path.basename relativeFolder)
             mapsFolder
             (unit_world (zi_path zi) mapsFolder (zi_folders zi) i
                (loadArchive (zi_path zi) w).2)).1 in
        snaps !! i = Some (Progression total (current + S i) (slot outcome))
        ∧ (is_ok outcome = false →
           snaps !! i = Some (Progression total (current + S i) None)).
Proof.
  intros Hc Hp Hsingle Hload.
  destruct (loadArchive_frame (zi_path zi) w) as (Hc0 & He0 & Hp0 & _).
  unfold importZip, try_catch. unfold bind at 1.
  destruct (loadArchive (zi_path zi) w) as [r0 w0]. simpl in *. subst r0.
  rewrite Hsingle. rewrite <- Hc0 in Hc. rewrite <- Hp0 in Hp.
  destruct (importFolders_run (zi_path zi) mapsFolder (zi_folders zi)
              w0 total current data Hc Hp)
    as (w' & snaps & data' & -> & [Hc' He'] & Hp' & Hlen & Hsn).
  exists w', snaps. split; [done|]. split; [by rewrite He', He0|].
  split; [done|]. intros i f Hf. simpl. rewrite (Hsn i f Hf).
  split; [done|]. by destruct (importMap _ _ _ _ _).1.
Qed.



(** *** The innermost folder of a nested entry *)

Lemma drop_while_app f l1 l2 :
  Forall (λ c, f c = true) l1 →
  path.drop_while f (l1 ++ l2) = path.drop_while f l2.
Proof. induction 1 as [|c l1 Hc _ IH]; simpl; [done|]. by rewrite Hc. Qed.

Lemma take_while_app f l1 l2 :
  Forall (λ c, f c = true) l1 →
  path.take_while f (l1 ++ l2) = l1 ++ path.take_while f l2.
Proof. induction 1 as [|c l1 Hc _ IH]; simpl; [done|]. by rewrite Hc, IH. Qed.

Lemma chars_str l : path.chars (path.str l) = l.
Proof. apply String.list_ascii_of_string_of_list_ascii. Qed.

Lemma not_slash_rev seg :
  Forall (λ c, path.is_slash c = false) seg →
  Forall (λ c, path.not_slash c = true) (rev seg).
Proof.
  intros Hs. apply Forall_rev. eapply Forall_impl; [exact Hs|].
  intros c Hc. unfold path.not_slash. by rewrite Hc.
Qed.

Lemma rev_head_not_slash seg :
  seg ≠ [] → Forall (λ c, path.is_slash c = false) seg →
  ∃ c r, rev seg = c :: r ∧ path.is_slash c = false.
Proof.
  intros Hne Hs. destruct (rev seg) as [|c r] eqn:Hr.
  { apply (f_equal (λ l, rev l)) in Hr. rewrite rev_involutive in Hr. done. }
  exists c, r. split; [done|].
  apply Forall_rev in Hs. rewrite Hr in Hs. by inversion Hs.
Qed.

Lemma drop_slashes_segment seg rest :
  seg ≠ [] → Forall (λ c, path.is_slash c = false) seg →
  path.drop_while path.is_slash (rev seg ++ rest) = rev seg ++ rest.
Proof.
  intros Hne Hs. destruct (rev_head_not_slash seg Hne Hs) as (d & r & -> & Hd).
  simpl. by rewrite Hd.
Qed.

(** [path.dirname] of [body/file]. *)
Lemma dirname_of_entry body file :
  body ≠ [] → body ≠ ["/"%char] →
  file ≠ [] → Forall (λ c, path.is_slash c = false) file →
  path.dirname (path.str (body ++ "/"%char :: file)) = path.str body.
Proof.
  intros Hb Hroot Hf Hfile. unfold path.dirname. rewrite chars_str.
  destruct body as [|c body']; [done|].
  change ((c :: body') ++ "/"%char :: file) with (c :: (body' ++ "/"%char :: file)).
  cbv beta iota.
  rewrite rev_app_distr. 
  change (rev ("/"%char :: file)) with (rev file ++ ["/"%char]).
  rewrite <- app_assoc.
  rewrite drop_slashes_segment by done.
  rewrite drop_while_app by (by apply not_slash_rev).
  simpl. rewrite rev_involutive.
  destruct (path.is_slash c) eqn:Hc; simpl; [|done].
  case_bool_decide as Hnil; [|done].
  apply (f_equal (λ l, rev l)) in Hnil. rewrite rev_involutive in Hnil.
  simpl in Hnil. subst body'.
  unfold path.is_slash in Hc. apply bool_decide_eq_true in Hc. by subst c.
Qed.

(** [path.basename] of [pre] followed by a last segment. *)
Lemma basename_of_last_segment pre seg :
  (pre = [] ∨ ∃ pre', pre = pre' ++ ["/"%char]) →
  seg ≠ [] → Forall (λ c, path.is_slash c = false) seg →
  path.basename (path.str (pre ++ seg)) = path.str seg.
Proof.
  intros Hpre Hne Hseg. unfold path.basename, path.rev_component.
  rewrite chars_str, rev_app_distr.
  rewrite drop_slashes_segment by done.
  rewrite take_while_app by (by apply not_slash_rev).
  assert (path.take_while path.not_slash (rev pre) = []) as ->.
  { destruct Hpre as [->|[pre' ->]]; [done|]. by rewrite rev_app_distr. }
  by rewrite app_nil_r, rev_involutive.
Qed.

(** For a manifest entry [pre seg/file], with [pre] empty or ending in a
    separator, the destination folder name of its unit is [seg]: the
    innermost folder of the entry's path. *)
Lemma innermost_folder_name pre seg file :
  (pre = [] ∨ ∃ pre', pre = pre' ++ ["/"%char]) →
  seg ≠ [] → Forall (λ c, path.is_slash c = false) seg →
  file ≠ [] → Forall (λ c, path.is_slash c = false) file →
  path.basename (path.dirname (path.str (pre ++ seg ++ "/"%char :: file)))
  = path.str seg.
Proof.
  intros Hpre Hne Hseg Hf Hfile. rewrite app_assoc.
  rewrite dirname_of_entry; [by apply basename_of_last_segment| | |done..].
  - destruct pre; [by destruct seg|done].
  - intros Heq. destruct Hpre as [->|[pre' ->]].
    + simpl in Heq. subst seg. by inversion Hseg.
    + apply (f_equal (λ l, rev l)) in Heq. rewrite !rev_app_distr in Heq.
      simpl in Heq.
      destruct (rev_head_not_slash seg Hne Hseg) as (d & r & Hrev & Hd).
      rewrite Hrev in Heq. simpl in Heq. injection Heq as -> _. done.
Qed.

(** ** A failed import and its destination folder *)

#[local] Instance dirs_persist_preorder : PreOrder dirs_persist.
Proof. unfold dirs_persist. split; [by intros w|]. intros w1 w2 w3 ? ? k ?. auto. Qed.

Lemma key_node_insert_dir (m : gmap string node) k0 k :
  key_node m k = Some Dir → key_node (<[k0:=Dir]> m) k = Some Dir.
Proof.
  unfold key_node. destruct (decide (k0 = k)) as [->|Hne].
  - by rewrite lookup_insert_eq.
  - by rewrite lookup_insert_ne.
Qed.

Lemma mkdirs_dirs keys (m m' : gmap string node) :
  mkdirs keys m = Ok m' →
  (∀ k0, key_node m k0 = Some Dir → key_node m' k0 = Some Dir)
  ∧ ∀ k, k ∈ keys → key_node m' k = Some Dir.
Proof.
  revert m. induction keys as [|k keys IH]; intros m; simpl.
  { intros [= <-]. split; [done|]. by intros ? ?%elem_of_nil. }
  destruct (key_node m k) as [[c|]|] eqn:Hk; [done|..]; intros Hm;
    apply IH in Hm as [Hp Hin].
  - split; [done|]. intros k' [->|?]%elem_of_cons; [by apply Hp|by apply Hin].
  - split; [by intros; apply Hp, key_node_insert_dir|].
    intros k' [->|?]%elem_of_cons; [|by apply Hin].
    apply Hp. unfold key_node. by rewrite lookup_insert_eq.
Qed.

Lemma mkdirp_dirs k (m m' : gmap string node) :
  mkdirp k m = Ok m' →
  (∀ k0, key_node m k0 = Some Dir → key_node m' k0 = Some Dir)
  ∧ key_node m' k = Some Dir.
Proof.
  unfold mkdirp. intros [Hp Hin]%mkdirs_dirs. split; [done|].
  apply Hin. apply elem_of_app. right. by left.
Qed.

Lemma fs_writes_keep_dirs :
  (∀ p, preserves dirs_persist (pathExistsSync p))
  ∧ (∀ p, preserves dirs_persist (mkdir_recursive p))
  ∧ (∀ p c, preserves dirs_persist (writeFile p c))
  ∧ (∀ p, preserves dirs_persist (unlinkSync p))
  ∧ (∀ p, preserves dirs_persist (ensureFolderExist p)).
Proof.
  repeat split; intros; intros w k Hk.
  - done.
  - unfold mkdir_recursive.
    destruct (node_at (fs w) p) as [[?|]|]; [done|..];
      (destruct (mkdirp _ _) as [m|e] eqn:Hm; [|done]);
      by apply mkdirp_dirs in Hm as [Hp _]; apply Hp.
  - unfold writeFile.
    destruct (key_node (fs w) (fskey p)) as [[?|]|] eqn:Hn; [|done|];
      (destruct (node_at (fs w) _) as [[?|]|]; [done| |done]);
      simpl; unfold key_node in *;
      (destruct (decide (fskey p = k)) as [<-|Hne];
       [by rewrite Hn in Hk|by rewrite lookup_insert_ne]).
  - unfold unlinkSync, node_at.
    destruct (key_node (fs w) (fskey p)) as [[?|]|] eqn:Hn; [|done..].
    simpl. unfold key_node in *.
    destruct (decide (fskey p = k)) as [<-|Hne];
      [by rewrite Hn in Hk|by rewrite lookup_delete_ne].
  - unfold ensureFolderExist.
    destruct (node_at (fs w) p); [done|].
    destruct (mkdirp _ _) as [m|e] eqn:Hm; [|done].
    by apply mkdirp_dirs in Hm as [Hp _]; apply Hp.
Qed.

(** [unlinkSync] leaves a directory where it is, and raises. *)
Lemma unlinkSync_directory p w :
  node_at (fs w) p = Some Dir →
  unlinkSync p w = (Err (SystemError "EISDIR"), w).
Proof. unfold unlinkSync. by intros ->. Qed.

Lemma string_app_empty (a b : string) : a +:+ b = "" → a = "" ∧ b = "".
Proof. by destruct a. Qed.

(** [path.join] never returns the empty string. *)
Lemma path_join_nonempty a b : path.join a b ≠ "".
Proof.
  unfold path.join, path.join_list.
  destruct (filter _ _) as [|part parts]; [done|].
  unfold path.normalize.
  destruct (path.chars _) as [|c cs]; [done|].
  case_bool_decide as Hbody; [by repeat case_match|].
  intros Happ. apply string_app_empty in Happ as [_ Happ].
  apply string_app_empty in Happ as [Happ _]. done.
Qed.

Lemma importMap_rest_keeps_dirs relativeFolder mapPath :
  preserves dirs_persist (importMap_rest relativeFolder mapPath).
Proof.
  assert (∀ l w, dirs_persist w (log l w).2) as Hlog by (by intros l w k Hk).
  assert (∀ w, dirs_persist w (bump_reads w)) as Hreads by (by intros w k Hk).
  assert (∀ z w, dirs_persist w (set_archive z w)) as Harch by (by intros z w k Hk).
  pose proof (extractFiles_preserves dirs_persist fs_writes_keep_dirs Hlog) as Hex.
  pose proof (collect_folder_preserves dirs_persist Harch) as Hco.
  pose proof (loadMapInfoFromPath_preserves dirs_persist Hlog Hreads) as Hlo.
  unfold importMap_rest. frame; try by intros w.
Qed.

Lemma importMap_unfold zipPath relativeFolder mapName mapsFolder :
  importMap zipPath relativeFolder mapName mapsFolder
  = (do existing <- pathExistsSync (path.join mapsFolder mapName);
     try_catch
       (log (InfoImporting zipPath relativeFolder (path.join mapsFolder mapName));;
        (if negb existing then mkdir_recursive (path.join mapsFolder mapName)
         else ret ());;
        importMap_rest relativeFolder (path.join mapsFolder mapName))
       (importMap_handler existing (path.join mapsFolder mapName))).
Proof. reflexivity. Qed.

(** What [importMap] does when its destination folder is new and could
    be created, and the unit then fails: the cleanup raises, and the
    folder stays. *)
Lemma importMap_new_folder_failure
    zipPath relativeFolder mapName mapsFolder w e :
  node_at (fs w) (path.join mapsFolder mapName) = None →
  (mkdir_recursive (path.join mapsFolder mapName) w).1 = Ok () →
  (importMap zipPath relativeFolder mapName mapsFolder w).1 = Err e →
  e = SystemError "EISDIR"
  ∧ node_at (fs (importMap zipPath relativeFolder mapName mapsFolder w).2)
      (path.join mapsFolder mapName)
    = Some Dir.
Proof.
  intros Hnew Hmk.
  pose proof (path_join_nonempty mapsFolder mapName) as Hne.
  set (mapPath := path.join mapsFolder mapName) in *.
  set (l := InfoImporting zipPath relativeFolder mapPath).
  assert (pathExistsSync mapPath w = (Ok false, w)) as Hex.
  { unfold pathExistsSync. rewrite Hnew.
    by rewrite bool_decide_eq_false_2 by (by intros [? ?]). }
  assert (∃ w1, mkdir_recursive mapPath (log l w).2 = (Ok (), w1)
                ∧ node_at (fs w1) mapPath = Some Dir) as (w1 & Hrun & Hdir).
  { unfold mkdir_recursive in *. simpl. rewrite Hnew in *.
    destruct (mkdirp _ (fs w)) as [m|] eqn:Hm; [|done].
    eexists. split; [done|]. simpl. by apply mkdirp_dirs in Hm as [_ Hd]. }
  pose proof (importMap_rest_keeps_dirs relativeFolder mapPath w1) as Hkeep.
  assert (∀ e0 w2, node_at (fs w2) mapPath = Some Dir →
            importMap_handler false mapPath e0 w2
            = (Err (SystemError "EISDIR"), w2)) as Hhandler.
  { intros e0 w2 Hd. unfold importMap_handler. simpl.
    rewrite bool_decide_eq_false_2 by done. simpl.
    unfold bind. by rewrite (unlinkSync_directory _ _ Hd). }
  intros Hres.
  destruct (importMap zipPath relativeFolder mapName mapsFolder w)
    as [res w'] eqn:Himp.
  cbn [fst snd] in *. subst res. rewrite importMap_unfold in Himp.
  fold mapPath in Himp. fold l in Himp.
  unfold bind at 1 in Himp. rewrite Hex in Himp. unfold try_catch in Himp.
  unfold bind at 1 in Himp.
  change (log l w) with (Ok (), (log l w).2) in Himp.
  cbv beta iota in Himp.
  cbn [negb] in Himp. unfold bind at 1 in Himp. rewrite Hrun in Himp.
  destruct (importMap_rest relativeFolder mapPath w1) as [[localMap|e0] w2];
    [done|].
  assert (node_at (fs w2) mapPath = Some Dir) as Hdir2 by (by apply Hkeep).
  rewrite (Hhandler _ _ Hdir2) in Himp. by injection Himp as <- <-.
Qed.

(** When the destination folder was there before, a failing unit leaves
    it in place, warns, and raises the error as a [CustomError]. *)
Lemma importMap_existing_folder_failure
    zipPath relativeFolder mapName mapsFolder w e :
  node_at (fs w) (path.join mapsFolder mapName) = Some Dir →
  (importMap zipPath relativeFolder mapName mapsFolder w).1 = Err e →
  (∃ e0, e = as_CustomError e0)
  ∧ node_at (fs (importMap zipPath relativeFolder mapName mapsFolder w).2)
      (path.join mapsFolder mapName)
    = Some Dir
  ∧ last (logs (importMap zipPath relativeFolder mapName mapsFolder w).2)
    = Some (WarnCouldBeBroken (path.join mapsFolder mapName)).
Proof.
  intros Hdir.
  pose proof (path_join_nonempty mapsFolder mapName) as Hne.
  set (mapPath := path.join mapsFolder mapName) in *.
  set (l := InfoImporting zipPath relativeFolder mapPath).
  assert (pathExistsSync mapPath w = (Ok true, w)) as Hex.
  { unfold pathExistsSync. rewrite Hdir. by rewrite bool_decide_eq_true_2 by eauto. }
  assert (∀ e0 w2,
            importMap_handler true mapPath e0 w2
            = (Err (as_CustomError e0), (log (WarnCouldBeBroken mapPath) w2).2))
    as Hhandler.
  { intros e0 w2. unfold importMap_handler. simpl.
    by rewrite bool_decide_eq_false_2 by done. }
  intros Hres.
  destruct (importMap zipPath relativeFolder mapName mapsFolder w)
    as [res w'] eqn:Himp.
  cbn [fst snd] in *. subst res. rewrite importMap_unfold in Himp.
  fold mapPath in Himp. fold l in Himp.
  unfold bind at 1 in Himp. rewrite Hex in Himp. unfold try_catch in Himp.
  unfold bind at 1 in Himp.
  change (log l w) with (Ok (), (log l w).2) in Himp.
  cbv beta iota in Himp.
  set (wl := (log l w).2) in *.
  assert (fs wl = fs w) as Hfl by done.
  cbn [negb] in Himp. unfold bind at 1, ret at 1 in Himp.
  pose proof (importMap_rest_keeps_dirs relativeFolder mapPath wl) as Hkeep.
  destruct (importMap_rest relativeFolder mapPath wl) as [[localMap|e0] w2];
    [done|].
  rewrite Hhandler in Himp. injection Himp as <- <-.
  cbn [fst snd] in Hkeep.
  split; [by eexists|]. split.
  - apply Hkeep. unfold node_at in Hdir. by rewrite Hfl.
  - unfold log. simpl. by rewrite last_snoc.
Qed.

(** ** The stream of a scan *)

Lemma scanned_app ps1 ps2 m c :
  scanned (ps1 ++ ps2) m c
  = scanned ps1 m c ++ scanned ps2 m (scan_cache ps1 m c).
Proof.
  revert c. induction ps1 as [|p ps1 IH]; intros c; simpl; [done|].
  destruct (load_result m c p) as [[localMap|]|e]; simpl; by rewrite ?IH.
Qed.

Lemma scan_cache_app ps1 ps2 m c :
  scan_cache (ps1 ++ ps2) m c = scan_cache ps2 m (scan_cache ps1 m c).
Proof.
  revert c. induction ps1 as [|p ps1 IH]; intros c; simpl; [done|].
  destruct (load_result m c p) as [[localMap|]|e]; simpl; by rewrite ?IH.
Qed.

Lemma ticks_app total from n1 n2 :
  ticks total from (n1 + n2) = ticks total from n1 ++ ticks total (from + n1) n2.
Proof. unfold ticks. by rewrite seq_app, fmap_app. Qed.

Lemma scanOne_exact total mapPath loaded w :
  closed w = None →
  ∃ w',
    scanOne total mapPath loaded w
    = (Ok (loaded + length (scanned [mapPath] (fs w) (songCache w)),
           head (scanned [mapPath] (fs w) (songCache w))), w')
    ∧ closed w' = None
    ∧ emitted w'
      = emitted w
        ++ ticks total loaded (length (scanned [mapPath] (fs w) (songCache w)))
    ∧ fs w' = fs w
    ∧ songCache w' = scan_cache [mapPath] (fs w) (songCache w).
Proof.
  intros Hopen. unfold scanOne, bind, settled. simpl.
  pose proof (loadMapInfoFromPath_result mapPath w) as Hres.
  pose proof (loadMapInfoFromPath_keeps_fs mapPath w) as Hfs.
  pose proof (loadMapInfoFromPath_keeps_songCache mapPath w) as Hc.
  pose proof (loadMapInfoFromPath_silent mapPath) as [Hem Hcl].
  specialize (Hem w). specialize (Hcl w). unfold keeps in *.
  destruct (loadMapInfoFromPath mapPath w) as [r w1]. simpl in *.
  rewrite <- Hres.
  destruct r as [[localMap|]|e]; simpl.
  - unfold setMapInfoFromDirname, observer_next, ret. simpl.
    rewrite Hcl, Hopen. simpl. replace (loaded + 1) with (S loaded) by lia.
    eexists. split; [reflexivity|]. simpl. split_and!; try done.
    + by rewrite Hem.
    + by rewrite Hc.
  - unfold ret. replace (loaded + 0) with loaded by lia.
    eexists. split; [reflexivity|]. unfold ticks. simpl.
    rewrite app_nil_r. split_and!; congruence.
  - unfold ret. replace (loaded + 0) with loaded by lia.
    eexists. split; [reflexivity|]. unfold ticks. simpl.
    rewrite app_nil_r. split_and!; congruence.
Qed.
Lemma scanned_one mapPath m c :
  option_list (head (scanned [mapPath] m c)) = scanned [mapPath] m c.
Proof. simpl. by destruct (load_result m c mapPath) as [[localMap|]|e]. Qed.

Lemma scanChunk_exact total chunk loaded w :
  closed w = None →
  ∃ w',
    scanChunk total chunk loaded w
    = (Ok (loaded + length (scanned chunk (fs w) (songCache w)),
           scanned chunk (fs w) (songCache w)), w')
    ∧ closed w' = None
    ∧ emitted w'
      = emitted w ++ ticks total loaded (length (scanned chunk (fs w) (songCache w)))
    ∧ fs w' = fs w
    ∧ songCache w' = scan_cache chunk (fs w) (songCache w).
Proof.
  revert loaded w. induction chunk as [|mapPath chunk IH]; intros loaded w Hopen.
  - exists w. cbn [scanChunk scanned scan_cache length]. unfold ret, ticks.
    replace (loaded + 0) with loaded by lia. simpl. by rewrite app_nil_r.
  - destruct (scanOne_exact total mapPath loaded w Hopen)
      as (w1 & Hone & Hopen1 & Hem1 & Hfs1 & Hc1).
    destruct (IH (loaded + length (scanned [mapPath] (fs w) (songCache w))) w1 Hopen1)
      as (w2 & Hrest & Hopen2 & Hem2 & Hfs2 & Hc2).
    exists w2. change (mapPath :: chunk) with ([mapPath] ++ chunk).
    rewrite scanned_app, scan_cache_app, length_app, ticks_app.
    rewrite Hfs1, Hc1 in *.
    split.
    { cbn [scanChunk app]. unfold bind at 1. rewrite Hone.
      unfold bind at 1. rewrite Hrest. unfold ret.
      by rewrite scanned_one, Nat.add_assoc. }
    split_and!; try done; try congruence.
    by rewrite Hem2, Hem1, <- app_assoc.
Qed.

Lemma scanChunks_exact total pathChunks loaded loadedMaps w :
  closed w = None →
  let maps := scanned (concat pathChunks) (fs w) (songCache w) in
  ∃ w',
    scanChunks total pathChunks loaded loadedMaps w
    = (Ok (loaded + length maps, loadedMaps ++ maps), w')
    ∧ closed w' = None
    ∧ emitted w' = emitted w ++ ticks total loaded (length maps)
    ∧ fs w' = fs w
    ∧ songCache w' = scan_cache (concat pathChunks) (fs w) (songCache w).
Proof.
  revert loaded loadedMaps w.
  induction pathChunks as [|chunk pathChunks IH]; intros loaded loadedMaps w Hopen.
  - exists w. cbn [scanChunks concat scanned scan_cache length]. unfold ret, ticks.
    replace (loaded + 0) with loaded by lia. simpl. by rewrite !app_nil_r.
  - destruct (scanChunk_exact total chunk loaded w Hopen)
      as (w1 & Hone & Hopen1 & Hem1 & Hfs1 & Hc1).
    destruct (IH (loaded + length (scanned chunk (fs w) (songCache w)))
                 (loadedMaps ++ scanned chunk (fs w) (songCache w)) w1 Hopen1)
      as (w2 & Hrest & Hopen2 & Hem2 & Hfs2 & Hc2).
    exists w2. cbn [concat]. cbv zeta.
    rewrite scanned_app, scan_cache_app, length_app, ticks_app.
    rewrite Hfs1, Hc1 in *.
    split.
    { cbn [scanChunks]. unfold bind at 1. rewrite Hone.
      rewrite Hrest. by rewrite <- app_assoc, Nat.add_assoc. }
    split_and!; try done; try congruence.
    by rewrite Hem2, Hem1, <- app_assoc.
Qed.

Lemma load_result_path m c mapPath localMap :
  load_result m c mapPath = Ok (Some localMap) → map_path localMap = mapPath.
Proof.
  intros Hload.
  apply (loadMapInfoFromPath_path mapPath
           {| fs := m; songCache := c; logs := []; reads := 0; emitted := [];
              closed := None; archive := []; progress := (0, 0, None) |}).
  by rewrite loadMapInfoFromPath_result.
Qed.

Lemma scanned_paths mapsPaths m c :
  map_path <$> scanned mapsPaths m c `sublist_of` mapsPaths.
Proof.
  revert c. induction mapsPaths as [|p ps IH]; intros c; simpl; [done|].
  destruct (load_result m c p) as [[localMap|]|e] eqn:Hload.
  - rewrite fmap_cons, (load_result_path _ _ _ _ Hload). by apply sublist_skip.
  - by apply sublist_cons.
  - by apply sublist_cons.
Qed.

Lemma getMapsFolderPath_fs version w1 w2 :
  fs w1 = fs w2 →
  fs (getMapsFolderPath version w1).2 = fs (getMapsFolderPath version w2).2.
Proof.
  intros Heq. destruct version as [v|]; [done|].
  unfold getMapsFolderPath, bind, pathExist, pathExistsSync, ensureFolderExist, ret.
  cbn [fst snd]. rewrite Heq. set (p := path.join_list _).
  destruct (node_at (fs w2) p) as [n|] eqn:Hn; cbn [negb fst snd].
  { by rewrite (bool_decide_eq_true_2 _ (mk_is_Some _ _ eq_refl)). }
  rewrite bool_decide_eq_false_2 by (by intros [? ?]). cbn [negb fst snd].
  rewrite ?Heq, Hn. by destruct (mkdirp (fskey p) (fs w2)).
Qed.

Lemma getMaps_exact (version : option BSVersion) (w : world) :
  let levelsFolder := mapsFolderPath version in
  let disk := fs (getMapsFolderPath version w).2 in
  let levelsPaths := list_children is_dir levelsFolder disk in
  let maps := scanned levelsPaths disk (songCache w) in
  is_Some (node_at disk levelsFolder) →
  emitted (getMaps version w)
  = ticks (length levelsPaths) 0 (length maps)
    ++ [BsmLocalMapsProgress (length levelsPaths) (length maps) maps]
  ∧ closed (getMaps version w) = Some Completed
  ∧ map_path <$> maps `sublist_of` levelsPaths
  ∧ fs (getMaps version w) = disk
  ∧ songCache (getMaps version w) = scan_cache levelsPaths disk (songCache w).
Proof.
  intros levelsFolder disk levelsPaths maps Hexists.
  destruct (getMapsFolderPath_run version (fresh_observer w))
    as (folder & w1 & Hrun & Hem1 & Hcl1 & Hc1 & _ & _).
  pose proof (getMapsFolderPath_value version (fresh_observer w)) as Hval.
  rewrite Hrun in Hval. simpl in Hval. injection Hval as ->.
  assert (fs w1 = disk) as Hdisk.
  { subst disk. rewrite <- (getMapsFolderPath_fs version (fresh_observer w) w) by done.
    by rewrite Hrun. }
  assert (closed w1 = None) as Hopen1 by (by rewrite Hcl1).
  destruct (scanChunks_exact (length levelsPaths) (splitIntoChunk levelsPaths 50)
              0 [] (bump_reads w1) Hopen1)
    as (w2 & Hscan & Hopen2 & Hem2 & Hfs2 & Hc2).
  rewrite splitIntoChunk_concat in Hscan, Hem2, Hc2 by lia.
  simpl in Hscan, Hem2, Hfs2, Hc2. rewrite Hdisk, Hc1 in *.
  change (songCache (fresh_observer w)) with (songCache w) in *.
  fold maps in Hscan, Hem2.
  assert (getMaps_body version (fresh_observer w)
          = observer_next
              (BsmLocalMapsProgress (length levelsPaths) (length maps) maps) w2)
    as Hbody.
  { unfold getMaps_body. unfold bind at 1. rewrite Hrun.
    unfold bind at 1. unfold pathExist, pathExistsSync. cbn [fst snd].
    rewrite Hdisk. rewrite bool_decide_eq_true_2 by done. cbn [negb].
    unfold bind at 1. unfold getFoldersInFolder. rewrite Hdisk.
    change (list_children is_dir (mapsFolderPath version) disk) with levelsPaths.
    unfold bind at 1. rewrite Hscan. done. }
  unfold getMaps, subscribe. rewrite Hbody.
  unfold observer_next. rewrite Hopen2. cbn [fst snd]. unfold observer_close.
  cbn [closed emitted fs songCache]. rewrite Hem2, Hem1. cbn [fresh_observer emitted].
  split_and!; try done.
  apply scanned_paths.
Qed.

Lemma getMaps_missing version w :
  ¬ is_Some (node_at (fs (getMapsFolderPath version w).2) (mapsFolderPath version)) →
  emitted (getMaps version w) = []
  ∧ closed (getMaps version w) = Some Completed
  ∧ fs (getMaps version w) = fs (getMapsFolderPath version w).2
  ∧ songCache (getMaps version w) = songCache w.
Proof.
  intros Hmissing.
  destruct (getMapsFolderPath_run version (fresh_observer w))
    as (folder & w1 & Hrun & Hem1 & Hcl1 & Hc1 & _ & _).
  pose proof (getMapsFolderPath_value version (fresh_observer w)) as Hval.
  rewrite Hrun in Hval. simpl in Hval. injection Hval as ->.
  assert (fs w1 = fs (getMapsFolderPath version w).2) as Hdisk.
  { rewrite <- (getMapsFolderPath_fs version (fresh_observer w) w) by done.
    by rewrite Hrun. }
  assert (getMaps_body version (fresh_observer w) = observer_complete w1) as Hbody.
  { unfold getMaps_body. unfold bind at 1. rewrite Hrun.
    unfold bind at 1. unfold pathExist, pathExistsSync. cbn [fst snd].
    rewrite Hdisk. by rewrite bool_decide_eq_false_2 by done. }
  unfold getMaps, subscribe. rewrite Hbody.
  unfold observer_complete, observer_close. cbn [fst snd]. rewrite Hcl1.
  cbn [fresh_observer closed emitted fs songCache]. by rewrite Hem1, Hdisk, Hc1.
Qed.

(** X1 (getMaps). When the maps folder exists, a scan pushes one snapshot
    for every folder it manages to load, the counter going from 1 up with
    the list of maps still empty, then one last snapshot that carries the
    maps; [total] is the number of subfolders, the final [loaded] the number
    of maps; the maps are those of the subfolders that load, in the order of
    the listing; the stream completes, whatever folder failed. *)
Theorem getMaps_stream (version : option BSVersion) (w : world) :
  let levelsFolder := mapsFolderPath version in
  let disk := fs (getMapsFolderPath version w).2 in
  let levelsPaths := list_children is_dir levelsFolder disk in
  let maps := scanned levelsPaths disk (songCache w) in
  is_Some (node_at disk levelsFolder) →
  emitted (getMaps version w)
  = ticks (length levelsPaths) 0 (length maps)
    ++ [BsmLocalMapsProgress (length levelsPaths) (length maps) maps]
  ∧ closed (getMaps version w) = Some Completed
  ∧ map_path <$> maps `sublist_of` levelsPaths
  ∧ fs (getMaps version w) = disk
  ∧ songCache (getMaps version w) = scan_cache levelsPaths disk (songCache w).
Proof. apply getMaps_exact. Qed.

(** ** Deleting a list of maps *)

Lemma observer_next_run s w :
  closed w = None →
  observer_next s w
  = (Ok (), {| fs := fs w; songCache := songCache w; logs := logs w;
               reads := reads w; emitted := emitted w ++ [s]; closed := None;
               archive := archive w; progress := progress w |}).
Proof. intros Hopen. unfold observer_next. by rewrite Hopen. Qed.

Lemma deleteMaps_loop_cons total mapPath maps deleted w :
  deleteMaps_loop total (mapPath :: maps) deleted w
  = (if bool_decide (is_Some (node_at (fs w) mapPath))
     then
       observer_next (DeleteMapsProgress total (S deleted));;
       deleteMaps_loop total maps (S deleted)
     else
       observer_next (DeleteMapsProgress total deleted);;
       deleteMaps_loop total maps deleted)
      (if bool_decide (is_Some (node_at (fs w) mapPath))
       then set_songCache (delete (path.basename mapPath) (songCache w))
              (set_fs (remove_tree mapPath (fs w)) w)
       else w).
Proof.
  cbn [deleteMaps_loop]. unfold bind at 1, pathExistsSync. cbn [fst snd].
  by destruct (bool_decide (is_Some (node_at (fs w) mapPath))).
Qed.

Lemma deleteMaps_loop_exact total maps deleted w :
  closed w = None →
  let gone := unlinked maps (fs w) in
  ∃ w',
    deleteMaps_loop total maps deleted w = (Ok (deleted + length gone), w')
    ∧ closed w' = None
    ∧ emitted w'
      = emitted w
        ++ ((λ i, DeleteMapsProgress total
                    (deleted + length (unlinked (take (S i) maps) (fs w))))
              <$> seq 0 (length maps))
    ∧ fs w' = foldl (λ m p, remove_tree p m) (fs w) gone
    ∧ songCache w' = foldl (λ c p, delete (path.basename p) c) (songCache w) gone.
Proof.
  revert deleted w. induction maps as [|mapPath maps IH]; intros deleted w Hopen.
  { exists w. simpl. unfold ret. rewrite app_nil_r, Nat.add_0_r. done. }
  rewrite deleteMaps_loop_cons. cbn [unlinked]. cbv zeta.
  assert (∀ i, take (S i) (mapPath :: maps) = mapPath :: take i maps) as Htake by done.
  destruct (bool_decide (is_Some (node_at (fs w) mapPath))) eqn:Hex.
  - unfold bind at 1. rewrite observer_next_run by done.
    match goal with |- context [deleteMaps_loop total maps (S deleted) ?w1] =>
      destruct (IH (S deleted) w1) as (w2 & Hrun & Hopen2 & Hem2 & Hfs2 & Hc2);
        [done|] end.
    cbn [fs songCache emitted set_fs set_songCache] in Hem2, Hfs2, Hc2.
    exists w2. cbn [fst snd]. rewrite Hrun. split.
    { do 2 f_equal. simpl. lia. }
    split_and!; try done.
    rewrite Hem2, <- app_assoc. f_equal.
    cbn [length seq fmap list_fmap app]. rewrite Htake. cbn [unlinked].
    rewrite Hex. f_equal.
    { f_equal. destruct maps; cbn [take unlinked length]; lia. }
    rewrite <- fmap_S_seq, <- list_fmap_compose.
    apply list_fmap_ext. intros i x _. cbn [compose]. rewrite Htake.
    cbn [unlinked]. rewrite Hex. cbn [length]. f_equal. lia.
  - unfold bind at 1. rewrite observer_next_run by done.
    match goal with |- context [deleteMaps_loop total maps deleted ?w1] =>
      destruct (IH deleted w1) as (w2 & Hrun & Hopen2 & Hem2 & Hfs2 & Hc2);
        [done|] end.
    cbn [fs songCache emitted set_fs set_songCache] in Hem2, Hfs2, Hc2.
    exists w2. cbn [fst snd]. rewrite Hrun. split; [done|].
    split_and!; try done.
    rewrite Hem2, <- app_assoc. f_equal.
    cbn [length seq fmap list_fmap app]. rewrite Htake. cbn [unlinked].
    rewrite Hex. f_equal.
    { f_equal. destruct maps; cbn [take unlinked length]; lia. }
    rewrite <- fmap_S_seq, <- list_fmap_compose.
    apply list_fmap_ext. intros i x _. cbn [compose]. rewrite Htake.
    cbn [unlinked]. by rewrite Hex.
Qed.

Lemma deleteMaps_run maps w :
  let gone := unlinked maps (fs w) in
  closed (deleteMaps maps w) = Some Completed
  ∧ emitted (deleteMaps maps w)
    = (λ i, DeleteMapsProgress (length maps)
              (length (unlinked (take (S i) maps) (fs w))))
        <$> seq 0 (length maps)
  ∧ fs (deleteMaps maps w) = foldl (λ m p, remove_tree p m) (fs w) gone
  ∧ songCache (deleteMaps maps w)
    = foldl (λ c p, delete (path.basename p) c) (songCache w) gone.
Proof.
  intros gone.
  destruct (deleteMaps_loop_exact (length maps) maps 0 (fresh_observer w) eq_refl)
    as (w1 & Hrun & Hopen & Hem & Hfs & Hc).
  unfold deleteMaps, subscribe. unfold bind. rewrite Hrun. unfold ret.
  unfold observer_close. rewrite Hopen. simpl in *. by rewrite Hem, Hfs, Hc.
Qed.

Lemma unlinked_elem_of maps m p : p ∈ unlinked maps m → p ∈ maps.
Proof.
  revert m. induction maps as [|q maps IH]; intros m; simpl; [done|].
  case_bool_decide.
  - intros [->|Hin]%elem_of_cons; [left|right; by eapply IH].
  - intros Hin. right. by eapply IH.
Qed.

Lemma node_at_None_lookup m p : node_at m p = None → m !! fskey p = None.
Proof. unfold node_at, key_node. by destruct (m !! fskey p). Qed.

Lemma is_under_refl k : is_under k k = true.
Proof. unfold is_under. by rewrite bool_decide_eq_true_2. Qed.

Lemma unlinked_gone maps m p :
  p ∈ maps →
  foldl (λ m p, remove_tree p m) m (unlinked maps m) !! fskey p = None.
Proof.
  revert m. induction maps as [|q maps IH]; intros m Hin; simpl.
  { by apply elem_of_nil in Hin. }
  case_bool_decide as Hex; simpl.
  - apply elem_of_cons in Hin as [->|Hin]; [|by apply IH].
    eapply lookup_weaken_None; [|apply foldl_remove_tree_subseteq].
    apply remove_tree_lookup, is_under_refl.
  - apply elem_of_cons in Hin as [->|Hin]; [|by apply IH].
    eapply lookup_weaken_None; [|apply foldl_remove_tree_subseteq].
    apply node_at_None_lookup. by apply eq_None_not_Some.
Qed.

Lemma remove_tree_lookup_outside p m k :
  is_under (fskey p) k = false → remove_tree p m !! k = m !! k.
Proof.
  intros Hu. unfold remove_tree. destruct (m !! k) as [n|] eqn:Hk.
  - apply map_lookup_filter_Some. by split.
  - apply map_lookup_filter_None. by left.
Qed.

Lemma foldl_remove_tree_outside l m k :
  (∀ p, p ∈ l → is_under (fskey p) k = false) →
  foldl (λ m p, remove_tree p m) m l !! k = m !! k.
Proof.
  revert m. induction l as [|p l IH]; intros m Hout; simpl; [done|].
  rewrite IH by (intros q Hq; apply Hout; by right).
  apply remove_tree_lookup_outside, Hout. by left.
Qed.

Lemma foldl_delete_outside (l : list string) (c : gmap string CachedMapInfo) d :
  (∀ p, p ∈ l → path.basename p ≠ d) →
  foldl (λ c p, delete (path.basename p) c) c l !! d = c !! d.
Proof.
  revert c. induction l as [|p l IH]; intros c Hout; simpl; [done|].
  rewrite IH by (intros q Hq; apply Hout; by right).
  apply lookup_delete_ne, Hout. by left.
Qed.

(** X2 (deleteMaps). One snapshot is pushed per listed map, in order,
    whether its folder existed or not; [total] is the length of the list
    and [deleted] counts the listed folders met so far that were on disk
    when their turn came; the stream then completes. *)
Theorem deleteMaps_stream (maps : list string) (w : world) :
  emitted (deleteMaps maps w)
  = (λ i, DeleteMapsProgress (length maps)
            (length (unlinked (take (S i) maps) (fs w))))
      <$> seq 0 (length maps)
  ∧ closed (deleteMaps maps w) = Some Completed.
Proof. by destruct (deleteMaps_run maps w) as (? & ? & _). Qed.

(** X3 (deleteMaps). After the run no listed path is on disk; nothing is
    created; what lies outside the listed folders is untouched; the cache
    entry of every folder that was removed is evicted, and no other entry
    changes. *)
Theorem deleteMaps_removes_listed_folders (maps : list string) (w : world) :
  let w' := deleteMaps maps w in
  (∀ p, p ∈ maps → fs w' !! fskey p = None)
  ∧ fs w' ⊆ fs w
  ∧ ((∀ p, p ∈ maps → is_root (fskey p) = false) →
     ∀ k, (∀ p, p ∈ maps → is_under (fskey p) k = false) → fs w' !! k = fs w !! k)
  ∧ (∀ p, p ∈ unlinked maps (fs w) → songCache w' !! path.basename p = None)
  ∧ (∀ d, (∀ p, p ∈ unlinked maps (fs w) → path.basename p ≠ d) →
          songCache w' !! d = songCache w !! d).
Proof.
  intros w'. destruct (deleteMaps_run maps w) as (_ & _ & Hfs & Hc).
  fold w' in Hfs, Hc. rewrite Hfs, Hc. split_and!.
  - intros p Hp. by apply unlinked_gone.
  - apply foldl_remove_tree_subseteq.
  - intros _ k Hout. apply foldl_remove_tree_outside.
    intros p Hp. by apply Hout, unlinked_elem_of with (fs w).
  - intros p Hp. by apply foldl_delete_gone.
  - intros d Hout. by apply foldl_delete_outside.
Qed.

Lemma unlinked_absent maps m :
  (∀ p, p ∈ maps → node_at m p = None) → unlinked maps m = [].
Proof.
  induction maps as [|p maps IH]; intros Habs; simpl; [done|].
  rewrite bool_decide_eq_false_2.
  - apply IH. intros q Hq. apply Habs. by right.
  - rewrite (Habs p) by left. by intros [? ?].
Qed.

Lemma deleteMaps_absent maps w :
  (∀ p, p ∈ maps → node_at (fs w) p = None) →
  fs (deleteMaps maps w) = fs w
  ∧ songCache (deleteMaps maps w) = songCache w
  ∧ emitted (deleteMaps maps w)
    = replicate (length maps) (DeleteMapsProgress (length maps) 0).
Proof.
  intros Habs. destruct (deleteMaps_run maps w) as (_ & Hem & Hfs & Hc).
  cbv zeta in Hfs, Hc. rewrite (unlinked_absent maps (fs w) Habs) in Hfs, Hc.
  rewrite Hem. split_and!; try done.
  erewrite const_fmap; [by rewrite length_seq|].
  intros i x _. cbn beta. rewrite unlinked_absent; [done|].
  intros p Hp. apply Habs. by eapply subseteq_take.
Qed.

(** X4 (deleteMaps). When none of the listed folders is on disk, nothing
    is deleted and nothing is evicted: disk and cache are left exactly as
    they were, the cache entries of the listed folder names included, while
    one snapshot with [deleted] at 0 is still pushed per listed map. *)
Theorem deleteMaps_missing_folders_keep_cache (maps : list string) (w : world) :
  (∀ p, p ∈ maps → node_at (fs w) p = None) →
  fs (deleteMaps maps w) = fs w
  ∧ songCache (deleteMaps maps w) = songCache w
  ∧ emitted (deleteMaps maps w)
    = replicate (length maps) (DeleteMapsProgress (length maps) 0).
Proof. apply deleteMaps_absent. Qed.

(** X5 (deleteMaps). Deleting the same list a second time changes nothing
    and counts nothing. *)
Theorem deleteMaps_idempotent (maps : list string) (w : world) :
  (∀ p, p ∈ maps → is_root (fskey p) = false) →
  let w1 := deleteMaps maps w in
  fs (deleteMaps maps w1) = fs w1
  ∧ songCache (deleteMaps maps w1) = songCache w1
  ∧ emitted (deleteMaps maps w1)
    = replicate (length maps) (DeleteMapsProgress (length maps) 0).
Proof.
  intros Hroot w1. apply deleteMaps_absent. intros p Hp.
  destruct (deleteMaps_run maps w) as (_ & _ & Hfs & _). fold w1 in Hfs.
  unfold node_at, key_node. rewrite Hfs, unlinked_gone by done.
  by rewrite Hroot.
Qed.

Lemma node_at_remove_tree_outside p m q :
  is_under (fskey p) (fskey q) = false →
  node_at (remove_tree p m) q = node_at m q.
Proof.
  intros Hu. unfold node_at, key_node. by rewrite remove_tree_lookup_outside.
Qed.

Lemma ForallOrdPairs_take {A} (R : A → A → Prop) (l : list A) n :
  ForallOrdPairs R l → ForallOrdPairs R (take n l).
Proof.
  intros Hl. revert n. induction Hl as [|a l Ha Hl IH]; intros [|n]; simpl;
    try by constructor.
  constructor; [by apply Forall_take|apply IH].
Qed.

Lemma unlinked_all maps m :
  (∀ p, p ∈ maps → is_Some (node_at m p)) →
  ForallOrdPairs (λ p q, is_under (fskey p) (fskey q) = false) maps →
  unlinked maps m = maps.
Proof.
  intros Hex Hpairs. revert m Hex.
  induction Hpairs as [|p maps Hp Hpairs IH]; intros m Hex; simpl; [done|].
  rewrite bool_decide_eq_true_2 by (apply Hex; left). f_equal. apply IH.
  intros q Hq. rewrite node_at_remove_tree_outside.
  - apply Hex. by right.
  - by apply (proj1 (Forall_forall _ _) Hp).
Qed.

(** X6 (deleteMaps). When every listed folder is on disk and none of them
    lies inside one listed before it (so none is listed twice), every
    snapshot counts one more folder and the last one has [deleted] equal
    to [total]. *)
Theorem deleteMaps_counts_every_folder (maps : list string) (w : world) :
  (∀ p, p ∈ maps → is_Some (node_at (fs w) p)) →
  ForallOrdPairs (λ p q, is_under (fskey p) (fskey q) = false) maps →
  emitted (deleteMaps maps w)
  = DeleteMapsProgress (length maps) <$> seq 1 (length maps).
Proof.
  intros Hex Hpairs. destruct (deleteMaps_run maps w) as (_ & -> & _).
  rewrite <- fmap_S_seq, <- list_fmap_compose.
  apply list_fmap_ext. intros i x [-> Hi]%lookup_seq. simpl.
  rewrite unlinked_all.
  - rewrite length_take. f_equal. lia.
  - intros p Hp. apply Hex. by eapply subseteq_take.
  - by apply ForallOrdPairs_take.
Qed.

(** ** Failures of the hash computation *)

Lemma feed_Err shasum files e :
  feed shasum files = Err e
  ↔ ∃ i, files !! i = Some (Err e)
         ∧ ∀ j r, j < i → files !! j = Some r → is_ok r = true.
Proof.
  revert shasum. induction files as [|[c|e0] files IH]; intros shasum; simpl.
  - split; [done|]. by intros (i & ? & _).
  - rewrite IH. split.
    + intros (i & Hi & Hlt). exists (S i). split; [done|].
      intros [|j] r Hj; simpl; [by intros [= <-]|].
      intros Hr. apply (Hlt j); [lia|done].
    + intros ([|i] & Hi & Hlt); [done|]. exists i. split; [done|].
      intros j r Hj Hr. apply (Hlt (S j)); [lia|done].
  - split.
    + intros [= ->]. exists 0. split; [done|]. intros j r Hj. lia.
    + intros ([|i] & Hi & Hlt); [by injection Hi as ->|].
      by specialize (Hlt 0 (Err e0) ltac:(lia) eq_refl).
Qed.

(** X7 (computeMapHash). The computation fails exactly when the manifest
    does not parse, with the error code "cannot-parse-map-info", or when a
    file the manifest refers to cannot be read; the error is then the read
    error of the first such file in declaration order, passed on as it
    is. *)
Theorem computeMapHash_failure (mapPath raw : string) (w : world) (e : error) :
  (computeMapHash mapPath raw w).1 = Err e
  ↔ (parseMapInfoDat raw = None ∧ e = CustomError (Some "cannot-parse-map-info"))
    ∨ ∃ mapInfo i f,
        parseMapInfoDat raw = Some mapInfo
        ∧ referenced (difficulties mapInfo) !! i = Some f
        ∧ read_result (node_at (fs w) (path.join mapPath f)) = Err e
        ∧ ∀ j g, j < i → referenced (difficulties mapInfo) !! j = Some g →
                 is_ok (read_result (node_at (fs w) (path.join mapPath g))) = true.
Proof.
  rewrite computeMapHash_digest_of. unfold digest_of.
  destruct (parseMapInfoDat raw) as [mapInfo|].
  - set (content := λ f, read_result (node_at (fs w) (path.join mapPath f))).
    destruct (feed raw (content <$> referenced (difficulties mapInfo)))
      as [shasum|e0] eqn:Hfeed.
    + split; [done|]. intros [[? _]|(mapInfo' & i & f & [= <-] & Hi & He & Hlt)];
        [done|].
      assert (feed raw (content <$> referenced (difficulties mapInfo)) = Err e)
        as Hfail; [|congruence].
      apply feed_Err. exists i. rewrite list_lookup_fmap, Hi. split; [by rewrite <- He|].
      intros j r Hj. rewrite list_lookup_fmap.
      destruct (referenced (difficulties mapInfo) !! j) as [g|] eqn:Hg; [|done].
      intros [= <-]. by eapply Hlt.
    + apply feed_Err in Hfeed as (i & Hi & Hlt).
      rewrite list_lookup_fmap in Hi.
      destruct (referenced (difficulties mapInfo) !! i) as [f|] eqn:Hf; [|done].
      injection Hi as Hi. split.
      * intros [= <-]. right. exists mapInfo, i, f. split_and!; try done.
        intros j g Hj Hg. apply (Hlt j); [done|].
        by rewrite list_lookup_fmap, Hg.
      * intros [[? _]|(mapInfo' & i' & f' & [= <-] & Hi' & He & Hlt')]; [done|].
        f_equal. destruct (Nat.lt_trichotomy i i') as [Hlt1|[->|Hlt1]].
        -- specialize (Hlt' i f Hlt1 Hf). fold (content f) in Hlt'.
           by rewrite Hi in Hlt'.
        -- rewrite Hf in Hi'. injection Hi' as <-. fold (content f) in He. congruence.
        -- specialize (Hlt i' (content f') Hlt1).
           rewrite list_lookup_fmap, Hi' in Hlt. specialize (Hlt eq_refl).
           fold (content f') in He. by rewrite He in Hlt.
  - split; [intros [= <-]; by left|].
    by intros [[_ ->]|(? & ? & ? & ? & _)].
Qed.

(** ** What a load returns *)

Lemma Array_find_not_null {A} (f : A → bool) (l : list A) : Array_find f l ≠ null.
Proof. induction l as [|x l IH]; simpl; [done|]. by destruct (f x). Qed.

Lemma load_result_record m c mapPath r :
  load_result m c mapPath = Ok r →
  ∃ mapInfo_ hash_, r = Some (getUrlsAndReturn mapInfo_ hash_ mapPath).
Proof.
  unfold load_result. destruct (c !! path.basename mapPath) as [e|].
  { intros [= <-]. by eexists _, _. }
  destruct (Array_find _ _) as [| |infoFile] eqn:Hfind.
  - done.
  - by apply Array_find_not_null in Hfind.
  - destruct (read_result _) as [raw|]; [|done].
    destruct (parseMapInfoDat raw) as [mapInfo_|]; [|done].
    destruct (digest_of _ _) as [h|]; [|done].
    intros [= <-]. by eexists _, _.
Qed.

(** X8 (loadMapInfoFromPath). A load that does not fail never yields
    [null]: it yields a record for the folder asked for, whose cover and
    song URLs are those of the files its own manifest names inside that
    folder and whose song details are those of its own hash, whether the
    record comes from the cache or from the disk. *)
Theorem loadMapInfoFromPath_record
    (mapPath : string) (w : world) (r : option BsmLocalMap) :
  (loadMapInfoFromPath mapPath w).1 = Ok r →
  ∃ localMap,
    r = Some localMap
    ∧ map_path localMap = mapPath
    ∧ coverUrl localMap
      = pathToFileURL (path.join mapPath (coverImageFilename (mapInfo localMap)))
    ∧ songUrl localMap
      = pathToFileURL (path.join mapPath (songFilename (mapInfo localMap)))
    ∧ songDetails localMap = getSongDetails (hash localMap).
Proof.
  rewrite loadMapInfoFromPath_result. intros Hload.
  apply load_result_record in Hload as (mapInfo_ & hash_ & ->).
  by eexists.
Qed.

(** ** Lookup by hash *)

Lemma songCache_getMapInfoFromHash_Some hash_ w dirname :
  (songCache_getMapInfoFromHash hash_ w).1 = Ok (Some dirname) →
  ∃ c, songCache w !! dirname = Some c ∧ cached_hash c = hash_.
Proof.
  unfold songCache_getMapInfoFromHash. simpl. intros [= Hhead].
  destruct (filter _ _) as [|[d c] l] eqn:Hfilter; [done|].
  simpl in Hhead. injection Hhead as ->.
  assert ((dirname, c) ∈ filter (λ kv : string * CachedMapInfo, cached_hash kv.2 = hash_)
                           (map_to_list (songCache w))) as Hin.
  { rewrite Hfilter. left. }
  apply list_elem_of_filter in Hin as [Hhash Hin].
  apply elem_of_map_to_list in Hin. by exists c.
Qed.

Lemma findMapWithHash_run hash_ mapsPaths w :
  ∃ o w',
    findMapWithHash hash_ mapsPaths w = (Ok o, w')
    ∧ fs w' = fs w ∧ songCache w' = songCache w
    ∧ (∀ localMap, o = Some localMap → hash localMap = hash_)
    ∧ (o = None →
       ∀ mapPath localMap,
         mapPath ∈ mapsPaths →
         load_result (fs w) (songCache w) mapPath = Ok (Some localMap) →
         hash localMap ≠ hash_).
Proof.
  revert w. induction mapsPaths as [|mapPath mapsPaths IH]; intros w.
  { exists None, w. split_and!; try done. intros _ ?? Hin. by apply elem_of_nil in Hin. }
  cbn [findMapWithHash]. unfold bind, tryit.
  pose proof (loadMapInfoFromPath_result mapPath w) as Hres.
  pose proof (loadMapInfoFromPath_keeps_fs mapPath w) as Hfs.
  pose proof (loadMapInfoFromPath_keeps_songCache mapPath w) as Hc.
  unfold keeps in Hfs, Hc.
  destruct (loadMapInfoFromPath mapPath w) as [r w1]. simpl in Hres, Hfs, Hc.
  assert (∀ o w',
            findMapWithHash hash_ mapsPaths w1 = (Ok o, w') →
            fs w' = fs w1 ∧ songCache w' = songCache w1
            ∧ (∀ localMap, o = Some localMap → hash localMap = hash_)
            ∧ (o = None →
               ∀ mapPath localMap,
                 mapPath ∈ mapsPaths →
                 load_result (fs w1) (songCache w1) mapPath = Ok (Some localMap) →
                 hash localMap ≠ hash_) →
            (∀ localMap, r = Ok (Some localMap) → hash localMap ≠ hash_) →
            fs w' = fs w ∧ songCache w' = songCache w
            ∧ (∀ localMap, o = Some localMap → hash localMap = hash_)
            ∧ (o = None →
               ∀ mapPath0 localMap,
                 mapPath0 ∈ mapPath :: mapsPaths →
                 load_result (fs w) (songCache w) mapPath0 = Ok (Some localMap) →
                 hash localMap ≠ hash_)) as Hskip.
  { intros o w' Hrun (Hfs' & Hc' & Hsound & Hnone) Hne.
    split_and!; [congruence|congruence|done|].
    intros -> p localMap [->|Hin]%elem_of_cons Hload.
    - apply Hne. by rewrite Hres.
    - apply (Hnone eq_refl p); [done|]. by rewrite Hfs, Hc. }
  destruct (IH w1) as (o & w' & Hrun & Hrest).
  destruct r as [[localMap|]|e].
  - case_bool_decide as Hhash.
    + exists (Some localMap), w1. unfold ret. split_and!; try done.
      by intros ? [= <-].
    + exists o, w'. split; [done|]. apply Hskip; [done..|].
      by intros ? [= <-].
  - exists o, w'. split; [done|]. by apply Hskip.
  - exists o, w'. split; [done|]. by apply Hskip.
Qed.

Lemma getMapInfoFromHash_run hash_ version w :
  (∀ dirname c,
     songCache w !! dirname = Some c → cached_hash c = hash_ →
     path.basename (path.join (mapsFolderPath version) dirname) = dirname) →
  let disk := fs (getMapsFolderPath version w).2 in
  ∃ o,
    (getMapInfoFromHash hash_ version w).1 = Ok o
    ∧ (∀ localMap, o = Some localMap → hash localMap = hash_)
    ∧ (o = None →
       ∀ mapPath localMap,
         mapPath ∈ list_children is_dir (mapsFolderPath version) disk →
         load_result disk (songCache w) mapPath = Ok (Some localMap) →
         hash localMap ≠ hash_).
Proof.
  intros Hkeys disk.
  destruct (getMapsFolderPath_run version w)
    as (folder & w1 & Hrun & _ & _ & Hc1 & _ & _).
  pose proof (getMapsFolderPath_value version w) as Hval.
  rewrite Hrun in Hval. simpl in Hval. injection Hval as ->.
  assert (fs w1 = disk) as Hdisk by (subst disk; by rewrite Hrun).
  unfold getMapInfoFromHash. unfold bind at 1. rewrite Hrun.
  unfold bind at 1.
  pose proof (songCache_getMapInfoFromHash_Some hash_ w1) as Hby.
  destruct (songCache_getMapInfoFromHash hash_ w1) as [cached w1'] eqn:Hlookup.
  unfold songCache_getMapInfoFromHash in Hlookup.
  injection Hlookup as Hcached <-. symmetry in Hcached.
  set (cached' := head _) in Hcached. subst cached. simpl in Hby.
  set (cachedMapPath := match cached' with Some _ => _ | None => _ end).
  assert (∃ o,
            ((do mapsPaths <- getFoldersInFolder (mapsFolderPath version);
              findMapWithHash hash_ mapsPaths) w1).1 = Ok o
            ∧ (∀ localMap, o = Some localMap → hash localMap = hash_)
            ∧ (o = None →
               ∀ mapPath localMap,
                 mapPath ∈ list_children is_dir (mapsFolderPath version) disk →
                 load_result disk (songCache w) mapPath = Ok (Some localMap) →
                 hash localMap ≠ hash_)) as Hsearch.
  { unfold bind, getFoldersInFolder. cbn [fst snd].
    destruct (findMapWithHash_run hash_
                (list_children is_dir (mapsFolderPath version) (fs w1))
                (bump_reads w1)) as (o & w' & Hfind & _ & _ & Hsound & Hnone).
    rewrite Hfind. exists o. simpl in Hnone. rewrite Hc1 in Hnone.
    rewrite Hdisk in Hnone. split_and!; [done|done|exact Hnone]. }
  destruct cachedMapPath as [p|] eqn:Hp; cycle 1.
  { unfold bind at 1. unfold ret at 1. exact Hsearch. }
  unfold bind at 1.
  destruct (bool_decide (p = "")); [unfold ret at 1; exact Hsearch|].
  unfold pathExistsSync. cbn [fst snd].
  destruct (bool_decide (is_Some (node_at (fs w1) p))); [|exact Hsearch].
  subst cachedMapPath. destruct cached' as [dirname|]; [|done].
  destruct (Hby dirname eq_refl) as (c & Hc & Hhash).
  destruct (negb _ && negb _); [|done]. injection Hp as <-.
  rewrite (loadMapInfoFromPath_hit _ c).
  - eexists. split; [done|]. split; [|done]. by intros ? [= <-].
  - rewrite (Hkeys dirname c); [done| |done]. by rewrite <- Hc1.
Qed.

(** X9 (getMapInfoFromHash). Provided the folder names under which the
    cache holds the hash are plain names (joined to the maps folder, their
    basename is the name itself), the lookup never fails, and a map it
    returns has the hash asked for, whether it comes from the cache or from
    the search of the folder. *)
Theorem getMapInfoFromHash_returns_requested_hash
    (hash_ : string) (version : option BSVersion) (w : world) :
  (∀ dirname c,
     songCache w !! dirname = Some c → cached_hash c = hash_ →
     path.basename (path.join (mapsFolderPath version) dirname) = dirname) →
  ∃ o,
    (getMapInfoFromHash hash_ version w).1 = Ok o
    ∧ ∀ localMap, o = Some localMap → hash localMap = hash_.
Proof.
  intros Hkeys. destruct (getMapInfoFromHash_run hash_ version w Hkeys)
    as (o & Hrun & Hsound & _).
  by exists o.
Qed.

(** X10 (getMapInfoFromHash). Under the same proviso, when some subfolder
    of the maps folder loads with the hash asked for, the lookup returns a
    map: [null] is returned only when no subfolder does. *)
Theorem getMapInfoFromHash_finds_installed_map
    (hash_ : string) (version : option BSVersion) (w : world)
    (mapPath : string) (localMap : BsmLocalMap) :
  (∀ dirname c,
     songCache w !! dirname = Some c → cached_hash c = hash_ →
     path.basename (path.join (mapsFolderPath version) dirname) = dirname) →
  let disk := fs (getMapsFolderPath version w).2 in
  mapPath ∈ list_children is_dir (mapsFolderPath version) disk →
  load_result disk (songCache w) mapPath = Ok (Some localMap) →
  hash localMap = hash_ →
  ∃ found,
    (getMapInfoFromHash hash_ version w).1 = Ok (Some found)
    ∧ hash found = hash_.
Proof.
  intros Hkeys disk Hin Hload Hhash.
  destruct (getMapInfoFromHash_run hash_ version w Hkeys)
    as ([found|] & Hrun & Hsound & Hnone).
  - exists found. split; [done|]. by apply Hsound.
  - by destruct (Hnone eq_refl mapPath localMap Hin Hload).
Qed.

(** ** A unit of an import that succeeds *)

Lemma bind_Ok {A B} (m : M A) (k : A → M B) w b w' :
  bind m k w = (Ok b, w') → ∃ a w1, m w = (Ok a, w1) ∧ k a w1 = (Ok b, w').
Proof. unfold bind. destruct (m w) as [[a|e] w1]; [by eexists _, _|done]. Qed.

Lemma importMap_handler_fails existing mapPath error w :
  ∃ e, (importMap_handler existing mapPath error w).1 = Err e.
Proof.
  unfold importMap_handler, bind.
  destruct ((if negb existing && negb (bool_decide (mapPath = ""))
             then unlinkSync mapPath
             else if existing && negb (bool_decide (mapPath = ""))
                  then log (WarnCouldBeBroken mapPath) else ret ()) w)
    as [[[]|e] w1]; by eexists.
Qed.

(** The steps of a unit that succeeds: the folder is there or is made, the
    entries in scope are extracted, and the folder is loaded. *)
Lemma importMap_Ok zipPath relativeFolder mapName mapsFolder w localMap w' :
  importMap zipPath relativeFolder mapName mapsFolder w = (Ok localMap, w') →
  let mapPath := path.join mapsFolder mapName in
  let wl := (log (InfoImporting zipPath relativeFolder mapPath) w).2 in
  ∃ w1 files wa wb loaded,
    (if bool_decide (is_Some (node_at (fs w) mapPath)) then w1 = wl
     else mkdir_recursive mapPath wl = (Ok (), w1))
    ∧ (if bool_decide (relativeFolder = "")
       then (Ok (JSZipModel.properties (archive w1)), w1) = (Ok files, wa)
       else collect_folder relativeFolder w1 = (Ok files, wa))
    ∧ extractFiles mapPath (JS.own_properties files) wa = (Ok (), wb)
    ∧ loadMapInfoFromPath mapPath wb = (Ok (Some loaded), w')
    ∧ localMap = {| mapInfo := mapInfo loaded;
                    coverUrl := coverUrl loaded;
                    songUrl := songUrl loaded;
                    hash := hash loaded;
                    map_path := map_path loaded;
                    songDetails := getSongDetails (hash loaded) |}.
Proof.
  intros Himp mapPath wl. rewrite importMap_unfold in Himp.
  fold mapPath in Himp. unfold bind at 1, pathExistsSync in Himp.
  cbn [fst snd] in Himp. unfold try_catch in Himp.
  set (existing := bool_decide (is_Some (node_at (fs w) mapPath))) in *.
  match type of Himp with
  | match ?body w with _ => _ end = _ => destruct (body w) as [[a|e] w2] eqn:Hbody
  end; cycle 1.
  { destruct (importMap_handler_fails existing mapPath e w2) as [e' He'].
    rewrite Himp in He'. done. }
  injection Himp as -> ->.
  apply bind_Ok in Hbody as ([] & wl' & Hlog & Hbody).
  assert (wl' = wl) as -> by (by injection Hlog).
  apply bind_Ok in Hbody as ([] & w1 & Hmk & Hrest).
  unfold importMap_rest in Hrest.
  apply bind_Ok in Hrest as (files & wa & Hfiles & Hrest).
  apply bind_Ok in Hrest as ([] & wb & Hextract & Hrest).
  apply bind_Ok in Hrest as (lm & w3 & Hload & Hrest).
  destruct lm as [loaded|]; [|done]. injection Hrest as <- <-.
  exists w1, files, wa, wb, loaded. split_and!; try done.
  - destruct existing; simpl in Hmk; [|done]. by injection Hmk.
  - by destruct (bool_decide (relativeFolder = "")).
Qed.

Lemma importMap_steps_keep {X} (f : world → X)
    zipPath relativeFolder mapName mapsFolder w (w1 wa wb : world)
    (files : list (string * JSZipObject)) :
  (∀ m w, f (set_fs m w) = f w) →
  (∀ l w, f (log l w).2 = f w) →
  (∀ z w, f (set_archive z w) = f w) →
  let mapPath := path.join mapsFolder mapName in
  let wl := (log (InfoImporting zipPath relativeFolder mapPath) w).2 in
  (if bool_decide (is_Some (node_at (fs w) mapPath)) then w1 = wl
   else mkdir_recursive mapPath wl = (Ok (), w1)) →
  (if bool_decide (relativeFolder = "")
   then (Ok (JSZipModel.properties (archive w1)), w1) = (Ok files, wa)
   else collect_folder relativeFolder w1 = (Ok files, wa)) →
  extractFiles mapPath (JS.own_properties files) wa = (Ok (), wb) →
  f wb = f w.
Proof.
  intros Hfs Hlog Harch mapPath wl Hmk Hfiles Hextract.
  assert (PreOrder (keeps f)) as Hpre by apply _.
  assert (∀ m w, keeps f w (set_fs m w)) as Hfs' by (intros; apply Hfs).
  pose proof (fs_writes_preserve (keeps f) Hfs') as Hwrites.
  assert (f wb = f wa) as ->.
  { pose proof (extractFiles_preserves (keeps f) Hwrites Hlog mapPath
                  (JS.own_properties files) wa) as Hk.
    by rewrite Hextract in Hk. }
  assert (f wa = f w1) as ->.
  { destruct (bool_decide (relativeFolder = "")).
    - by injection Hfiles as _ ->.
    - pose proof (collect_folder_preserves (keeps f) Harch relativeFolder w1) as Hk.
      by rewrite Hfiles in Hk. }
  assert (f wl = f w) as <- by apply Hlog.
  destruct (bool_decide (is_Some (node_at (fs w) mapPath))); [by subst|].
  destruct Hwrites as (_ & Hmkdir & _). specialize (Hmkdir mapPath wl).
  by rewrite Hmk in Hmkdir.
Qed.

(** X11 (importMap). A unit imported into a folder whose name is in the
    cache returns the cached manifest and hash, not those of the files it
    has just extracted: the load that ends the unit answers from the
    cache, which no step of the unit updates. *)
Theorem importMap_returns_cached_entry
    (zipPath relativeFolder mapName mapsFolder : string) (w : world)
    (c : CachedMapInfo) (localMap : BsmLocalMap) :
  songCache w !! path.basename (path.join mapsFolder mapName) = Some c →
  (importMap zipPath relativeFolder mapName mapsFolder w).1 = Ok localMap →
  mapInfo localMap = cached_mapInfo c
  ∧ hash localMap = cached_hash c
  ∧ songCache (importMap zipPath relativeFolder mapName mapsFolder w).2
    = songCache w.
Proof.
  intros Hc Hok.
  destruct (importMap zipPath relativeFolder mapName mapsFolder w)
    as [r w'] eqn:Himp. simpl in Hok. subst r.
  destruct (importMap_Ok _ _ _ _ _ _ _ Himp)
    as (w1 & files & wa & wb & loaded & Hmk & Hfiles & Hextract & Hload & ->).
  assert (songCache wb = songCache w) as Hcache.
  { by apply (importMap_steps_keep songCache zipPath relativeFolder mapName
                mapsFolder w w1 wa wb files). }
  rewrite (loadMapInfoFromPath_hit _ c) in Hload by (by rewrite Hcache).
  injection Hload as <- <-. by split_and!.
Qed.

(** ** What an import writes *)

Lemma own_properties_Permutation {A} (l : list (string * A)) :
  JS.own_properties l ≡ₚ l.
Proof.
  unfold JS.own_properties. rewrite merge_sort_Permutation.
  etrans; [|apply (filter_app_complement
                     (λ kv : string * A, JS.array_index kv.1 = None) l)].
  etrans; [apply Permutation_app_comm|]. f_equiv.
  induction l as [|kv l IH]; [done|]. simpl.
  destruct (JS.array_index kv.1) as [i|] eqn:Hi.
  - rewrite filter_cons_True by (by rewrite Hi). simpl. by constructor.
  - rewrite filter_cons_False by (rewrite Hi; by intros []). done.
Qed.

Lemma mkdirs_subseteq keys (m m' : gmap string node) :
  mkdirs keys m = Ok m' → m ⊆ m'.
Proof.
  revert m. induction keys as [|k keys IH]; intros m; simpl.
  { by intros [= ->]. }
  unfold key_node. destruct (m !! k) as [[c|]|] eqn:Hk; [done|apply IH|].
  destruct (is_root k); [apply IH|].
  intros Hrun. etrans; [|by apply IH]. by apply insert_subseteq.
Qed.

Lemma mkdir_recursive_subseteq p w : fs w ⊆ fs (mkdir_recursive p w).2.
Proof.
  unfold mkdir_recursive. destruct (node_at (fs w) p) as [[c|]|]; [done| |];
    (destruct (mkdirp (fskey p) (fs w)) as [m|] eqn:Hm; [|done]);
    by apply mkdirs_subseteq in Hm.
Qed.

Lemma ensureFolderExist_subseteq p w : fs w ⊆ fs (ensureFolderExist p w).2.
Proof.
  unfold ensureFolderExist. destruct (node_at (fs w) p); [done|].
  destruct (mkdirp (fskey p) (fs w)) as [m|] eqn:Hm; [|done].
  by apply mkdirs_subseteq in Hm.
Qed.

Lemma writeFile_Ok p c w w' :
  writeFile p c w = (Ok (), w') →
  fs w' = <[fskey p := File c]> (fs w) ∧ fs w !! fskey p ≠ Some Dir.
Proof.
  unfold writeFile, key_node. cbv zeta.
  destruct (fs w !! fskey p) as [[c0|]|] eqn:Hk.
  - destruct (node_at _ _) as [[?|]|]; [done| |done]. by intros [= <-].
  - done.
  - destruct (is_root (fskey p)); [done|].
    destruct (node_at _ _) as [[?|]|]; [done| |done]. by intros [= <-].
Qed.

Lemma extractFiles_cons_Ok mapPath relativePath file entries w w' :
  extractFiles mapPath ((relativePath, file) :: entries) w = (Ok (), w') →
  ∃ w1,
    (if zdir file then w1 = (ensureFolderExist (path.join mapPath relativePath) w).2
     else writeFile (path.join mapPath relativePath) (zdata file)
            (log (InfoExtracting (path.join mapPath relativePath)) w).2
          = (Ok (), w1))
    ∧ extractFiles mapPath entries w1 = (Ok (), w').
Proof.
  cbn [extractFiles]. intros ([] & w1 & Hstep & Hrest)%bind_Ok.
  exists w1. split; [|done]. destruct (zdir file).
  - unfold ensureFolderExist in *. by repeat case_match; simplify_eq.
  - by apply bind_Ok in Hstep as ([] & wl & [= <-] & Hwrite).
Qed.

(** A file that no later entry is extracted to keeps its content. *)
Lemma extractFiles_keeps_file mapPath entries w w' k c :
  extractFiles mapPath entries w = (Ok (), w') →
  k ∉ (λ e : string * JSZipObject, fskey (path.join mapPath e.1)) <$> entries →
  fs w !! k = Some (File c) →
  fs w' !! k = Some (File c).
Proof.
  revert w. induction entries as [|[relativePath file] entries IH]; intros w.
  { by intros [= <-]. }
  intros (w1 & Hstep & Hrest)%extractFiles_cons_Ok Hk Hfile.
  rewrite fmap_cons in Hk. apply not_elem_of_cons in Hk as [Hne Hk].
  apply (IH w1); [done..|]. destruct (zdir file).
  - subst w1. eapply lookup_weaken; [done|apply ensureFolderExist_subseteq].
  - apply writeFile_Ok in Hstep as [-> _]. simpl.
    by rewrite lookup_insert_ne.
Qed.

Lemma extractFiles_written mapPath entries w w' relativePath file :
  extractFiles mapPath entries w = (Ok (), w') →
  NoDup ((λ e : string * JSZipObject, fskey (path.join mapPath e.1)) <$> entries) →
  (relativePath, file) ∈ entries →
  zdir file = false →
  fs w' !! fskey (path.join mapPath relativePath) = Some (File (zdata file)).
Proof.
  revert w. induction entries as [|[relativePath0 file0] entries IH]; intros w.
  { intros _ _ Hin. by apply elem_of_nil in Hin. }
  intros (w1 & Hstep & Hrest)%extractFiles_cons_Ok Hnodup Hin Hfile.
  rewrite fmap_cons in Hnodup. apply NoDup_cons in Hnodup as [Hfresh Hnodup].
  apply elem_of_cons in Hin as [[= -> ->]|Hin]; [|by apply (IH w1)].
  rewrite Hfile in Hstep. apply writeFile_Ok in Hstep as [Hfs _].
  apply (extractFiles_keeps_file _ _ _ _ _ _ Hrest Hfresh).
  by rewrite Hfs, lookup_insert_eq.
Qed.

(** X12 (importMap). After a single-map archive has been imported, each
    of its file entries is on disk under the destination folder, at the
    entry's name, with the entry's content, provided no two entries of the
    archive are extracted to the same path. *)
Theorem importMap_extracts_every_file
    (zipPath mapName mapsFolder : string) (w : world) (localMap : BsmLocalMap)
    (file : JSZipObject) :
  let mapPath := path.join mapsFolder mapName in
  (importMap zipPath "" mapName mapsFolder w).1 = Ok localMap →
  NoDup ((λ f, fskey (path.join mapPath (zname f))) <$> archive w) →
  file ∈ archive w →
  zdir file = false →
  node_at (fs (importMap zipPath "" mapName mapsFolder w).2)
    (path.join mapPath (zname file))
  = Some (File (zdata file)).
Proof.
  intros mapPath Hok Hnodup Hin Hfile.
  destruct (importMap zipPath "" mapName mapsFolder w) as [r w'] eqn:Himp.
  simpl in Hok. subst r.
  destruct (importMap_Ok _ _ _ _ _ _ _ Himp)
    as (w1 & files & wa & wb & loaded & Hmk & Hfiles & Hextract & Hload & _).
  fold mapPath in Hmk, Hextract, Hload.
  assert (archive w1 = archive w) as Harch.
  { destruct (bool_decide (is_Some (node_at (fs w) mapPath))); [by subst|].
    unfold mkdir_recursive in Hmk. by repeat case_match; simplify_eq. }
  rewrite bool_decide_eq_true_2 in Hfiles by done. injection Hfiles as <- <-.
  rewrite Harch in Hextract.
  pose proof (loadMapInfoFromPath_keeps_fs mapPath wb) as Hfs.
  rewrite Hload in Hfs. unfold keeps in Hfs. simpl in Hfs.
  unfold node_at, key_node. simpl. rewrite Hfs.
  erewrite (extractFiles_written mapPath _ w1 wb (zname file) file); try done.
  - rewrite own_properties_Permutation. unfold JSZipModel.properties.
    by rewrite <- list_fmap_compose.
  - rewrite own_properties_Permutation. unfold JSZipModel.properties.
    apply list_elem_of_fmap. by exists file.
Qed.

(** ** What an import never does *)

#[local] Instance nothing_lost_preorder : PreOrder nothing_lost.
Proof.
  split; [intros w k n Hk; by exists n|].
  intros w1 w2 w3 H12 H23 k n Hk.
  destruct (H12 k n Hk) as (n2 & Hk2 & Hd2).
  destruct (H23 k n2 Hk2) as (n3 & Hk3 & Hd3).
  exists n3. split; [done|congruence].
Qed.

Lemma nothing_lost_same_fs w w' : fs w' = fs w → nothing_lost w w'.
Proof. intros Hfs k n Hk. exists n. by rewrite Hfs. Qed.

Lemma nothing_lost_subseteq w w' : fs w ⊆ fs w' → nothing_lost w w'.
Proof. intros Hsub k n Hk. exists n. split; [by eapply lookup_weaken|done]. Qed.

Lemma writeFile_nothing_lost p c : preserves nothing_lost (writeFile p c).
Proof.
  intros w. destruct (writeFile p c w) as [[[]|e] w'] eqn:Hrun.
  - apply writeFile_Ok in Hrun as [Hfs Hnodir]. simpl. intros k n Hk.
    rewrite Hfs. destruct (decide (fskey p = k)) as [<-|Hne].
    + exists (File c). rewrite lookup_insert_eq. split; [done|].
      destruct n; [done|]. by rewrite Hk in Hnodir.
    + exists n. by rewrite lookup_insert_ne.
  - apply nothing_lost_same_fs. unfold writeFile in Hrun.
    by repeat case_match; simplify_eq.
Qed.

Lemma extractFiles_nothing_lost mapPath entries :
  preserves nothing_lost (extractFiles mapPath entries).
Proof.
  assert (∀ l, preserves nothing_lost (log l))
    by (intros l w; by apply nothing_lost_same_fs).
  assert (∀ p, preserves nothing_lost (ensureFolderExist p))
    by (intros p w; apply nothing_lost_subseteq, ensureFolderExist_subseteq).
  pose proof writeFile_nothing_lost.
  induction entries as [|[relativePath file] entries IH]; simpl; frame.
Qed.

Lemma importMap_rest_nothing_lost relativeFolder mapPath :
  preserves nothing_lost (importMap_rest relativeFolder mapPath).
Proof.
  pose proof extractFiles_nothing_lost.
  assert (∀ p, preserves nothing_lost (loadMapInfoFromPath p)).
  { intros p w. apply nothing_lost_same_fs, loadMapInfoFromPath_keeps_fs. }
  assert (∀ rf, preserves nothing_lost (collect_folder rf))
    by (intros rf w; by apply nothing_lost_same_fs).
  unfold importMap_rest. frame.
Qed.

Lemma importMap_nothing_lost zipPath relativeFolder mapName mapsFolder :
  preserves nothing_lost (importMap zipPath relativeFolder mapName mapsFolder).
Proof.
  intros w. rewrite importMap_unfold.
  pose proof (path_join_nonempty mapsFolder mapName) as Hne.
  set (mapPath := path.join mapsFolder mapName) in *.
  set (l := InfoImporting zipPath relativeFolder mapPath).
  unfold bind at 1, pathExistsSync. cbn [fst snd]. unfold try_catch.
  unfold bind at 1. change (log l w) with (Ok (), (log l w).2). cbv beta iota.
  set (wl := (log l w).2). assert (fs wl = fs w) as Hfl by done.
  destruct (bool_decide (is_Some (node_at (fs w) mapPath))) eqn:Hex; cbn [negb].
  - unfold bind at 1, ret at 1.
    pose proof (importMap_rest_nothing_lost relativeFolder mapPath wl) as Hrest.
    destruct (importMap_rest relativeFolder mapPath wl) as [[a|e] w2]; simpl in *.
    + etrans; [|exact Hrest]. by apply nothing_lost_same_fs.
    + unfold importMap_handler. simpl. rewrite bool_decide_eq_false_2 by done.
      simpl. etrans; [|exact Hrest]. by apply nothing_lost_same_fs.
  - apply bool_decide_eq_false in Hex.
    assert (node_at (fs wl) mapPath = None) as Hnew.
    { rewrite Hfl. by apply eq_None_not_Some. }
    assert (∀ e w2, node_at (fs w2) mapPath = Some Dir →
              fs (importMap_handler false mapPath e w2).2 = fs w2) as Hdir.
    { intros e w2 Hd. unfold importMap_handler. simpl.
      rewrite bool_decide_eq_false_2 by done. simpl.
      unfold bind. by rewrite (unlinkSync_directory _ _ Hd). }
    assert (∀ e w2, node_at (fs w2) mapPath = None →
              fs (importMap_handler false mapPath e w2).2 = fs w2) as Hnone.
    { intros e w2 Hn. unfold importMap_handler. simpl.
      rewrite bool_decide_eq_false_2 by done. simpl.
      unfold bind, unlinkSync. by rewrite Hn. }
    unfold bind at 1.
    pose proof (mkdir_recursive_subseteq mapPath wl) as Hmk.
    destruct (mkdir_recursive mapPath wl) as [[[]|e1] w1] eqn:Hrun; simpl in Hmk.
    + assert (node_at (fs w1) mapPath = Some Dir) as Hd1.
      { unfold mkdir_recursive in Hrun. rewrite Hnew in Hrun.
        destruct (mkdirp _ (fs wl)) as [m|] eqn:Hm; [|done].
        injection Hrun as <-. simpl. by apply mkdirp_dirs in Hm as [_ Hd]. }
      pose proof (importMap_rest_nothing_lost relativeFolder mapPath w1) as Hrest.
      pose proof (importMap_rest_keeps_dirs relativeFolder mapPath w1) as Hkeep.
      destruct (importMap_rest relativeFolder mapPath w1) as [[a|e] w2];
        simpl in *.
      * etrans; [|exact Hrest]. apply nothing_lost_subseteq. exact Hmk.
      * etrans; [|apply nothing_lost_same_fs, Hdir; by apply Hkeep].
        etrans; [|exact Hrest]. apply nothing_lost_subseteq. exact Hmk.
    + assert (w1 = wl) as ->.
      { unfold mkdir_recursive in Hrun. by repeat case_match; simplify_eq. }
      apply nothing_lost_same_fs. by rewrite Hnone.
Qed.

Lemma importZip_nothing_lost mapsFolder zi :
  preserves nothing_lost (importZip mapsFolder zi).
Proof.
  pose proof importMap_nothing_lost.
  assert (∀ p, preserves nothing_lost (loadArchive p)).
  { intros p w. apply nothing_lost_same_fs, loadArchive_frame. }
  assert (∀ l, preserves nothing_lost (log l))
    by (intros l w; by apply nothing_lost_same_fs).
  assert (preserves nothing_lost incr_current ∧ preserves nothing_lost next_progress
          ∧ ∀ d, preserves nothing_lost (set_data d)) as (? & ? & ?).
  { unfold incr_current, next_progress, set_data, observer_next.
    repeat split; intros; intros w; apply nothing_lost_same_fs;
      repeat case_match; simpl; done. }
  assert (∀ folders, preserves nothing_lost
            (importFolders (zi_path zi) mapsFolder folders)).
  { induction folders as [|f folders IH]; simpl; frame. }
  unfold importZip. frame.
Qed.

Lemma importZips_nothing_lost mapsFolder zips :
  preserves nothing_lost (importZips mapsFolder zips).
Proof.
  pose proof importZip_nothing_lost.
  induction zips as [|zi zips IH]; simpl; frame.
Qed.

Lemma getMapsFolderPath_subseteq version w :
  fs w ⊆ fs (getMapsFolderPath version w).2.
Proof.
  destruct version as [v|]; [done|].
  unfold getMapsFolderPath, bind, pathExist, pathExistsSync. cbn [fst snd].
  set (p := path.join_list _).
  destruct (bool_decide (is_Some (node_at (fs w) p))); cbn [negb]; [done|].
  pose proof (ensureFolderExist_subseteq p w) as Hsub.
  by destruct (ensureFolderExist p w) as [[[]|e] w1].
Qed.

(** X13 (importMaps). An import never removes a file or a folder from
    the disk and never turns a file into a folder or a folder into a
    file, whatever unit fails on the way: every file and every folder
    that was there is still there afterwards; only the content of files
    can change.  The clean-up of a failed unit is an [unlinkSync] of a
    destination that did not exist when the unit started: by then it is
    a folder, on which [unlinkSync] fails, or it is still missing.  (On
    a real disk a destination can also be a symbolic link that leads
    nowhere, which the clean-up does remove; the disk of the model holds
    files and folders only, and the statement is about them.) *)
Theorem importMaps_loses_nothing
    (zipPaths : list string) (version : option BSVersion) (w : world)
    (k : string) (n : node) :
  fs w !! k = Some n →
  ∃ n', fs (importMaps zipPaths version w) !! k = Some n' ∧ is_dir n' = is_dir n.
Proof.
  revert k n. change (nothing_lost w (importMaps zipPaths version w)).
  unfold importMaps.
  etrans; [|apply nothing_lost_same_fs, subscribe_fs].
  etrans; [apply (nothing_lost_same_fs w (fresh_observer w)); done|].
  generalize (fresh_observer w). change (preserves nothing_lost
                                          (handleZipPaths zipPaths version)).
  pose proof importZips_nothing_lost.
  assert (∀ zips total, preserves nothing_lost (countMaps zipPaths zips total)).
  { intros zips total w0.
    destruct (countMaps_run zipPaths zips total w0) as (w1 & -> & Hfs & _).
    by apply nothing_lost_same_fs. }
  assert (preserves nothing_lost (getMapsFolderPath version)).
  { intros w0. apply nothing_lost_subseteq, getMapsFolderPath_subseteq. }
  assert (preserves nothing_lost next_progress).
  { unfold next_progress, observer_next. intros w0. apply nothing_lost_same_fs.
    repeat case_match; simpl; done. }
  unfold handleZipPaths. frame. intros w0. by apply nothing_lost_same_fs.
Qed.

(** ** An archive that holds a single map *)

Lemma importZip_single_run
    (mapsFolder : string) (zi : zipInfo) (w : world)
    (total current : nat) (data : option BsmLocalMap) :
  closed w = None →
  progress w = (total, current, data) →
  zi_single zi = true →
  ∃ w',
    importZip mapsFolder zi w = (Ok (), w')
    ∧ closed w' = None
    ∧ match (loadArchive (zi_path zi) w).1 with
      | Ok _ =>
          let outcome :=
            (importMap (zi_path zi) "" (path.basename_ext (zi_path zi) ".zip")
               mapsFolder (incr_current (loadArchive (zi_path zi) w).2).2).1 in
          emitted w' = emitted w ++ [Progression total (S current) (slot outcome)]
          ∧ progress w' = (total, S current, slot outcome)
          ∧ (is_ok outcome = false →
             last (logs w') = Some (ErrCouldNotImport (zi_path zi)))
      | Err _ =>
          emitted w' = emitted w ++ [Progression total current None]
          ∧ progress w' = (total, current, None)
          ∧ last (logs w') = Some (ErrCouldNotImport (zi_path zi))
      end.
Proof.
  intros Hc Hp Hsingle. unfold importZip, try_catch. unfold bind at 1.
  destruct (loadArchive_frame (zi_path zi) w) as (Hc0 & He0 & Hp0 & _).
  destruct (loadArchive (zi_path zi) w) as [[zip|e] w0]; simpl in *.
  2: { unfold bind, log, set_data, next_progress, observer_next. simpl.
       rewrite Hp0, Hp. simpl. rewrite Hc0, Hc. simpl.
       eexists. split; [done|]. simpl. rewrite He0.
       split_and!; try done. by rewrite last_snoc. }
  rewrite <- Hc0 in Hc. rewrite <- Hp0 in Hp. rewrite Hsingle.
  unfold bind at 1. rewrite (incr_current_run _ _ _ _ Hp).
  set (w1 := set_progress _ w0). cbn [snd]. unfold bind at 1.
  pose proof (importMap_silent (zi_path zi) ""
                (path.basename_ext (zi_path zi) ".zip") mapsFolder) as [He Hcl].
  pose proof (importMap_keeps_progress (zi_path zi) ""
                (path.basename_ext (zi_path zi) ".zip") mapsFolder w1) as Hpr.
  specialize (He w1). specialize (Hcl w1). unfold keeps in *.
  destruct (importMap _ _ _ _ w1) as [[localMap|e] w2]; simpl in *.
  - unfold bind, set_data, next_progress, observer_next. simpl.
    rewrite Hpr. simpl. rewrite Hcl, Hc. simpl.
    eexists. split; [done|]. simpl. rewrite He, He0. by split_and!.
  - unfold bind, log, set_data, next_progress, observer_next. simpl.
    rewrite Hpr. simpl. rewrite Hcl, Hc. simpl.
    eexists. split; [done|]. simpl. rewrite He, He0. split_and!; try done.
    intros _. by rewrite last_snoc.
Qed.

(** X14 (handleZipPaths). The turn of a single-map archive never throws
    and pushes exactly one snapshot. When the archive can be read, the
    counter has advanced by one and the snapshot carries the record of the
    unit, or no data when the unit failed; when it cannot be read any more,
    the counter is as it was and the snapshot carries no data. A failure is
    logged, and the archives that follow are processed all the same. *)
Theorem single_map_archive_outcome
    (mapsFolder : string) (zi : zipInfo) (w : world)
    (total current : nat) (data : option BsmLocalMap) :
  closed w = None →
  progress w = (total, current, data) →
  zi_single zi = true →
  ∃ w',
    importZip mapsFolder zi w = (Ok (), w')
    ∧ closed w' = None
    ∧ match (loadArchive (zi_path zi) w).1 with
      | Ok _ =>
          let outcome :=
            (importMap (zi_path zi) "" (path.basename_ext (zi_path zi) ".zip")
               mapsFolder (incr_current (loadArchive (zi_path zi) w).2).2).1 in
          emitted w' = emitted w ++ [Progression total (S current) (slot outcome)]
          ∧ progress w' = (total, S current, slot outcome)
          ∧ (is_ok outcome = false →
             last (logs w') = Some (ErrCouldNotImport (zi_path zi)))
      | Err _ =>
          emitted w' = emitted w ++ [Progression total current None]
          ∧ progress w' = (total, current, None)
          ∧ last (logs w') = Some (ErrCouldNotImport (zi_path zi))
      end.
Proof. apply importZip_single_run. Qed.

(** ** The counter stays below the total *)

Lemma importZip_bound mapsFolder zi w total current data :
  closed w = None →
  progress w = (total, current, data) →
  ∃ current' data',
    progress (importZip mapsFolder zi w).2 = (total, current', data')
    ∧ current' ≤ current + units zi.
Proof.
  intros Hc Hp. unfold units. destruct (zi_single zi) eqn:Hsingle.
  - destruct (importZip_single_run mapsFolder zi w total current data Hc Hp
                Hsingle) as (w' & -> & _ & Hcases).
    simpl. destruct (loadArchive (zi_path zi) w).1.
    + destruct Hcases as (_ & -> & _). eexists _, _. split; [done|lia].
    + destruct Hcases as (_ & -> & _). eexists _, _. split; [done|lia].
  - unfold importZip, try_catch. unfold bind at 1.
    destruct (loadArchive_frame (zi_path zi) w) as (Hc0 & He0 & Hp0 & _).
    destruct (loadArchive (zi_path zi) w) as [[zip|e] w0]; simpl in *.
    2: { unfold bind, log, set_data, next_progress, observer_next. simpl.
         rewrite Hp0, Hp. simpl. rewrite Hc0, Hc. simpl.
         eexists _, _. split; [done|lia]. }
    rewrite <- Hc0 in Hc. rewrite <- Hp0 in Hp. rewrite Hsingle.
    destruct (importFolders_run (zi_path zi) mapsFolder (zi_folders zi)
                w0 total current data Hc Hp)
      as (w' & snaps & data' & -> & _ & Hp' & _).
    simpl. eexists _, _. split; [done|lia].
Qed.

Lemma unlinked_length maps m : length (unlinked maps m) ≤ length maps.
Proof.
  revert m. induction maps as [|p maps IH]; intros m; simpl; [done|].
  case_bool_decide; simpl; [specialize (IH (remove_tree p m))|specialize (IH m)]; lia.
Qed.

Lemma plan_of_units m zipPath zi :
  plan_of m zipPath = Some zi → 0 < units zi ≤ yield m zipPath.
Proof.
  unfold plan_of, yield, units. destruct (archive_of m zipPath) as [zip|]; [|done].
  case_bool_decide as Hlen; [done|]. intros [= <-]. simpl.
  rewrite length_fmap. case_bool_decide; lia.
Qed.

Lemma planned_units m zipPaths :
  sum_list (units <$> omap (plan_of m) zipPaths) ≤ sum_list (yield m <$> zipPaths).
Proof.
  induction zipPaths as [|zipPath zipPaths IH]; simpl; [done|].
  destruct (plan_of m zipPath) as [zi|] eqn:Hplan; simpl.
  - apply plan_of_units in Hplan. apply Nat.add_le_mono; [lia|exact IH].
  - etrans; [exact IH|]. apply Nat.le_add_l.
Qed.

Lemma importZips_bounded mapsFolder zips w total current data :
  closed w = None →
  progress w = (total, current, data) →
  ∃ w' snaps current',
    importZips mapsFolder zips w = (Ok (), w')
    ∧ emits w w' snaps
    ∧ ramp total current current' snaps
    ∧ current' ≤ current + sum_list (units <$> zips).
Proof.
  revert w current data. induction zips as [|zi zips IH]; intros w current data Hc Hp.
  { exists w, [], current. unfold emits. rewrite app_nil_r.
    split_and!; simpl; try done. lia. }
  simpl. unfold bind.
  destruct (importZip_bound mapsFolder zi w total current data Hc Hp)
    as (current1' & data1' & Hp1' & Hle1).
  destruct (importZip_run mapsFolder zi w total current data Hc Hp)
    as (w1 & snaps1 & current1 & data1 & Hr1 & He1 & Hp1 & Hrm1 & _).
  rewrite Hr1 in *. simpl in Hp1'. rewrite Hp1 in Hp1'. injection Hp1' as <- <-.
  destruct (IH w1 current1 data1 (proj1 He1) Hp1)
    as (w' & snaps2 & current' & -> & He2 & Hrm2 & Hle2).
  exists w', (snaps1 ++ snaps2), current'.
  split; [done|]. split; [by eapply emits_trans|].
  split; [by eapply ramp_app|].
  change (sum_list (units <$> zi :: zips))
    with (units zi + sum_list (units <$> zips)).
  etrans; [exact Hle2|]. rewrite Nat.add_assoc. by apply Nat.add_le_mono_r.
Qed.

Lemma handleZipPaths_bounded zipPaths version w s :
  closed w = None →
  s ∈ emitted (handleZipPaths zipPaths version w).2 →
  s ∈ emitted w ∨ snap_count s ≤ snap_total s.
Proof.
  intros Hc. unfold handleZipPaths. unfold bind at 1.
  destruct (countMaps_run zipPaths [] 0 w) as (w1 & -> & Hf1 & He1 & Hc1 & Hl1 & Hw1).
  simpl. case_bool_decide as Ht.
  { simpl. rewrite He1. by left. }
  set (total := sum_list _) in *.
  unfold bind at 1. simpl.
  set (w2 := set_progress (total, 0, None) w1).
  unfold bind at 1.
  destruct (getMapsFolderPath_run version w2)
    as (mapsFolder & w3 & Hg & He3 & Hc3 & _ & Hp3 & Hl3).
  rewrite Hg in *.
  unfold bind at 1, next_progress, observer_next.
  rewrite Hp3. simpl. rewrite Hc3. simpl. rewrite Hc1, Hc.
  match goal with |- context [importZips _ _ ?w4] =>
    destruct (importZips_bounded mapsFolder
                (omap (plan_of (fs w)) zipPaths) w4 total 0 None)
      as (w' & snaps & hi & -> & [Hc' He'] & Hr & Hle) end;
    [done|by simpl|].
  simpl. rewrite He'. simpl. rewrite He3. simpl. rewrite He1.
  rewrite <- app_assoc. intros [Hin|Hin]%elem_of_app; [by left|right].
  pose proof (planned_units (fs w) zipPaths) as Hplan. fold total in Hplan.
  apply elem_of_cons in Hin as [->|Hin]; [simpl; lia|].
  destruct (ramp_bounds _ _ _ _ _ Hr Hin) as [-> ?]. lia.
Qed.

(** X15 (getMaps, deleteMaps, handleZipPaths). In a scan, in a deletion
    by list and in an import, the counter of a snapshot never exceeds its
    total. *)
Theorem progress_never_exceeds_total
    (version : option BSVersion) (maps zipPaths : list string) (w : world) :
  (∀ s, s ∈ emitted (getMaps version w) → snap_count s ≤ snap_total s)
  ∧ (∀ s, s ∈ emitted (deleteMaps maps w) → snap_count s ≤ snap_total s)
  ∧ (∀ s, s ∈ emitted (importMaps zipPaths version w) →
          snap_count s ≤ snap_total s).
Proof.
  split_and!; intros s Hin.
  - destruct (decide (is_Some (node_at (fs (getMapsFolderPath version w).2)
                                 (mapsFolderPath version)))) as [Hex|Hmissing].
    + destruct (getMaps_exact version w Hex) as (Hem & _ & Hsub & _).
      apply sublist_length in Hsub. rewrite length_fmap in Hsub.
      rewrite Hem in Hin. apply elem_of_app in Hin as [Hin|Hin].
      * unfold ticks in Hin. apply list_elem_of_fmap in Hin as (k & -> & Hk).
        apply elem_of_seq in Hk. simpl. lia.
      * apply list_elem_of_singleton in Hin as ->. simpl. lia.
    + destruct (getMaps_missing version w Hmissing) as (Hem & _).
      rewrite Hem in Hin. by apply elem_of_nil in Hin.
  - destruct (deleteMaps_run maps w) as (_ & Hem & _). rewrite Hem in Hin.
    apply list_elem_of_fmap in Hin as (i & -> & Hi). simpl.
    etrans; [apply unlinked_length|]. rewrite length_take. lia.
  - unfold importMaps in Hin. rewrite subscribe_emitted in Hin.
    apply handleZipPaths_bounded in Hin as [Hin|Hle]; [|done|done].
    by apply elem_of_nil in Hin.
Qed.

(** ** Resolving the maps folder *)

(** X16 (getMapsFolderPath). For a version the folder is the version's
    path joined with "Beat Saber_Data/CustomLevels", and the disk is not
    touched, whether the folder exists or not; for the shared pool the
    folder may be created, and nothing else changes. Resolving the folder
    a second time gives the same path and changes nothing. *)
Theorem getMapsFolderPath_idempotent (version : option BSVersion) (w : world) :
  let w1 := (getMapsFolderPath version w).2 in
  (getMapsFolderPath version w).1 = Ok (mapsFolderPath version)
  ∧ getMapsFolderPath version w1 = (Ok (mapsFolderPath version), w1)
  ∧ fs w ⊆ fs w1
  ∧ (∀ v, version = Some v →
          w1 = w
          ∧ mapsFolderPath version
            = path.join (getVersionPath v) "Beat Saber_Data/CustomLevels").
Proof.
  intros w1. split_and!.
  - apply getMapsFolderPath_value.
  - subst w1. destruct version as [v|]; [done|].
    unfold getMapsFolderPath, mapsFolderPath, bind, pathExist, pathExistsSync.
    cbn [fst snd]. set (p := path.join_list _).
    destruct (bool_decide (is_Some (node_at (fs w) p))) eqn:Hex; cbn [negb].
    { unfold ret. cbn [fst snd]. by rewrite Hex. }
    apply bool_decide_eq_false in Hex.
    unfold ensureFolderExist.
    destruct (node_at (fs w) p) as [n|] eqn:Hn; [by destruct Hex|].
    destruct (mkdirp (fskey p) (fs w)) as [m|e] eqn:Hm; cbn [fst snd ret].
    + apply mkdirp_dirs in Hm as [_ Hd].
      assert (node_at (fs (set_fs m w)) p = Some Dir) as Hd' by done.
      rewrite bool_decide_eq_true_2 by (rewrite Hd'; by eexists). done.
    + rewrite Hn. rewrite bool_decide_eq_false_2 by (by intros [? ?]).
      cbn [negb fst snd]. by rewrite Hn, Hm.
  - apply getMapsFolderPath_subseteq.
  - by intros v ->.
Qed.

(** ** What a scan leaves behind *)

Lemma load_result_agrees m c mapPath localMap e :
  load_result m c mapPath = Ok (Some localMap) →
  c !! path.basename mapPath = Some e →
  cache_entry localMap = e.
Proof.
  unfold load_result. intros Hload He. rewrite He in Hload.
  injection Hload as <-. by destruct e.
Qed.

Lemma scan_cache_grows mapsPaths m c : c ⊆ scan_cache mapsPaths m c.
Proof.
  revert c. induction mapsPaths as [|p ps IH]; intros c; simpl; [done|].
  destruct (load_result m c p) as [[localMap|]|e] eqn:Hload; [|apply IH..].
  etrans; [|apply IH]. apply insert_agree_subseteq.
  intros e He. by eapply load_result_agrees.
Qed.

(** X17 (getMaps). A scan deletes and rewrites nothing: every entry of
    the disk is as it was (for a version the disk is exactly as it was; for
    the shared pool the folder of the pool may have been created), and every
    entry of the cache is still there with the same manifest and hash. *)
Theorem getMaps_keeps_disk_and_cache (version : option BSVersion) (w : world) :
  fs w ⊆ fs (getMaps version w)
  ∧ (∀ v, version = Some v → fs (getMaps version w) = fs w)
  ∧ songCache w ⊆ songCache (getMaps version w).
Proof.
  assert (fs (getMaps version w) = fs (getMapsFolderPath version w).2
          ∧ songCache w ⊆ songCache (getMaps version w)) as [Hfs Hc].
  { destruct (decide (is_Some (node_at (fs (getMapsFolderPath version w).2)
                                 (mapsFolderPath version)))) as [Hex|Hmissing].
    - destruct (getMaps_exact version w Hex) as (_ & _ & _ & Hfs & ->).
      split; [done|]. apply scan_cache_grows.
    - destruct (getMaps_missing version w Hmissing) as (_ & _ & Hfs & ->). done. }
  split_and!; [|by intros v ->|done].
  rewrite Hfs. apply getMapsFolderPath_subseteq.
Qed.

(** ** Deleting by hash *)

Lemma removed_elem_of hashs mapsPaths m c p :
  p ∈ removed hashs mapsPaths m c → p ∈ mapsPaths.
Proof.
  revert m c. induction mapsPaths as [|q mapsPaths IH]; intros m c; simpl; [done|].
  destruct (matches hashs m c q).
  - intros [->|Hin]%elem_of_cons; [left|right; by eapply IH].
  - intros Hin. right. by eapply IH.
Qed.

Lemma removed_no_hash mapsPaths m c : removed [] mapsPaths m c = [].
Proof.
  revert m c. induction mapsPaths as [|q mapsPaths IH]; intros m c; simpl; [done|].
  assert (matches [] m c q = false) as ->; [|apply IH].
  unfold matches, hashs_includes. repeat case_match; try done;
    apply bool_decide_eq_false_2, not_elem_of_nil.
Qed.

(** X18 (deleteMapsFromHashs). A deletion by hash creates nothing and
    leaves untouched whatever does not lie inside one of the folders
    installed for the version; with an empty list of hashes it changes
    neither the disk nor the cache. *)
Theorem deleteMapsFromHashs_keeps_the_rest
    (version : BSVersion) (hashs : list string) (w : world) :
  let mapsPaths :=
    list_children is_dir (path.join (getVersionPath version) RELATIVE_MAPS_FOLDER)
                  (fs w) in
  let w' := deleteMapsFromHashs version hashs w in
  fs w' ⊆ fs w
  ∧ (∀ k, (∀ p, p ∈ mapsPaths → is_under (fskey p) k = false) →
          fs w' !! k = fs w !! k)
  ∧ (hashs = [] → fs w' = fs w ∧ songCache w' = songCache w).
Proof.
  intros mapsPaths w'.
  destruct (deleteMapsFromHashs_body version hashs (fresh_observer w))
    as [r wb] eqn:Hbody.
  destruct (deleteMapsFromHashs_body_run version hashs (fresh_observer w) r wb
              eq_refl Hbody) as (snaps & _ & _ & _ & _ & _ & Hfs & Hc).
  cbn [fresh_observer fs songCache] in Hfs, Hc. fold mapsPaths in Hfs, Hc.
  assert (fs w' = fs wb ∧ songCache w' = songCache wb) as [-> ->].
  { subst w'. unfold deleteMapsFromHashs.
    by rewrite subscribe_fs, subscribe_songCache, Hbody. }
  rewrite Hfs, Hc. split_and!.
  - apply foldl_remove_tree_subseteq.
  - intros k Hout. apply foldl_remove_tree_outside.
    intros p Hp. by eapply Hout, removed_elem_of.
  - intros ->. by rewrite removed_no_hash.
Qed.

(** ** The total of an import *)

(** X19 (handleZipPaths). When some archive holds a manifest, the first
    snapshot of an import has [current] at 0 and no data, and every
    snapshot has the same [total]: the number of manifest entries matched
    in all the archives that could be read, counted before anything is
    extracted. *)
Theorem importMaps_total_is_fixed
    (zipPaths : list string) (version : option BSVersion) (w : world) :
  sum_list (yield (fs w) <$> zipPaths) ≠ 0 →
  head (emitted (importMaps zipPaths version w))
  = Some (Progression (sum_list (yield (fs w) <$> zipPaths)) 0 None)
  ∧ ∀ s, s ∈ emitted (importMaps zipPaths version w) →
         snap_total s = sum_list (yield (fs w) <$> zipPaths).
Proof.
  intros Hsome. unfold importMaps. rewrite subscribe_emitted.
  destruct (handleZipPaths_run zipPaths version (fresh_observer w) eq_refl)
    as (r & wb & -> & _ & _ & Hcases). simpl in *.
  destruct Hcases as [(Hnone & _)|(_ & _ & snaps & hi & -> & Hramp & _)]; [done|].
  split; [done|]. intros s [->|Hin]%elem_of_cons; [done|].
  by destruct (ramp_bounds _ _ _ _ _ Hramp Hin).
Qed.

Lemma countMaps_keeps_songCache zipPaths zips total :
  preserves (keeps songCache) (countMaps zipPaths zips total).
Proof.
  assert (∀ p, preserves (keeps songCache) (loadArchive p))
    by (intros p; by apply loadArchive_keeps).
  revert zips total. induction zipPaths as [|zipPath zipPaths IH];
    intros zips total; simpl; frame.
Qed.

(** X20 (handleZipPaths). An import in which no archive holds a manifest
    pushes no snapshot and leaves disk and cache as they were: the archives
    are only read, and the maps folder is not even resolved. *)
Theorem importMaps_without_manifest_changes_nothing
    (zipPaths : list string) (version : option BSVersion) (w : world) :
  sum_list (yield (fs w) <$> zipPaths) = 0 →
  emitted (importMaps zipPaths version w) = []
  ∧ fs (importMaps zipPaths version w) = fs w
  ∧ songCache (importMaps zipPaths version w) = songCache w.
Proof.
  intros Hnone. unfold importMaps.
  rewrite subscribe_emitted, subscribe_fs, subscribe_songCache.
  unfold handleZipPaths. unfold bind.
  pose proof (countMaps_keeps_songCache zipPaths [] 0 (fresh_observer w)) as Hc.
  destruct (countMaps_run zipPaths [] 0 (fresh_observer w))
    as (w1 & Hrun & Hfs & Hem & _).
  rewrite Hrun in *. cbn [fresh_observer fs] in Hfs. simpl in *.
  rewrite bool_decide_eq_true_2 by done. simpl. by rewrite Hem.
Qed.

(** ** What a unit of a multi-map archive writes *)

Lemma substring_all s : String.substring 0 (String.length s) s = s.
Proof. induction s as [|a s IH]; simpl; [done|]. by rewrite IH. Qed.

Lemma substring_app root rel :
  String.substring (String.length root)
    (String.length (root +:+ rel) - String.length root) (root +:+ rel)
  = rel.
Proof.
  induction root as [|a root IH]; simpl.
  - rewrite Nat.sub_0_r. apply substring_all.
  - exact IH.
Qed.

Lemma prefix_app root rel : String.prefix root (root +:+ rel) = true.
Proof.
  induction root as [|a root IH]; simpl; [by destruct rel|].
  by destruct (ascii_dec a a).
Qed.

Lemma set_property_fresh {A} k (v : A) (l : list (string * A)) :
  k ∉ l.*1 → JS.set_property k v l = l ++ [(k, v)].
Proof.
  induction l as [|[k' v'] l IH]; simpl; [done|].
  intros [Hne Hl]%not_elem_of_cons.
  rewrite bool_decide_eq_false_2 by done. by rewrite IH.
Qed.

Lemma foldl_assign {A} (l acc : list (string * A)) :
  NoDup (acc.*1 ++ l.*1) →
  foldl (λ files kf, JS.assign kf.1 kf.2 files) acc l
  = acc ++ filter (λ kf : string * A, kf.1 ≠ "__proto__") l.
Proof.
  revert acc. induction l as [|[k v] l IH]; intros acc Hnodup; simpl.
  { by rewrite app_nil_r. }
  simpl in Hnodup. apply NoDup_app in Hnodup as (Hacc & Hdisj & Hl).
  apply NoDup_cons in Hl as [Hk Hl].
  unfold JS.assign at 2. case_bool_decide as Hproto; simpl.
  - rewrite filter_cons_False by (simpl; by intros []).
    apply IH. apply NoDup_app. split_and!; [done| |done].
    intros k' Hin Hin'. apply (Hdisj k' Hin). by right.
  - rewrite filter_cons_True by done.
    rewrite set_property_fresh by (intros Hin; apply (Hdisj k Hin); left).
    rewrite IH; [by rewrite <- app_assoc|].
    rewrite fmap_app. simpl. rewrite <- app_assoc. simpl.
    apply NoDup_app. split_and!; [done| |by apply NoDup_cons].
    intros k' Hin. by apply Hdisj.
Qed.

Lemma folderAdd_elem_of fuel name z f :
  f ∈ z → f ∈ JSZipModel.folderAdd fuel name z.
Proof.
  revert name z. induction fuel as [|fuel IH]; intros name z Hin; simpl.
  - case_match; [done|]. apply elem_of_app. by left.
  - case_match; [done|]. apply elem_of_app. left.
    case_bool_decide; [done|]. by apply IH.
Qed.

Lemma forEach_elem_of root z f rel :
  f ∈ z → zname f = root +:+ rel → rel ≠ "" →
  (rel, f) ∈ JSZipModel.forEach root z.
Proof.
  intros Hin Hname Hrel. unfold JSZipModel.forEach.
  apply list_elem_of_omap. exists (zname f, f). split.
  - rewrite own_properties_Permutation. unfold JSZipModel.properties.
    apply list_elem_of_fmap. by exists f.
  - simpl. rewrite Hname, substring_app, prefix_app.
    by rewrite bool_decide_eq_false_2 by done.
Qed.

(** X21 (importMap). After a unit of a multi-map archive has been
    imported, each file entry of the archive that lies under the unit's
    folder is on disk under the destination folder, at its path relative
    to the unit's folder and with the entry's content, provided no two
    entries of the unit are extracted to the same path and the relative
    path is not ["__proto__"]: the entries are collected in an object
    literal, on which an assignment to that key stores nothing. *)
Theorem importMap_extracts_the_files_of_the_unit
    (zipPath relativeFolder mapName mapsFolder : string) (w : world)
    (localMap : BsmLocalMap) (file : JSZipObject) (relativePath : string) :
  let mapPath := path.join mapsFolder mapName in
  relativeFolder ≠ "" →
  (importMap zipPath relativeFolder mapName mapsFolder w).1 = Ok localMap →
  NoDup ((λ e : string * JSZipObject, fskey (path.join mapPath e.1))
           <$> unit_entries relativeFolder (archive w)) →
  file ∈ archive w →
  zdir file = false →
  zname file = JSZipModel.forceTrailingSlash relativeFolder +:+ relativePath →
  relativePath ≠ "" →
  relativePath ≠ "__proto__" →
  node_at (fs (importMap zipPath relativeFolder mapName mapsFolder w).2)
    (path.join mapPath relativePath)
  = Some (File (zdata file)).
Proof.
  intros mapPath Hmulti Hok Hnodup Hin Hfile Hname Hrel Hproto.
  destruct (importMap zipPath relativeFolder mapName mapsFolder w)
    as [r w'] eqn:Himp.
  simpl in Hok. subst r.
  destruct (importMap_Ok _ _ _ _ _ _ _ Himp)
    as (w1 & files & wa & wb & loaded & Hmk & Hfiles & Hextract & Hload & _).
  fold mapPath in Hmk, Hextract, Hload.
  assert (archive w1 = archive w) as Harch.
  { destruct (bool_decide (is_Some (node_at (fs w) mapPath))); [by subst|].
    unfold mkdir_recursive in Hmk. by repeat case_match; simplify_eq. }
  rewrite bool_decide_eq_false_2 in Hfiles by done.
  unfold collect_folder in Hfiles. injection Hfiles as <- <-.
  rewrite Harch in Hextract. fold (unit_entries relativeFolder (archive w)) in Hextract.
  rewrite foldl_assign in Hextract; cycle 1.
  { simpl. apply (NoDup_fmap_1 (λ k, fskey (path.join mapPath k))).
    by rewrite <- list_fmap_compose. }
  simpl in Hextract.
  pose proof (loadMapInfoFromPath_keeps_fs mapPath wb) as Hfs.
  rewrite Hload in Hfs. unfold keeps in Hfs. simpl in Hfs.
  unfold node_at, key_node. simpl. rewrite Hfs.
  erewrite (extractFiles_written mapPath _ _ wb relativePath file); try done.
  - rewrite own_properties_Permutation.
    eapply sublist_NoDup; [exact Hnodup|].
    apply fmap_sublist, sublist_filter.
  - rewrite own_properties_Permutation. apply list_elem_of_filter. split; [done|].
    unfold unit_entries.
    apply forEach_elem_of; [|done..]. by apply folderAdd_elem_of.
Qed.

(** An entry named ["__proto__"] below the folder of the unit is not
    extracted: the unit leaves the disk as it would without the entry. *)
Lemma collect_folder_skips_proto relativeFolder w files w' :
  collect_folder relativeFolder w = (Ok files, w') →
  "__proto__" ∉ files.*1.
Proof.
  unfold collect_folder. intros [= <- _].
  generalize (JSZipModel.forEach (JSZipModel.forceTrailingSlash relativeFolder)
                (JSZipModel.folderAdd (String.length relativeFolder) relativeFolder
                   (archive w))).
  intros l.
  assert (∀ acc : list (string * JSZipObject),
            "__proto__" ∉ acc.*1 →
            "__proto__" ∉ (foldl (λ files kf, JS.assign kf.1 kf.2 files) acc l).*1)
    as Hgen; [|apply Hgen; by intros ?%elem_of_nil].
  induction l as [|[k v] l IH]; intros acc Hacc; simpl; [done|].
  apply IH. unfold JS.assign. case_bool_decide as Hk; simpl; [done|].
  clear IH. induction acc as [|[k' v'] acc IHacc]; simpl.
  - intros [?|?%elem_of_nil]%elem_of_cons; [|done]. by apply Hk.
  - simpl in Hacc. apply not_elem_of_cons in Hacc as [Hne Hacc].
    case_bool_decide; simpl.
    + intros [?|?]%elem_of_cons; [by apply Hk|by apply Hacc].
    + intros [?|?]%elem_of_cons; [by apply Hne|by apply IHacc].
Qed.

(** ** The warning for an archive that cannot be read *)

Lemma countMaps_warns zipPaths zips total w zipPath :
  zipPath ∈ zipPaths → archive_of (fs w) zipPath = None →
  WarnCouldNotCount zipPath ∈ logs (countMaps zipPaths zips total w).2.
Proof.
  revert zips total w. induction zipPaths as [|zipPath0 zipPaths IH];
    intros zips total w Hin Hnone.
  { by apply elem_of_nil in Hin. }
  cbn [countMaps]. unfold bind at 1, try_catch. unfold bind at 1.
  pose proof (loadArchive_result zipPath0 w) as Hres.
  destruct (loadArchive_frame zipPath0 w) as (_ & _ & _ & Hf0).
  destruct (loadArchive zipPath0 w) as [r0 w0]. simpl in Hres, Hf0.
  assert (∀ zips1 total1 w1,
            fs w1 = fs w →
            (zipPath = zipPath0 → WarnCouldNotCount zipPath ∈ logs w1) →
            WarnCouldNotCount zipPath ∈ logs (countMaps zipPaths zips1 total1 w1).2)
    as Hrest.
  { intros zips1 total1 w1 Hfs Hhead.
    apply elem_of_cons in Hin as [->|Hin].
    - destruct (countMaps_run zipPaths zips1 total1 w1) as (w' & -> & _ & _ & _ & Hl & _).
      destruct Hl as [l' Hl]. simpl. rewrite Hl. apply elem_of_app. left.
      by apply Hhead.
    - apply IH; [done|]. by rewrite Hfs. }
  destruct r0 as [zip|e].
  - assert (zipPath ≠ zipPath0) as Hne.
    { intros ->. rewrite Hnone in Hres. by destruct Hres. }
    case_bool_decide.
    + unfold bind, log, ret. cbn [fst snd]. apply Hrest; [done|done].
    + unfold ret. apply Hrest; [done|done].
  - unfold bind, log, ret. cbn [fst snd]. apply Hrest; [done|].
    intros ->. simpl. apply elem_of_app. right. left.
Qed.

(** ** A manifest at the root of a multi-map archive *)

Lemma unit_entries_root z :
  (∀ f, f ∈ z → String.prefix "./" (zname f) = false) →
  unit_entries "." z = [].
Proof.
  intros Hnone. apply elem_of_nil_inv. intros [rel f] Hin.
  assert (JSZipModel.forceTrailingSlash "." = "./") as Hslash by (by vm_compute).
  assert (JSZipModel.parentFolder "./" = "") as Hparent by (by vm_compute).
  unfold unit_entries, JSZipModel.forEach in Hin. rewrite Hslash in Hin.
  apply list_elem_of_omap in Hin as ([name f'] & Hin & Hsome).
  rewrite own_properties_Permutation in Hin.
  unfold JSZipModel.properties in Hin.
  apply list_elem_of_fmap in Hin as (f0 & [= -> ->] & Hin).
  simpl in Hsome.
  assert (f0 ∈ z ∨ zname f0 = "./") as [Hz|Hroot].
  { revert Hin. change (String.length ".") with 1. cbn [JSZipModel.folderAdd].
    rewrite Hslash, Hparent.
    destruct (JSZipModel.has_entry "./" z); [intros Hz; by left|].
    rewrite bool_decide_eq_true_2 by done.
    intros [Hz|Hnew%list_elem_of_singleton]%elem_of_app; [by left|right].
    by subst f0. }
  - by rewrite (Hnone f0 Hz), andb_false_r in Hsome.
  - by rewrite Hroot in Hsome.
Qed.

(** X23 (importMap). The unit that [handleZipPaths] plans for a manifest
    at the root of a multi-map archive has "." as its folder and as its
    name. Unless entries of the archive are named with a leading "./", it
    extracts nothing: its destination is the maps folder itself, the disk
    is left as it was, and a record it returns is a record of the maps
    folder, not of the map in the archive. *)
Theorem root_level_unit_extracts_nothing
    (zipPath mapsFolder : string) (w : world) :
  (∀ f, f ∈ archive w → String.prefix "./" (zname f) = false) →
  is_Some (node_at (fs w) (path.join mapsFolder ".")) →
  fs (importMap zipPath "." "." mapsFolder w).2 = fs w
  ∧ ∀ localMap,
      (importMap zipPath "." "." mapsFolder w).1 = Ok localMap →
      map_path localMap = path.join mapsFolder "."
      ∧ ∃ loaded,
          (loadMapInfoFromPath (path.join mapsFolder ".") w).1 = Ok (Some loaded)
          ∧ mapInfo localMap = mapInfo loaded ∧ hash localMap = hash loaded.
Proof.
  intros Hnone Hex.
  pose proof (path_join_nonempty mapsFolder ".") as Hne.
  set (mapPath := path.join mapsFolder ".") in *.
  set (l := InfoImporting zipPath "." mapPath).
  set (wl := (log l w).2).
  set (wa := set_archive (JSZipModel.folderAdd 1 "." (archive w)) wl).
  assert (importMap_rest "." mapPath wl
          = (do localMap <- loadMapInfoFromPath mapPath;
             match localMap with
             | None => throw TypeError
             | Some localMap =>
                 ret {| mapInfo := mapInfo localMap;
                        coverUrl := coverUrl localMap;
                        songUrl := songUrl localMap;
                        hash := hash localMap;
                        map_path := map_path localMap;
                        songDetails := getSongDetails (hash localMap) |}
             end) wa) as Hrest.
  { unfold importMap_rest. unfold bind at 1.
    rewrite bool_decide_eq_false_2 by done. unfold collect_folder.
    change (archive wl) with (archive w).
    change (JSZipModel.forEach (JSZipModel.forceTrailingSlash ".")
              (JSZipModel.folderAdd (String.length ".") "." (archive w)))
      with (unit_entries "." (archive w)).
    rewrite (unit_entries_root _ Hnone). simpl foldl.
    unfold bind at 1. done. }
  assert (importMap zipPath "." "." mapsFolder w
          = try_catch (importMap_rest "." mapPath)
              (importMap_handler true mapPath) wl) as Himp.
  { rewrite importMap_unfold. fold mapPath. unfold bind at 1, pathExistsSync.
    cbn [fst snd]. rewrite bool_decide_eq_true_2 by done. cbn [negb].
    unfold try_catch. unfold bind at 1. fold l.
    change (log l w) with (Ok (), wl). cbv beta iota.
    unfold bind at 1, ret at 1. done. }
  rewrite Himp. unfold try_catch. rewrite Hrest. unfold bind.
  pose proof (loadMapInfoFromPath_result mapPath wa) as Hres.
  pose proof (loadMapInfoFromPath_result mapPath w) as Hres0.
  pose proof (loadMapInfoFromPath_keeps_fs mapPath wa) as Hfs.
  unfold keeps in Hfs. change (fs wa) with (fs w) in *.
  change (songCache wa) with (songCache w) in *. rewrite <- Hres0 in Hres.
  destruct (loadMapInfoFromPath mapPath wa) as [[[loaded|]|e] wb];
    simpl in Hfs, Hres.
  - unfold ret. simpl. split; [done|]. intros localMap [= <-]. simpl.
    pose proof (loadMapInfoFromPath_path mapPath w loaded) as Hpath.
    split; [by apply Hpath|]. by exists loaded.
  - unfold throw, importMap_handler. simpl.
    rewrite bool_decide_eq_false_2 by done. by simpl.
  - unfold importMap_handler. simpl.
    rewrite bool_decide_eq_false_2 by done. by simpl.
Qed.

(** ** The cache and an import *)

(** X24 (importMaps). An import never touches the cache: the maps it
    installs are not added to it, and the entry of a folder it overwrites
    is neither refreshed nor evicted. *)
Theorem importMaps_keeps_the_cache
    (zipPaths : list string) (version : option BSVersion) (w : world) :
  songCache (importMaps zipPaths version w) = songCache w.
Proof.
  unfold importMaps. rewrite subscribe_songCache.
  change (keeps songCache (fresh_observer w)
            (handleZipPaths zipPaths version (fresh_observer w)).2).
  generalize (fresh_observer w).
  change (preserves (keeps songCache) (handleZipPaths zipPaths version)).
  assert (∀ zp rf mn mf, preserves (keeps songCache) (importMap zp rf mn mf))
    by (intros; by apply importMap_keeps).
  assert (∀ p, preserves (keeps songCache) (loadArchive p))
    by (intros p; by apply loadArchive_keeps).
  assert (preserves (keeps songCache) incr_current
          ∧ preserves (keeps songCache) next_progress
          ∧ ∀ d, preserves (keeps songCache) (set_data d)) as (? & ? & ?).
  { unfold incr_current, next_progress, set_data, observer_next.
    repeat split; intros; intros w0; unfold keeps;
      repeat case_match; simpl; done. }
  assert (∀ zp mf folders, preserves (keeps songCache) (importFolders zp mf folders)).
  { intros zp mf folders. induction folders as [|f folders IH]; simpl; frame. }
  assert (∀ mf zi, preserves (keeps songCache) (importZip mf zi)).
  { intros mf zi. unfold importZip. frame. }
  assert (∀ mf zips, preserves (keeps songCache) (importZips mf zips)).
  { intros mf zips. induction zips as [|zi zips IH]; simpl; frame. }
  pose proof countMaps_keeps_songCache.
  assert (preserves (keeps songCache) (getMapsFolderPath version)).
  { intros w0. destruct (getMapsFolderPath_run version w0)
      as (folder & w1 & -> & _ & _ & Hc & _). done. }
  unfold handleZipPaths. frame.
Qed.

(** X25 (getMapInfoFromHash). When the cache holds the hash asked for
    under one folder name, a plain name, and a folder of that name exists
    in the maps folder of the version, the lookup answers from the cache:
    nothing is read or listed, the world is left as it was, and the record
    is built from the cached manifest, whatever the folder holds now. *)
Theorem getMapInfoFromHash_answers_from_cache
    (hash_ : string) (version : BSVersion) (w : world)
    (dirname : string) (c : CachedMapInfo) :
  let mapPath := path.join (mapsFolderPath (Some version)) dirname in
  songCache w !! dirname = Some c →
  cached_hash c = hash_ →
  (∀ d c', songCache w !! d = Some c' → cached_hash c' = hash_ → d = dirname) →
  dirname ≠ "" →
  path.basename mapPath = dirname →
  is_Some (node_at (fs w) mapPath) →
  getMapInfoFromHash hash_ (Some version) w
  = (Ok (Some (getUrlsAndReturn (cached_mapInfo c) hash_ mapPath)), w).
Proof.
  intros mapPath Hc Hhash Hunique Hname Hbase Hex.
  assert (songCache_getMapInfoFromHash hash_ w = (Ok (Some dirname), w)) as Hlookup.
  { unfold songCache_getMapInfoFromHash. do 2 f_equal.
    destruct (filter _ _) as [|[d c'] l] eqn:Hfilter.
    - assert ((dirname, c) ∈ filter
                (λ kv : string * CachedMapInfo, cached_hash kv.2 = hash_)
                (map_to_list (songCache w))) as Hin.
      { apply list_elem_of_filter. split; [done|]. by apply elem_of_map_to_list. }
      rewrite Hfilter in Hin. by apply elem_of_nil in Hin.
    - simpl. f_equal.
      assert ((d, c') ∈ filter
                (λ kv : string * CachedMapInfo, cached_hash kv.2 = hash_)
                (map_to_list (songCache w))) as Hin.
      { rewrite Hfilter. left. }
      apply list_elem_of_filter in Hin as [Hh Hin].
      apply elem_of_map_to_list in Hin. by apply (Hunique d c'). }
  pose proof (path_join_nonempty (getVersionPath version) RELATIVE_MAPS_FOLDER) as Hf.
  pose proof (path_join_nonempty (mapsFolderPath (Some version)) dirname) as Hp.
  unfold getMapInfoFromHash. unfold bind at 1. cbn [getMapsFolderPath ret].
  unfold bind at 1. rewrite Hlookup.
  change (path.join (getVersionPath version) RELATIVE_MAPS_FOLDER)
    with (mapsFolderPath (Some version)) in *.
  rewrite (bool_decide_eq_false_2 (mapsFolderPath (Some version) = "")) by done.
  rewrite (bool_decide_eq_false_2 (dirname = "")) by done.
  cbn [negb andb]. fold mapPath.
  unfold bind at 1. rewrite (bool_decide_eq_false_2 (mapPath = "")) by done.
  unfold pathExistsSync. rewrite bool_decide_eq_true_2 by done.
  rewrite (loadMapInfoFromPath_hit mapPath c) by (by rewrite Hbase).
  by rewrite Hhash.
Qed.

(** ** What a unit leaves alone *)

Lemma extractFiles_keeps_other_files mapPath entries w k c :
  (∀ e, e ∈ entries → fskey (path.join mapPath e.1) ≠ k) →
  fs w !! k = Some (File c) →
  fs (extractFiles mapPath entries w).2 !! k = Some (File c).
Proof.
  revert w. induction entries as [|[relativePath file] entries IH];
    intros w Hother Hfile; [done|].
  cbn [extractFiles]. unfold bind at 1.
  assert (fskey (path.join mapPath relativePath) ≠ k) as Hne.
  { apply (Hother (relativePath, file)). left. }
  assert (∀ e, e ∈ entries → fskey (path.join mapPath e.1) ≠ k) as Hrest.
  { intros e He. apply Hother. by right. }
  destruct (zdir file).
  - pose proof (ensureFolderExist_subseteq (path.join mapPath relativePath) w) as Hsub.
    destruct (ensureFolderExist _ w) as [[[]|e] w1]; simpl in Hsub.
    + apply IH; [done|]. by eapply lookup_weaken.
    + simpl. by eapply lookup_weaken.
  - unfold bind at 1. change (log ?l w) with (Ok (), (log l w).2). cbv beta iota.
    set (wl := (log _ w).2).
    destruct (writeFile (path.join mapPath relativePath) (zdata file) wl)
      as [[[]|e] w1] eqn:Hwrite.
    + apply writeFile_Ok in Hwrite as [Hfs _]. apply IH; [done|].
      rewrite Hfs. by rewrite lookup_insert_ne.
    + simpl. unfold writeFile in Hwrite. by repeat case_match; simplify_eq.
Qed.

Lemma foldl_assign_elem_of {A} (l acc : list (string * A)) e :
  e ∈ foldl (λ files kf, JS.assign kf.1 kf.2 files) acc l →
  e ∈ acc ∨ e ∈ l.
Proof.
  revert acc. induction l as [|[k v] l IH]; intros acc; simpl; [by left|].
  intros [Hin|Hin]%IH; [|right; by right].
  assert (∀ acc0, e ∈ JS.set_property k v acc0 → e = (k, v) ∨ e ∈ acc0) as Hset.
  { clear. induction acc0 as [|[k' v'] acc0 IH]; simpl.
    - intros ->%list_elem_of_singleton. by left.
    - case_bool_decide.
      + intros [->|Hin]%elem_of_cons; [by left|right; by right].
      + intros [->|Hin]%elem_of_cons; [right; left|].
        destruct (IH Hin) as [->|Hin']; [by left|right; by right]. }
  unfold JS.assign in Hin. case_bool_decide; [by left|].
  destruct (Hset acc Hin) as [->|Hacc]; [right; left|by left].
Qed.

(** The disk a unit leaves is the disk its [try] block leaves: the
    handler removes nothing. *)
Lemma importMap_handler_keeps_fs zipPath relativeFolder mapName mapsFolder w :
  let mapPath := path.join mapsFolder mapName in
  let existing := bool_decide (is_Some (node_at (fs w) mapPath)) in
  fs (importMap zipPath relativeFolder mapName mapsFolder w).2
  = fs ((log (InfoImporting zipPath relativeFolder mapPath);;
         (if negb existing then mkdir_recursive mapPath else ret ());;
         importMap_rest relativeFolder mapPath) w).2.
Proof.
  intros mapPath existing. rewrite importMap_unfold.
  pose proof (path_join_nonempty mapsFolder mapName) as Hne.
  fold mapPath in Hne |- *.
  set (l := InfoImporting zipPath relativeFolder mapPath).
  unfold bind at 1, pathExistsSync. cbn [fst snd]. fold existing. unfold try_catch.
  set (body := (log l;; (if negb existing then mkdir_recursive mapPath else ret ());;
                importMap_rest relativeFolder mapPath)).
  destruct (body w) as [[a|e] w2] eqn:Hbody; [done|]. cbn [fst snd].
  unfold importMap_handler. rewrite (bool_decide_eq_false_2 (mapPath = "")) by done.
  destruct existing eqn:Hex; cbn [negb andb]; [done|].
  apply bool_decide_eq_false in Hex.
  assert (node_at (fs w) mapPath = None) as Hnew by (by apply eq_None_not_Some).
  assert (node_at (fs w2) mapPath = None ∨ node_at (fs w2) mapPath = Some Dir)
    as [Hn|Hd].
  { subst body. unfold bind at 1 in Hbody.
    change (log l w) with (Ok (), (log l w).2) in Hbody. cbv beta iota in Hbody.
    set (wl := (log l w).2) in *. cbn [negb] in Hbody. unfold bind at 1 in Hbody.
    destruct (mkdir_recursive mapPath wl) as [[[]|e1] w1] eqn:Hrun.
    - right. assert (node_at (fs w1) mapPath = Some Dir) as Hd1.
      { unfold mkdir_recursive in Hrun. change (fs wl) with (fs w) in Hrun.
        rewrite Hnew in Hrun.
        destruct (mkdirp _ (fs w)) as [m|] eqn:Hm; [|done].
        injection Hrun as <-. simpl. by apply mkdirp_dirs in Hm as [_ Hd]. }
      pose proof (importMap_rest_keeps_dirs relativeFolder mapPath w1) as Hkeep.
      rewrite Hbody in Hkeep. by apply Hkeep.
    - left. injection Hbody as _ <-.
      unfold mkdir_recursive in Hrun. change (fs wl) with (fs w) in Hrun.
      rewrite Hnew in Hrun. destruct (mkdirp _ (fs w)); [done|].
      by injection Hrun as _ <-. }
  - unfold bind, unlinkSync. by rewrite Hn.
  - unfold bind. by rewrite (unlinkSync_directory _ _ Hd).
Qed.

(** X26 (importMap). A unit changes the content of no file but those its
    entries are extracted to: a file of the disk that is the destination
    of no entry in the scope of the unit is there afterwards with the same
    content, whether the unit succeeds or fails. *)
Theorem importMap_only_rewrites_its_destinations
    (zipPath relativeFolder mapName mapsFolder : string) (w : world)
    (k c : string) :
  let mapPath := path.join mapsFolder mapName in
  fs w !! k = Some (File c) →
  (∀ e, e ∈ unit_scope relativeFolder (archive w) →
        fskey (path.join mapPath e.1) ≠ k) →
  fs (importMap zipPath relativeFolder mapName mapsFolder w).2 !! k
  = Some (File c).
Proof.
  intros mapPath Hfile Hother. rewrite importMap_handler_keeps_fs. fold mapPath.
  set (l := InfoImporting zipPath relativeFolder mapPath).
  unfold bind at 1. change (log l w) with (Ok (), (log l w).2). cbv beta iota.
  set (wl := (log l w).2).
  assert (∃ w1, fs w1 !! k = Some (File c) ∧ archive w1 = archive w
                ∧ ((if negb (bool_decide (is_Some (node_at (fs w) mapPath)))
                    then mkdir_recursive mapPath else ret ()) wl = (Ok (), w1)
                   ∨ ∃ e, (if negb (bool_decide (is_Some (node_at (fs w) mapPath)))
                           then mkdir_recursive mapPath else ret ()) wl = (Err e, w1)))
    as (w1 & Hfile1 & Harch & Hmk).
  { destruct (negb _).
    - pose proof (mkdir_recursive_subseteq mapPath wl) as Hsub.
      assert (archive (mkdir_recursive mapPath wl).2 = archive w) as Ha.
      { unfold mkdir_recursive. by repeat case_match. }
      destruct (mkdir_recursive mapPath wl) as [[[]|e] w1]; exists w1;
        (split_and!; [by eapply lookup_weaken|done|]); [by left|right; by eexists].
    - exists wl. split_and!; [done..|by left]. }
  unfold bind at 1.
  destruct Hmk as [->|[e ->]]; [|done].
  assert (∀ files wa,
            fs wa = fs w1 →
            (∀ e, e ∈ files → e ∈ unit_scope relativeFolder (archive w)) →
            fs ((extractFiles mapPath (JS.own_properties files);;
                 do localMap <- loadMapInfoFromPath mapPath;
                 match localMap with
                 | None => throw TypeError
                 | Some localMap =>
                     ret {| mapInfo := mapInfo localMap;
                            coverUrl := coverUrl localMap;
                            songUrl := songUrl localMap;
                            hash := hash localMap;
                            map_path := map_path localMap;
                            songDetails := getSongDetails (hash localMap) |}
                 end) wa).2 !! k = Some (File c)) as Htail.
  { intros files wa Hfa Hscope. unfold bind at 1.
    pose proof (extractFiles_keeps_other_files mapPath (JS.own_properties files)
                  wa k c) as Hextract.
    assert (fs (extractFiles mapPath (JS.own_properties files) wa).2 !! k
            = Some (File c)) as Hb.
    { apply Hextract; [|by rewrite Hfa].
      intros e He. apply Hother, Hscope.
      by rewrite own_properties_Permutation in He. }
    clear Hextract.
    destruct (extractFiles mapPath (JS.own_properties files) wa) as [[[]|e] wb];
      simpl in Hb; [|done].
    unfold bind.
    pose proof (loadMapInfoFromPath_keeps_fs mapPath wb) as Hfs. unfold keeps in Hfs.
    destruct (loadMapInfoFromPath mapPath wb) as [[[loaded|]|e] wc]; simpl in *;
      by rewrite Hfs. }
  unfold importMap_rest. unfold bind at 1. unfold unit_scope in Htail.
  case_bool_decide as Hrf; cbv beta iota zeta.
  - apply Htail; [done|]. by rewrite Harch.
  - unfold collect_folder. cbv beta iota zeta. apply Htail; [done|].
    rewrite Harch. fold (unit_entries relativeFolder (archive w)).
    intros e [Hin|Hin]%foldl_assign_elem_of; [|done].
    by apply elem_of_nil in Hin.
Qed.

(** ** The destination folder of a unit *)







(** ** Archives that cannot be read *)

Lemma alike_refl w : alike w w.
Proof. by unfold alike. Qed.

Lemma alike_trans w1 w2 w3 : alike w1 w2 → alike w2 w3 → alike w1 w3.
Proof. unfold alike. intros (?&?&?&?&?&?) (?&?&?&?&?&?). split_and!; congruence. Qed.

Lemma blind_ret {A} (a : A) : blind (ret a).
Proof. by intros w1 w2 Ha. Qed.

Lemma blind_throw {A} (e : error) : blind (@throw A e).
Proof. by intros w1 w2 Ha. Qed.

Lemma blind_bind {A B} (m : M A) (k : A → M B) :
  blind m → (∀ a, blind (k a)) → blind (bind m k).
Proof.
  intros Hm Hk w1 w2 Ha. unfold bind. destruct (Hm w1 w2 Ha) as [Hr Hw].
  destruct (m w1) as [[a1|e1] w1'], (m w2) as [[a2|e2] w2']; simpl in *;
    simplify_eq; [by apply Hk|done].
Qed.

Lemma blind_try_catch {A} (m : M A) (h : error → M A) :
  blind m → (∀ e, blind (h e)) → blind (try_catch m h).
Proof.
  intros Hm Hh w1 w2 Ha. unfold try_catch. destruct (Hm w1 w2 Ha) as [Hr Hw].
  destruct (m w1) as [[a1|e1] w1'], (m w2) as [[a2|e2] w2']; simpl in *;
    simplify_eq; [done|by apply Hh].
Qed.

Lemma blind_try_finally {A} (m : M A) (f : M unit) :
  blind m → blind f → blind (try_finally m f).
Proof.
  intros Hm Hf w1 w2 Ha. unfold try_finally. destruct (Hm w1 w2 Ha) as [Hr Hw].
  destruct (m w1) as [r1 w1'], (m w2) as [r2 w2']; simpl in *.
  split; [done|]. by apply Hf.
Qed.

Lemma blind_tryit {A} (m : M A) : blind m → blind (tryit m).
Proof.
  intros Hm w1 w2 Ha. unfold tryit. destruct (Hm w1 w2 Ha) as [Hr Hw].
  by destruct (m w1) as [[a1|e1] w1'], (m w2) as [[a2|e2] w2']; simpl in *;
    simplify_eq.
Qed.

(** The primitive operations are settled by unfolding, on worlds taken
    apart. *)
Ltac blind_prim :=
  let Ha := fresh "Ha" in
  intros [? ? ? ? ? ? ? ?] [? ? ? ? ? ? ? ?] Ha;
  unfold alike in Ha; simpl in Ha;
  destruct Ha as (? & ? & ? & ? & ? & ?); subst;
  unfold alike, incr_current, set_data, next_progress, set_progress, set_archive;
  autounfold with prims; simpl;
  repeat case_match; simplify_eq/=; done.

Ltac blind_step :=
  first
    [ assumption
    | solve [ auto 2 with nocore ]
    | apply blind_ret
    | apply blind_throw
    | apply blind_bind; [ | intros ?]
    | apply blind_try_catch; [ | intros ?]
    | apply blind_try_finally
    | apply blind_tryit
    | match goal with
      | |- blind (match ?x with _ => _ end) => destruct x
      | |- blind (let '(_, _) := ?x in _) => destruct x
      end
    | solve [ blind_prim ] ].

Ltac blinds := repeat blind_step.

Lemma log_blind l : blind (log l).
Proof. blind_prim. Qed.

Lemma readFile_blind p : blind (readFile p).
Proof. blind_prim. Qed.

Lemma hashDifficulties_blind mapPath diffs shasum :
  blind (hashDifficulties mapPath diffs shasum).
Proof.
  pose proof readFile_blind.
  revert shasum. induction diffs as [|diff diffs IH]; intros shasum; simpl.
  - blinds.
  - unfold hashFile, createReadStream. blinds.
Qed.

Lemma computeMapHash_blind mapPath raw : blind (computeMapHash mapPath raw).
Proof.
  pose proof hashDifficulties_blind. pose proof log_blind.
  unfold computeMapHash. blinds.
Qed.

Lemma loadMapInfoFromPath_blind mapPath : blind (loadMapInfoFromPath mapPath).
Proof.
  pose proof readFile_blind. pose proof computeMapHash_blind.
  pose proof log_blind.
  assert (∀ p, blind (getFilesInFolder p)) by (intros p; blind_prim).
  assert (∀ p, blind (getMapInfoFromDirname p)) by (intros p; blind_prim).
  unfold loadMapInfoFromPath. blinds.
Qed.

Lemma extractFiles_blind mapPath entries : blind (extractFiles mapPath entries).
Proof.
  pose proof log_blind.
  assert (∀ p, blind (ensureFolderExist p)) by (intros p; blind_prim).
  assert (∀ p c, blind (writeFile p c)) by (intros p c; blind_prim).
  induction entries as [|[relativePath file] entries IH]; simpl; blinds.
Qed.

Lemma loadArchive_blind zipPath : blind (loadArchive zipPath).
Proof. pose proof readFile_blind. unfold loadArchive. blinds. Qed.

Lemma importMap_blind zipPath relativeFolder mapName mapsFolder :
  blind (importMap zipPath relativeFolder mapName mapsFolder).
Proof.
  pose proof log_blind. pose proof extractFiles_blind.
  pose proof loadMapInfoFromPath_blind.
  assert (∀ p, blind (pathExistsSync p)) by (intros p; blind_prim).
  assert (∀ p, blind (mkdir_recursive p)) by (intros p; blind_prim).
  assert (∀ p, blind (unlinkSync p)) by (intros p; blind_prim).
  assert (∀ p, blind (collect_folder p)).
  { intros p. unfold collect_folder. blind_prim. }
  unfold importMap. blinds.
Qed.

Lemma importFolders_blind zipPath mapsFolder folders :
  blind (importFolders zipPath mapsFolder folders).
Proof.
  pose proof log_blind. pose proof importMap_blind.
  assert (blind incr_current) by blind_prim.
  assert (blind next_progress) by blind_prim.
  assert (∀ d, blind (set_data d)) by (intros d; blind_prim).
  induction folders as [|relativeFolder folders IH]; simpl; blinds.
Qed.

Lemma importZips_blind mapsFolder zips : blind (importZips mapsFolder zips).
Proof.
  pose proof log_blind. pose proof importMap_blind.
  pose proof importFolders_blind. pose proof loadArchive_blind.
  assert (blind incr_current) by blind_prim.
  assert (blind next_progress) by blind_prim.
  assert (∀ d, blind (set_data d)) by (intros d; blind_prim).
  induction zips as [|zi zips IH]; simpl; [blinds|].
  unfold importZip. blinds.
Qed.

Lemma getMapsFolderPath_blind version : blind (getMapsFolderPath version).
Proof.
  assert (∀ p, blind (pathExist p)) by (intros p; blind_prim).
  assert (∀ p, blind (ensureFolderExist p)) by (intros p; blind_prim).
  unfold getMapsFolderPath. blinds.
Qed.

(** One turn of the planning loop. *)
Lemma countMaps_cons zipPath zipPaths zips total w :
  countMaps (zipPath :: zipPaths) zips total w
  = (do '(zips1, total1) <- countMaps [zipPath] zips total;
     countMaps zipPaths zips1 total1) w.
Proof.
  cbn [countMaps]. unfold bind, ret.
  by destruct (try_catch _ _ w) as [[[zips1 total1]|e] w1].
Qed.

Lemma countMaps_blind zipPaths zips total : blind (countMaps zipPaths zips total).
Proof.
  pose proof log_blind. pose proof loadArchive_blind.
  revert zips total. induction zipPaths as [|zipPath zipPaths IH];
    intros zips total; simpl; blinds.
Qed.

(** A load that fails leaves the world as it was, the count of reads
    apart. *)
Lemma loadArchive_Err_alike zipPath w e :
  (loadArchive zipPath w).1 = Err e → alike (loadArchive zipPath w).2 w.
Proof.
  unfold loadArchive, bind, readFile, throw.
  destruct (node_at (fs w) zipPath) as [[c|]|]; simpl; try done.
  by destruct (JSZip_loadAsync c).
Qed.

(** Planning with an archive that cannot be read in the list gives the
    plan it gives without it. *)
Lemma countMaps_skip zipPath zipPaths zips total w1 w2 r w1' :
  archive_of (fs w1) zipPath = None →
  alike w1 w2 →
  countMaps zipPaths zips total w1 = (r, w1') →
  ∃ w2',
    countMaps (filter (λ p, p ≠ zipPath) zipPaths) zips total w2 = (r, w2')
    ∧ alike w1' w2'.
Proof.
  revert zips total w1 w2. induction zipPaths as [|p zipPaths IH];
    intros zips total w1 w2 Hnone Ha.
  { intros [= <- <-]. by exists w2. }
  destruct (decide (p = zipPath)) as [->|Hne].
  - rewrite filter_cons_False by (by intros Hp).
    cbn [countMaps]. unfold bind at 1, try_catch. unfold bind at 1.
    pose proof (loadArchive_result zipPath w1) as Hres. rewrite Hnone in Hres.
    destruct Hres as [e He].
    pose proof (loadArchive_Err_alike zipPath w1 e He) as Hal.
    destruct (loadArchive_frame zipPath w1) as (_ & _ & _ & Hf).
    destruct (loadArchive zipPath w1) as [r0 w0]. simpl in He, Hal, Hf. subst r0.
    unfold bind, log, ret. cbn [fst snd]. apply IH.
    + simpl. by rewrite Hf.
    + eapply alike_trans; [|exact Ha]. eapply alike_trans; [|exact Hal].
      by unfold alike.
  - rewrite filter_cons_True by done. rewrite !countMaps_cons. unfold bind.
    destruct (countMaps_blind [p] zips total w1 w2 Ha) as [Hr Hw].
    destruct (countMaps_run [p] zips total w1) as (w' & Hrun & Hf & _).
    rewrite Hrun in Hr, Hw |- *. cbn [fst snd] in Hr, Hw.
    destruct (countMaps [p] zips total w2) as [r2 w2'].
    cbn [fst snd] in Hr, Hw. subst r2.
    apply IH; [by rewrite Hf|done].
Qed.

Lemma handleZipPaths_rest_blind version zips total :
  blind (if bool_decide (total = 0)
         then throw (CustomError (Some "invalid-zip"))
         else
           (λ w, (Ok (), set_progress (total, 0, None) w));;
           do mapsFolder <- getMapsFolderPath version;
           next_progress;;
           importZips mapsFolder zips).
Proof.
  pose proof getMapsFolderPath_blind. pose proof importZips_blind.
  assert (blind next_progress) by blind_prim.
  blinds.
Qed.

Lemma handleZipPaths_skip zipPath zipPaths version w1 w2 r w1' :
  archive_of (fs w1) zipPath = None →
  alike w1 w2 →
  handleZipPaths zipPaths version w1 = (r, w1') →
  ∃ w2',
    handleZipPaths (filter (λ p, p ≠ zipPath) zipPaths) version w2 = (r, w2')
    ∧ alike w1' w2'.
Proof.
  intros Hnone Ha Hrun. unfold handleZipPaths in Hrun |- *.
  unfold bind at 1 in Hrun. unfold bind at 1.
  destruct (countMaps zipPaths [] 0 w1) as [rc wc] eqn:Hc.
  destruct (countMaps_skip _ _ _ _ _ _ _ _ Hnone Ha Hc) as (wc2 & -> & Hac).
  destruct rc as [[zips total]|e].
  2: { injection Hrun as <- <-. by exists wc2. }
  destruct (handleZipPaths_rest_blind version zips total wc wc2 Hac) as [Hr Hw].
  rewrite Hrun in Hr, Hw. simpl in Hr, Hw.
  match type of Hr with _ = (?m).1 => destruct m as [r2 w2'] end.
  simpl in Hr, Hw. subst r2. by exists w2'.
Qed.

Lemma importMaps_warns zipPaths version w zipPath :
  zipPath ∈ zipPaths →
  archive_of (fs w) zipPath = None →
  WarnCouldNotCount zipPath ∈ logs (importMaps zipPaths version w).
Proof.
  intros Hin Hnone.
  unfold importMaps. rewrite subscribe_logs.
  pose proof (countMaps_warns zipPaths [] 0 (fresh_observer w) zipPath Hin Hnone)
    as Hwarn.
  unfold handleZipPaths. unfold bind at 1.
  destruct (countMaps_run zipPaths [] 0 (fresh_observer w)) as (w1 & Hrun & _).
  rewrite Hrun in *. simpl in Hwarn. simpl.
  case_bool_decide; [done|].
  unfold bind at 1. cbn [fst snd].
  set (w2 := set_progress _ w1).
  unfold bind at 1.
  destruct (getMapsFolderPath_run version w2)
    as (mapsFolder & w3 & Hg & He3 & Hc3 & _ & Hp3 & Hl3).
  rewrite Hg. unfold bind at 1.
  assert (∃ w4, next_progress w3 = (Ok (), w4) ∧ logs w4 = logs w3)
    as (w4 & -> & Hl4).
  { unfold next_progress, observer_next. destruct (progress w3) as [[t c] d].
    destruct (closed w3); by eexists. }
  assert (∀ zips w5, logs_grow w5 (importZips mapsFolder zips w5).2) as Hgrow.
  { clear. intros zips. induction zips as [|zi zips IH]; intros w5.
    - simpl. by unfold logs_grow.
    - simpl. unfold bind.
      pose proof (importZip_logs_grow mapsFolder zi w5) as Hl.
      destruct (importZip mapsFolder zi w5) as [[[]|e] w6]; simpl in *; [|done].
      etrans; [exact Hl|]. apply IH. }
  match goal with |- _ ∈ logs (importZips _ ?zips _).2 =>
    destruct (Hgrow zips w4) as [l' ->] end.
  rewrite Hl4, Hl3. simpl. apply elem_of_app. by left.
Qed.

(** X22 (importMaps, handleZipPaths). An archive of the list that cannot
    be read, or that is no zip archive, does not fail the import and does
    not change it: the warning that its maps could not be counted is in
    the log, and the import pushes the same snapshots, ends in the same
    way and leaves the same disk and the same cache as the import of the
    list without that archive. *)
Theorem importMaps_skips_unreadable_archive
    (zipPaths : list string) (version : option BSVersion) (w : world)
    (zipPath : string) :
  zipPath ∈ zipPaths →
  archive_of (fs w) zipPath = None →
  let others := filter (λ p, p ≠ zipPath) zipPaths in
  WarnCouldNotCount zipPath ∈ logs (importMaps zipPaths version w)
  ∧ emitted (importMaps zipPaths version w) = emitted (importMaps others version w)
  ∧ closed (importMaps zipPaths version w) = closed (importMaps others version w)
  ∧ fs (importMaps zipPaths version w) = fs (importMaps others version w)
  ∧ songCache (importMaps zipPaths version w)
    = songCache (importMaps others version w).
Proof.
  intros Hin Hnone others. split; [by apply importMaps_warns|].
  subst others. unfold importMaps, subscribe.
  destruct (handleZipPaths zipPaths version (fresh_observer w)) as [r wb] eqn:Hrun.
  destruct (handleZipPaths_skip zipPath zipPaths version (fresh_observer w)
              (fresh_observer w) r wb Hnone (alike_refl _) Hrun)
    as (wb2 & -> & (Hf & Hs & He & Hc & _ & _)).
  unfold observer_close. destruct r as [[]|e]; rewrite Hc;
    destruct (closed wb2) eqn:Hc2; simpl; rewrite ?Hc, ?Hc2; simpl;
    by rewrite ?Hf, ?Hs, ?He, ?Hc, ?Hc2.
Qed.

End Properties.

(** * The service at work on the demonstration disk *)

Section Concrete.

Import Demo.

Example manifest_pattern :
  JSZipModel.INFO_DAT_REGEX_test "Info.dat" = true
  ∧ JSZipModel.INFO_DAT_REGEX_test "Pack/A/info.dat" = true
  ∧ JSZipModel.INFO_DAT_REGEX_test "Pack/A/INFO.DAT" = false
  ∧ JSZipModel.INFO_DAT_REGEX_test "Pack/A/MyInfo.dat" = false
  ∧ JSZipModel.INFO_DAT_REGEX_test "Pack/A/Info.dat.bak" = false.
Proof. by vm_compute. Qed.

Example manifests_of_Pack_zip :
  zname <$> infoDatFiles Pack_zip
  = ["Pack/A/Info.dat"; "Pack/B/Info.dat"; "Pack/C/info.dat"]
  ∧ plan_of disk "/downloads/Pack.zip" = Some Pack_plan
  ∧ plan_of disk "/downloads/Empty.zip" = None
  ∧ plan_of disk "/nope.zip" = None.
Proof. by vm_compute. Qed.

Example scan_version :
  snap_count <$> emitted (getMaps (Some "1.29.1") w0) = [1; 1]
  ∧ snap_maps <$> emitted (getMaps (Some "1.29.1") w0) = [[]; [SongA]]
  ∧ closed (getMaps (Some "1.29.1") w0) = Some Completed.
Proof. by vm_compute. Qed.

Example basename_zip : path.basename_ext "/tmp/dl/MyMap.zip" ".zip" = "MyMap".
Proof. reflexivity. Qed.
Example basename_only_ext : path.basename_ext "/tmp/.zip" ".zip" = ".zip".
Proof. reflexivity. Qed.
Example basename_trailing : path.basename "/a/b//" = "b".
Proof. reflexivity. Qed.
Example dirname_nested : path.dirname "Pack/Song A/Info.dat" = "Pack/Song A".
Proof. reflexivity. Qed.
Example dirname_root_entry : path.dirname "Info.dat" = ".".
Proof. reflexivity. Qed.
Example join_plain : path.join "/bs/CustomLevels" "MyMap" = "/bs/CustomLevels/MyMap".
Proof. reflexivity. Qed.
Example join_dot : path.join "/bs/CustomLevels" "." = "/bs/CustomLevels".
Proof. reflexivity. Qed.
Example join_dir_entry : path.join "/bs/CustomLevels/MyMap" "sub/" = "/bs/CustomLevels/MyMap/sub/".
Proof. reflexivity. Qed.
Example join_dotdot : path.join "/bs/CustomLevels/MyMap" "../x.dat" = "/bs/CustomLevels/x.dat".
Proof. reflexivity. Qed.

Example RELATIVE_MAPS_FOLDER_value :
  RELATIVE_MAPS_FOLDER = "Beat Saber_Data/CustomLevels".
Proof. reflexivity. Qed.

Example innermost_folder_of_nested_manifest :
  path.basename (path.dirname "Pack/Song A/Info.dat") = "Song A".
Proof. reflexivity. Qed.

(** C1. The archive Broken.zip holds one map whose Info.dat does not
    parse. Its destination folder does not exist beforehand and is
    created by the import; when the load of the extracted folder fails,
    the handler calls [unlinkSync] on the folder, which raises EISDIR in
    place of the error being handled and removes nothing: the folder and
    the files extracted into it are still on the disk. *)
Theorem importMap_failure_leaves_new_folder :
  node_at (fs (set_archive Broken_zip w0)) (path.join levels "Broken") = None
  ∧ (importMap "/downloads/Broken.zip" "" "Broken" levels
       (set_archive Broken_zip w0)).1
    = Err (SystemError "EISDIR")
  ∧ node_at (fs (importMap "/downloads/Broken.zip" "" "Broken" levels
                   (set_archive Broken_zip w0)).2) (path.join levels "Broken")
    = Some Dir
  ∧ node_at (fs (importMap "/downloads/Broken.zip" "" "Broken" levels
                   (set_archive Broken_zip w0)).2)
      (path.join levels "Broken/Info.dat")
    = Some (File "not a manifest")
  ∧ node_at (fs (importMaps ["/downloads/Broken.zip"] (Some "1.29.1") w0))
      (path.join levels "Broken")
    = Some Dir.
Proof. by vm_compute. Qed.

(** The same import into a folder that exists beforehand only warns. *)
Example importMap_failure_keeps_existing_folder :
  let w := set_fs (<[path.join levels "Broken" := Dir]> disk)
             (set_archive Broken_zip w0) in
  (importMap "/downloads/Broken.zip" "" "Broken" levels w).1
  = Err (CustomError (Some "cannot-parse-map-info"))
  ∧ node_at (fs (importMap "/downloads/Broken.zip" "" "Broken" levels w).2)
      (path.join levels "Broken")
    = Some Dir
  ∧ last (logs (importMap "/downloads/Broken.zip" "" "Broken" levels w).2)
    = Some (WarnCouldBeBroken (path.join levels "Broken")).
Proof. by vm_compute. Qed.

(** The folder SongA and its copy under /backup hash alike. *)
Lemma computeMapHash_deterministic_witness :
  (∀ mapInfo f,
     parseMapInfoDat "manifest:easy" = Some mapInfo →
     f ∈ referenced (difficulties mapInfo) →
     read_result (node_at (fs w0) (path.join (levels +:+ "/SongA") f))
     = read_result (node_at (fs w0) (path.join "/backup/Copy" f)))
  ∧ ((computeMapHash (levels +:+ "/SongA") "manifest:easy" w0).1
     = digest_of "manifest:easy"
         (λ f, read_result (node_at (fs w0) (path.join (levels +:+ "/SongA") f)))
     ∧ (computeMapHash (levels +:+ "/SongA") "manifest:easy" w0).1
       = (computeMapHash "/backup/Copy" "manifest:easy" w0).1
     ∧ (computeMapHash (levels +:+ "/SongA") "manifest:easy"
          (computeMapHash (levels +:+ "/SongA") "manifest:easy" w0).2).1
       = (computeMapHash (levels +:+ "/SongA") "manifest:easy" w0).1).
Proof.
  assert (∀ mapInfo f,
     parseMapInfoDat "manifest:easy" = Some mapInfo →
     f ∈ referenced (difficulties mapInfo) →
     read_result (node_at (fs w0) (path.join (levels +:+ "/SongA") f))
     = read_result (node_at (fs w0) (path.join "/backup/Copy" f))) as Hsame.
  { intros mapInfo f Hparse Hf. vm_compute in Hparse. injection Hparse as <-.
    vm_compute in Hf. apply list_elem_of_singleton in Hf. subst f.
    vm_compute. reflexivity. }
  split; [exact Hsame|].
  apply (computeMapHash_deterministic "manifest:easy" (levels +:+ "/SongA")
           "/backup/Copy" w0 w0 Hsame).
Defined.

Example computeMapHash_SongA :
  (computeMapHash (levels +:+ "/SongA") "manifest:easy" w0).1
  = Ok "sha1(manifest:easyaaa)".
Proof. by vm_compute. Qed.

(** C3. The folder Notes holds a readme and no info.dat. On a cache
    miss the load does not return [null]: [find] yields [undefined],
    which is not [null], and reading the file at [undefined] raises a
    [TypeError]. *)
Theorem loadMapInfoFromPath_non_asset_folder_raises :
  songCache w0 !! path.basename (levels +:+ "/Notes") = None
  ∧ list_children is_file (levels +:+ "/Notes") (fs w0)
    = [levels +:+ "/Notes/readme.txt"]
  ∧ (loadMapInfoFromPath (levels +:+ "/Notes") w0).1 = Err TypeError.
Proof. by vm_compute. Qed.

(** C4 does not hold as stated: the load of SongA succeeds on a miss,
    yet the cache has no entry for SongA afterwards, and a second load
    reads the disk again. *)
Lemma loadMapInfoFromPath_does_not_fill_cache :
  songCache w0 !! path.basename (levels +:+ "/SongA") = None
  ∧ (loadMapInfoFromPath (levels +:+ "/SongA") w0).1 = Ok (Some SongA)
  ∧ ¬ (songCache (loadMapInfoFromPath (levels +:+ "/SongA") w0).2
         !! path.basename (levels +:+ "/SongA")
       = Some (cache_entry SongA))
  ∧ ¬ (reads (loadMapInfoFromPath (levels +:+ "/SongA")
                (loadMapInfoFromPath (levels +:+ "/SongA") w0).2).2
       = reads (loadMapInfoFromPath (levels +:+ "/SongA") w0).2).
Proof.
  split; [by vm_compute|]. split; [by vm_compute|].
  split; intros Hsaid; by vm_compute in Hsaid.
Qed.

(** After a scan of version 1.29.1, a folder named SongA anywhere is
    answered from the cache. *)
Lemma getMaps_populates_cache_witness :
  BsmLocalMapsProgress 2 1 [SongA] ∈ emitted (getMaps (Some "1.29.1") w0)
  ∧ SongA ∈ snap_maps (BsmLocalMapsProgress 2 1 [SongA])
  ∧ path.basename "/elsewhere/SongA" = path.basename (map_path SongA)
  ∧ ((∀ w p, songCache (loadMapInfoFromPath p w).2 = songCache w)
     ∧ songCache (getMaps (Some "1.29.1") w0) !! path.basename "/elsewhere/SongA"
       = Some (cache_entry SongA)
     ∧ ∃ again,
         loadMapInfoFromPath "/elsewhere/SongA" (getMaps (Some "1.29.1") w0)
         = (Ok (Some again), getMaps (Some "1.29.1") w0)
         ∧ mapInfo again = mapInfo SongA
         ∧ hash again = hash SongA).
Proof.
  assert (BsmLocalMapsProgress 2 1 [SongA] ∈ emitted (getMaps (Some "1.29.1") w0))
    as Hs.
  { vm_compute. right. left. }
  assert (SongA ∈ snap_maps (BsmLocalMapsProgress 2 1 [SongA])) as Hm.
  { simpl. left. }
  assert (path.basename "/elsewhere/SongA" = path.basename (map_path SongA)) as Hb.
  { vm_compute. reflexivity. }
  split; [exact Hs|]. split; [exact Hm|]. split; [exact Hb|].
  apply (getMaps_populates_cache (Some "1.29.1") w0 _ SongA "/elsewhere/SongA"
           Hs Hm Hb).
Defined.

(** C6 does not hold as stated: two hashes are requested, one of them is
    the hash of SongA, the other matches nothing. The stream completes
    with [current] at 1 and [total] at 2; SongA is gone, Notes is not. *)
Lemma deleteMapsFromHashs_current_below_total :
  closed (deleteMapsFromHashs "1.29.1" ["sha1(manifest:easyaaa)"; "nope"] w0)
  = Some Completed
  ∧ last (emitted (deleteMapsFromHashs "1.29.1"
                     ["sha1(manifest:easyaaa)"; "nope"] w0))
    = Some (Progression 2 1 None)
  ∧ ¬ (∀ s, last (emitted (deleteMapsFromHashs "1.29.1"
                             ["sha1(manifest:easyaaa)"; "nope"] w0)) = Some s →
            snap_count s = snap_total s)
  ∧ node_at (fs (deleteMapsFromHashs "1.29.1"
                   ["sha1(manifest:easyaaa)"; "nope"] w0)) (levels +:+ "/SongA")
    = None
  ∧ node_at (fs (deleteMapsFromHashs "1.29.1"
                   ["sha1(manifest:easyaaa)"; "nope"] w0)) (levels +:+ "/Notes")
    = Some Dir.
Proof.
  split; [by vm_compute|]. split; [by vm_compute|].
  split; [|split; by vm_compute].
  intros Hsaid. specialize (Hsaid (Progression 2 1 None)).
  assert (1 = 2) as Habs; [|done].
  apply Hsaid. by vm_compute.
Qed.

(** The same request on the same disk: SongA is the one folder removed,
    under a hash of its own, and the hash that matches nothing keeps the
    count below the number of requested hashes. *)
Lemma deleteMapsFromHashs_counts_removed_folders_witness :
  NoDup (removed_hashs ["sha1(manifest:easyaaa)"; "nope"]
           (list_children is_dir
              (path.join (getVersionPath "1.29.1") RELATIVE_MAPS_FOLDER) (fs w0))
           (fs w0) (songCache w0))
  ∧ "nope" ∈ ["sha1(manifest:easyaaa)"; "nope"]
  ∧ ("nope" ∉ removed_hashs ["sha1(manifest:easyaaa)"; "nope"]
                (list_children is_dir
                   (path.join (getVersionPath "1.29.1") RELATIVE_MAPS_FOLDER) (fs w0))
                (fs w0) (songCache w0))
  ∧ length (removed ["sha1(manifest:easyaaa)"; "nope"]
              (list_children is_dir
                 (path.join (getVersionPath "1.29.1") RELATIVE_MAPS_FOLDER) (fs w0))
              (fs w0) (songCache w0))
    < length ["sha1(manifest:easyaaa)"; "nope"].
Proof.
  assert (NoDup (removed_hashs ["sha1(manifest:easyaaa)"; "nope"]
                   (list_children is_dir
                      (path.join (getVersionPath "1.29.1") RELATIVE_MAPS_FOLDER)
                      (fs w0))
                   (fs w0) (songCache w0))) as Hnodup.
  { apply (bool_decide_unpack _). by vm_compute. }
  assert ("nope" ∈ ["sha1(manifest:easyaaa)"; "nope"]) as Hreq.
  { apply list_elem_of_further, list_elem_of_here. }
  assert ("nope" ∉ removed_hashs ["sha1(manifest:easyaaa)"; "nope"]
                     (list_children is_dir
                        (path.join (getVersionPath "1.29.1") RELATIVE_MAPS_FOLDER)
                        (fs w0))
                     (fs w0) (songCache w0)) as Hnot.
  { apply (bool_decide_unpack _). by vm_compute. }
  split; [exact Hnodup|]. split; [exact Hreq|]. split; [exact Hnot|].
  destruct (deleteMapsFromHashs_counts_removed_folders "1.29.1"
              ["sha1(manifest:easyaaa)"; "nope"] w0)
    as (_ & _ & _ & _ & _ & Hbound & _).
  destruct (Hbound Hnodup) as [_ Hbelow]. exact (Hbelow "nope" Hreq Hnot).
Defined.

(** Pack.zip holds three maps; the second one does not parse. *)
Lemma multi_map_archive_units_are_independent_witness :
  closed importing = None
  ∧ progress importing = (3, 0, None)
  ∧ zi_single Pack_plan = false
  ∧ (loadArchive (zi_path Pack_plan) importing).1 = Ok Pack_zip
  ∧ ∃ w' snaps,
      importZip levels Pack_plan importing = (Ok (), w')
      ∧ emitted w' = emitted importing ++ snaps
      ∧ length snaps = length (zi_folders Pack_plan)
      ∧ ∀ i relativeFolder,
          zi_folders Pack_plan !! i = Some relativeFolder →
          let outcome :=
            (importMap (zi_path Pack_plan) relativeFolder
               (path.basename relativeFolder) levels
               (unit_world (zi_path Pack_plan) levels (zi_folders Pack_plan) i
                  (loadArchive (zi_path Pack_plan) importing).2)).1 in
          snaps !! i = Some (Progression 3 (0 + S i) (slot outcome))
          ∧ (is_ok outcome = false →
             snaps !! i = Some (Progression 3 (0 + S i) None)).
Proof.
  assert ((loadArchive (zi_path Pack_plan) importing).1 = Ok Pack_zip) as Hload.
  { vm_compute. reflexivity. }
  split; [reflexivity|]. split; [reflexivity|]. split; [reflexivity|].
  split; [exact Hload|].
  apply (multi_map_archive_units_are_independent levels Pack_plan Pack_zip
           importing 3 0 None eq_refl eq_refl eq_refl Hload).
Defined.

Example import_Pack_zip :
  snap_count <$> emitted (importMaps ["/downloads/Pack.zip"] (Some "1.29.1") w0)
  = [0; 1; 2; 3]
  ∧ (λ s, map_path <$> snap_data s)
      <$> emitted (importMaps ["/downloads/Pack.zip"] (Some "1.29.1") w0)
    = [None; Some (levels +:+ "/A"); None; Some (levels +:+ "/C")]
  ∧ closed (importMaps ["/downloads/Pack.zip"] (Some "1.29.1") w0)
    = Some Completed.
Proof. by vm_compute. Qed.

Example import_MyMap_zip :
  emitted (importMaps ["/downloads/MyMap.zip"] (Some "1.29.1") w0)
  = [Progression 1 0 None; Progression 1 1 (Some MyMap)]
  ∧ map_path MyMap = path.join levels (path.basename_ext "/downloads/MyMap.zip" ".zip")
  ∧ path.basename (map_path MyMap) = "MyMap"
  ∧ hash MyMap ≠ "".
Proof. by vm_compute. Qed.

Example import_without_any_manifest :
  closed (importMaps ["/downloads/Empty.zip"; "/nope.zip"] (Some "1.29.1") w0)
  = Some (Errored (CustomError (Some "invalid-zip")))
  ∧ emitted (importMaps ["/downloads/Empty.zip"; "/nope.zip"] (Some "1.29.1") w0)
    = [].
Proof. by vm_compute. Qed.

(** Version 1.0.0 has no maps folder on the demonstration disk. *)
Lemma getMaps_missing_folder_witness :
  node_at (fs w0) (path.join (getVersionPath "1.0.0") RELATIVE_MAPS_FOLDER) = None
  ∧ emitted (getMaps (Some "1.0.0") w0) = []
  ∧ closed (getMaps (Some "1.0.0") w0) = Some Completed.
Proof.
  assert (node_at (fs w0) (path.join (getVersionPath "1.0.0") RELATIVE_MAPS_FOLDER)
          = None) as Hno.
  { vm_compute. reflexivity. }
  split; [exact Hno|]. apply (getMaps_missing_folder "1.0.0" w0 Hno).
Defined.

(** ** The additional properties on the demonstration disk *)

(** The scan of version 1.29.1: SongA loads, Notes does not. *)
Lemma getMaps_stream_witness :
  is_Some (node_at (fs (getMapsFolderPath (Some "1.29.1") w0).2)
             (mapsFolderPath (Some "1.29.1")))
  ∧ emitted (getMaps (Some "1.29.1") w0)
    = [BsmLocalMapsProgress 2 1 []; BsmLocalMapsProgress 2 1 [SongA]]
  ∧ closed (getMaps (Some "1.29.1") w0) = Some Completed.
Proof.
  assert (is_Some (node_at (fs (getMapsFolderPath (Some "1.29.1") w0).2)
                     (mapsFolderPath (Some "1.29.1")))) as Hex.
  { vm_compute. by eexists. }
  split; [exact Hex|].
  destruct (getMaps_stream (Some "1.29.1") w0 Hex) as (Hem & Hcl & _).
  split; [|exact Hcl]. rewrite Hem. by vm_compute.
Defined.

Example deleteMaps_twice_listed :
  emitted (deleteMaps [levels +:+ "/SongA"; levels +:+ "/Gone"; levels +:+ "/SongA"] w0)
  = [DeleteMapsProgress 3 1; DeleteMapsProgress 3 1; DeleteMapsProgress 3 1].
Proof. by vm_compute. Qed.

(** A folder that is gone from the disk while the cache still knows it. *)
Lemma deleteMaps_missing_folders_keep_cache_witness :
  (∀ p, p ∈ [levels +:+ "/MyMap"] → node_at (fs w_stale) p = None)
  ∧ fs (deleteMaps [levels +:+ "/MyMap"] w_stale) = fs w_stale
  ∧ songCache (deleteMaps [levels +:+ "/MyMap"] w_stale) = songCache w_stale
  ∧ emitted (deleteMaps [levels +:+ "/MyMap"] w_stale)
    = replicate (length [levels +:+ "/MyMap"])
        (DeleteMapsProgress (length [levels +:+ "/MyMap"]) 0).
Proof.
  assert (∀ p, p ∈ [levels +:+ "/MyMap"] → node_at (fs w_stale) p = None) as Habs.
  { intros p ->%list_elem_of_singleton. by vm_compute. }
  split; [exact Habs|].
  apply (deleteMaps_missing_folders_keep_cache [levels +:+ "/MyMap"] w_stale Habs).
Defined.

Lemma deleteMaps_idempotent_witness :
  (∀ p, p ∈ [levels +:+ "/SongA"; levels +:+ "/Notes"] → is_root (fskey p) = false)
  ∧ fs (deleteMaps [levels +:+ "/SongA"; levels +:+ "/Notes"]
          (deleteMaps [levels +:+ "/SongA"; levels +:+ "/Notes"] w0))
    = fs (deleteMaps [levels +:+ "/SongA"; levels +:+ "/Notes"] w0)
  ∧ songCache (deleteMaps [levels +:+ "/SongA"; levels +:+ "/Notes"]
                 (deleteMaps [levels +:+ "/SongA"; levels +:+ "/Notes"] w0))
    = songCache (deleteMaps [levels +:+ "/SongA"; levels +:+ "/Notes"] w0)
  ∧ emitted (deleteMaps [levels +:+ "/SongA"; levels +:+ "/Notes"]
               (deleteMaps [levels +:+ "/SongA"; levels +:+ "/Notes"] w0))
    = replicate (length [levels +:+ "/SongA"; levels +:+ "/Notes"])
        (DeleteMapsProgress (length [levels +:+ "/SongA"; levels +:+ "/Notes"]) 0).
Proof.
  assert (∀ p, p ∈ [levels +:+ "/SongA"; levels +:+ "/Notes"] →
               is_root (fskey p) = false) as Hroot.
  { intros p [->|[->|Hp]%elem_of_cons]%elem_of_cons; [by vm_compute..|].
    by apply elem_of_nil in Hp. }
  split; [exact Hroot|].
  apply (deleteMaps_idempotent [levels +:+ "/SongA"; levels +:+ "/Notes"] w0 Hroot).
Defined.

Lemma deleteMaps_counts_every_folder_witness :
  (∀ p, p ∈ [levels +:+ "/SongA"; levels +:+ "/Notes"] → is_Some (node_at (fs w0) p))
  ∧ ForallOrdPairs (λ p q, is_under (fskey p) (fskey q) = false)
      [levels +:+ "/SongA"; levels +:+ "/Notes"]
  ∧ emitted (deleteMaps [levels +:+ "/SongA"; levels +:+ "/Notes"] w0)
    = DeleteMapsProgress (length [levels +:+ "/SongA"; levels +:+ "/Notes"])
        <$> seq 1 (length [levels +:+ "/SongA"; levels +:+ "/Notes"]).
Proof.
  assert (∀ p, p ∈ [levels +:+ "/SongA"; levels +:+ "/Notes"] →
               is_Some (node_at (fs w0) p)) as Hex.
  { intros p [->|[->|Hp]%elem_of_cons]%elem_of_cons;
      [vm_compute; by eexists..|].
    by apply elem_of_nil in Hp. }
  assert (ForallOrdPairs (λ p q, is_under (fskey p) (fskey q) = false)
            [levels +:+ "/SongA"; levels +:+ "/Notes"]) as Hpairs.
  { repeat constructor. }
  split; [exact Hex|]. split; [exact Hpairs|].
  apply (deleteMaps_counts_every_folder _ w0 Hex Hpairs).
Defined.

(** A missing beatmap file: the hash computation passes the read error on. *)
Example computeMapHash_missing_file :
  (computeMapHash (levels +:+ "/Notes") "manifest:easy" w0).1
  = Err (SystemError "ENOENT").
Proof. by vm_compute. Qed.

Lemma loadMapInfoFromPath_record_witness :
  (loadMapInfoFromPath (levels +:+ "/SongA") w0).1 = Ok (Some SongA)
  ∧ ∃ localMap,
      Some SongA = Some localMap
      ∧ map_path localMap = levels +:+ "/SongA"
      ∧ coverUrl localMap
        = pathToFileURL
            (path.join (levels +:+ "/SongA") (coverImageFilename (mapInfo localMap)))
      ∧ songUrl localMap
        = pathToFileURL
            (path.join (levels +:+ "/SongA") (songFilename (mapInfo localMap)))
      ∧ songDetails localMap = getSongDetails (hash localMap).
Proof.
  assert ((loadMapInfoFromPath (levels +:+ "/SongA") w0).1 = Ok (Some SongA)) as Hload.
  { by vm_compute. }
  split; [exact Hload|].
  apply (loadMapInfoFromPath_record (levels +:+ "/SongA") w0 (Some SongA) Hload).
Defined.

(** The cache knows the hash of SongA under the folder name SongA. *)
Lemma getMapInfoFromHash_returns_requested_hash_witness :
  (∀ dirname c,
     songCache w_scanned !! dirname = Some c →
     cached_hash c = "sha1(manifest:easyaaa)" →
     path.basename (path.join (mapsFolderPath (Some "1.29.1")) dirname) = dirname)
  ∧ ∃ o,
      (getMapInfoFromHash "sha1(manifest:easyaaa)" (Some "1.29.1") w_scanned).1 = Ok o
      ∧ ∀ localMap, o = Some localMap → hash localMap = "sha1(manifest:easyaaa)".
Proof.
  assert (∀ dirname c,
            songCache w_scanned !! dirname = Some c →
            cached_hash c = "sha1(manifest:easyaaa)" →
            path.basename (path.join (mapsFolderPath (Some "1.29.1")) dirname)
            = dirname) as Hkeys.
  { intros dirname c Hc _. change (songCache w_scanned) with scanned_cache in Hc.
    unfold scanned_cache in Hc. apply lookup_singleton_Some in Hc as [<- _].
    by vm_compute. }
  split; [exact Hkeys|].
  apply (getMapInfoFromHash_returns_requested_hash _ _ w_scanned Hkeys).
Defined.

Example getMapInfoFromHash_from_cache :
  getMapInfoFromHash "sha1(manifest:easyaaa)" (Some "1.29.1") w_scanned
  = (Ok (Some SongA), w_scanned).
Proof. by vm_compute. Qed.

(** The same cache, and the folder SongA on disk. *)
Lemma getMapInfoFromHash_finds_installed_map_witness :
  (∀ dirname c,
     songCache w_scanned !! dirname = Some c →
     cached_hash c = "sha1(manifest:easyaaa)" →
     path.basename (path.join (mapsFolderPath (Some "1.29.1")) dirname) = dirname)
  ∧ levels +:+ "/SongA"
      ∈ list_children is_dir (mapsFolderPath (Some "1.29.1"))
          (fs (getMapsFolderPath (Some "1.29.1") w_scanned).2)
  ∧ load_result (fs (getMapsFolderPath (Some "1.29.1") w_scanned).2)
      (songCache w_scanned) (levels +:+ "/SongA")
    = Ok (Some SongA)
  ∧ hash SongA = "sha1(manifest:easyaaa)"
  ∧ ∃ found,
      (getMapInfoFromHash "sha1(manifest:easyaaa)" (Some "1.29.1") w_scanned).1
      = Ok (Some found)
      ∧ hash found = "sha1(manifest:easyaaa)".
Proof.
  assert (∀ dirname c,
            songCache w_scanned !! dirname = Some c →
            cached_hash c = "sha1(manifest:easyaaa)" →
            path.basename (path.join (mapsFolderPath (Some "1.29.1")) dirname)
            = dirname) as Hkeys.
  { intros dirname c Hc _. change (songCache w_scanned) with scanned_cache in Hc.
    unfold scanned_cache in Hc. apply lookup_singleton_Some in Hc as [<- _].
    by vm_compute. }
  assert (levels +:+ "/SongA"
            ∈ list_children is_dir (mapsFolderPath (Some "1.29.1"))
                (fs (getMapsFolderPath (Some "1.29.1") w_scanned).2)) as Hin.
  { apply (bool_decide_unpack _). by vm_compute. }
  assert (load_result (fs (getMapsFolderPath (Some "1.29.1") w_scanned).2)
            (songCache w_scanned) (levels +:+ "/SongA")
          = Ok (Some SongA)) as Hload.
  { by vm_compute. }
  split; [exact Hkeys|]. split; [exact Hin|]. split; [exact Hload|].
  split; [reflexivity|].
  apply (getMapInfoFromHash_finds_installed_map "sha1(manifest:easyaaa)"
           (Some "1.29.1") w_scanned (levels +:+ "/SongA") SongA Hkeys Hin Hload
           eq_refl).
Defined.

(** With an empty cache the folder is searched. *)
Example getMapInfoFromHash_by_search :
  (getMapInfoFromHash "sha1(manifest:easyaaa)" (Some "1.29.1") w0).1
  = Ok (Some SongA).
Proof. by vm_compute. Qed.

Example getMapInfoFromHash_unknown :
  (getMapInfoFromHash "nope" (Some "1.29.1") w0).1 = Ok None.
Proof. by vm_compute. Qed.

(** MyMap.zip holds the manifest "two"; the cache still holds "easy" and
    an old hash for the folder name MyMap, and that is what comes back. *)
Lemma importMap_returns_cached_entry_witness :
  songCache w_stale !! path.basename (path.join levels "MyMap") = Some stale
  ∧ (importMap "/downloads/MyMap.zip" "" "MyMap" levels w_stale).1 = Ok MyMap_stale
  ∧ mapInfo MyMap_stale = cached_mapInfo stale
  ∧ hash MyMap_stale = cached_hash stale
  ∧ songCache (importMap "/downloads/MyMap.zip" "" "MyMap" levels w_stale).2
    = songCache w_stale.
Proof.
  assert (songCache w_stale !! path.basename (path.join levels "MyMap") = Some stale)
    as Hc by (by vm_compute).
  assert ((importMap "/downloads/MyMap.zip" "" "MyMap" levels w_stale).1
          = Ok MyMap_stale) as Hok by (by vm_compute).
  split; [exact Hc|]. split; [exact Hok|].
  apply (importMap_returns_cached_entry _ _ _ _ w_stale stale MyMap_stale Hc Hok).
Defined.

Lemma importMap_extracts_every_file_witness :
  (importMap "/downloads/MyMap.zip" "" "MyMap" levels (set_archive MyMap_zip w0)).1
  = Ok MyMap
  ∧ NoDup ((λ f, fskey (path.join (path.join levels "MyMap") (zname f)))
             <$> archive (set_archive MyMap_zip w0))
  ∧ entry "Lights.dat" "l" ∈ archive (set_archive MyMap_zip w0)
  ∧ zdir (entry "Lights.dat" "l") = false
  ∧ node_at (fs (importMap "/downloads/MyMap.zip" "" "MyMap" levels
                   (set_archive MyMap_zip w0)).2)
      (path.join (path.join levels "MyMap") (zname (entry "Lights.dat" "l")))
    = Some (File (zdata (entry "Lights.dat" "l"))).
Proof.
  assert ((importMap "/downloads/MyMap.zip" "" "MyMap" levels
             (set_archive MyMap_zip w0)).1 = Ok MyMap) as Hok by (by vm_compute).
  assert (NoDup ((λ f, fskey (path.join (path.join levels "MyMap") (zname f)))
                   <$> archive (set_archive MyMap_zip w0))) as Hnodup.
  { apply (bool_decide_unpack _). by vm_compute. }
  assert (entry "Lights.dat" "l" ∈ archive (set_archive MyMap_zip w0)) as Hin.
  { simpl. unfold MyMap_zip. do 2 apply list_elem_of_further. apply list_elem_of_here. }
  split; [exact Hok|]. split; [exact Hnodup|]. split; [exact Hin|].
  split; [reflexivity|].
  apply (importMap_extracts_every_file "/downloads/MyMap.zip" "MyMap" levels
           (set_archive MyMap_zip w0) MyMap (entry "Lights.dat" "l")
           Hok Hnodup Hin eq_refl).
Defined.

(** The import of Broken.zip fails; SongA is untouched. *)
Lemma importMaps_loses_nothing_witness :
  fs w0 !! (levels +:+ "/SongA/Info.dat") = Some (File "manifest:easy")
  ∧ ∃ n',
      fs (importMaps ["/downloads/Broken.zip"] (Some "1.29.1") w0)
        !! (levels +:+ "/SongA/Info.dat") = Some n'
      ∧ is_dir n' = is_dir (File "manifest:easy").
Proof.
  assert (fs w0 !! (levels +:+ "/SongA/Info.dat") = Some (File "manifest:easy"))
    as Hk by (by vm_compute).
  split; [exact Hk|].
  apply (importMaps_loses_nothing ["/downloads/Broken.zip"] (Some "1.29.1") w0 _ _ Hk).
Defined.

Lemma single_map_archive_outcome_witness :
  closed (set_progress (1, 0, None) w0) = None
  ∧ progress (set_progress (1, 0, None) w0) = (1, 0, None)
  ∧ zi_single Broken_plan = true
  ∧ ∃ w',
      importZip levels Broken_plan (set_progress (1, 0, None) w0) = (Ok (), w')
      ∧ closed w' = None
      ∧ match (loadArchive (zi_path Broken_plan) (set_progress (1, 0, None) w0)).1 with
        | Ok _ =>
            let outcome :=
              (importMap (zi_path Broken_plan) ""
                 (path.basename_ext (zi_path Broken_plan) ".zip") levels
                 (incr_current
                    (loadArchive (zi_path Broken_plan)
                       (set_progress (1, 0, None) w0)).2).2).1 in
            emitted w'
            = emitted (set_progress (1, 0, None) w0)
              ++ [Progression 1 (S 0) (slot outcome)]
            ∧ progress w' = (1, S 0, slot outcome)
            ∧ (is_ok outcome = false →
               last (logs w') = Some (ErrCouldNotImport (zi_path Broken_plan)))
        | Err _ =>
            emitted w'
            = emitted (set_progress (1, 0, None) w0) ++ [Progression 1 0 None]
            ∧ progress w' = (1, 0, None)
            ∧ last (logs w') = Some (ErrCouldNotImport (zi_path Broken_plan))
        end.
Proof.
  split; [reflexivity|]. split; [reflexivity|]. split; [reflexivity|].
  apply (single_map_archive_outcome levels Broken_plan
           (set_progress (1, 0, None) w0) 1 0 None eq_refl eq_refl eq_refl).
Defined.

Example import_Broken_zip :
  emitted (importMaps ["/downloads/Broken.zip"; "/downloads/MyMap.zip"]
             (Some "1.29.1") w0)
  = [Progression 2 0 None; Progression 2 1 None; Progression 2 2 (Some MyMap)].
Proof. by vm_compute. Qed.

Lemma importMaps_total_is_fixed_witness :
  sum_list (yield (fs w0) <$> ["/downloads/Pack.zip"; "/downloads/Empty.zip"]) ≠ 0
  ∧ head (emitted (importMaps ["/downloads/Pack.zip"; "/downloads/Empty.zip"]
                     (Some "1.29.1") w0))
    = Some (Progression
              (sum_list (yield (fs w0)
                           <$> ["/downloads/Pack.zip"; "/downloads/Empty.zip"]))
              0 None)
  ∧ ∀ s, s ∈ emitted (importMaps ["/downloads/Pack.zip"; "/downloads/Empty.zip"]
                        (Some "1.29.1") w0) →
         snap_total s
         = sum_list (yield (fs w0)
                       <$> ["/downloads/Pack.zip"; "/downloads/Empty.zip"]).
Proof.
  assert (sum_list (yield (fs w0)
                      <$> ["/downloads/Pack.zip"; "/downloads/Empty.zip"]) ≠ 0)
    as Hsome by (by vm_compute).
  split; [exact Hsome|].
  apply (importMaps_total_is_fixed _ (Some "1.29.1") w0 Hsome).
Defined.

Lemma importMaps_without_manifest_changes_nothing_witness :
  sum_list (yield (fs w0) <$> ["/downloads/Empty.zip"; "/nope.zip"]) = 0
  ∧ emitted (importMaps ["/downloads/Empty.zip"; "/nope.zip"] None w0) = []
  ∧ fs (importMaps ["/downloads/Empty.zip"; "/nope.zip"] None w0) = fs w0
  ∧ songCache (importMaps ["/downloads/Empty.zip"; "/nope.zip"] None w0)
    = songCache w0.
Proof.
  assert (sum_list (yield (fs w0) <$> ["/downloads/Empty.zip"; "/nope.zip"]) = 0)
    as Hnone by (by vm_compute).
  split; [exact Hnone|].
  apply (importMaps_without_manifest_changes_nothing _ None w0 Hnone).
Defined.

Lemma importMap_extracts_the_files_of_the_unit_witness :
  "Pack/A" ≠ ""
  ∧ (importMap "/downloads/Pack.zip" "Pack/A" "A" levels
       (set_archive Pack_zip w0)).1 = Ok PackA
  ∧ NoDup ((λ e : string * JSZipObject, fskey (path.join (path.join levels "A") e.1))
             <$> unit_entries "Pack/A" (archive (set_archive Pack_zip w0)))
  ∧ entry "Pack/A/Easy.dat" "a" ∈ archive (set_archive Pack_zip w0)
  ∧ zdir (entry "Pack/A/Easy.dat" "a") = false
  ∧ zname (entry "Pack/A/Easy.dat" "a")
    = JSZipModel.forceTrailingSlash "Pack/A" +:+ "Easy.dat"
  ∧ "Easy.dat" ≠ ""
  ∧ "Easy.dat" ≠ "__proto__"
  ∧ node_at (fs (importMap "/downloads/Pack.zip" "Pack/A" "A" levels
                   (set_archive Pack_zip w0)).2)
      (path.join (path.join levels "A") "Easy.dat")
    = Some (File (zdata (entry "Pack/A/Easy.dat" "a"))).
Proof.
  assert ("Pack/A" ≠ "") as Hmulti by done.
  assert ((importMap "/downloads/Pack.zip" "Pack/A" "A" levels
             (set_archive Pack_zip w0)).1 = Ok PackA) as Hok by (by vm_compute).
  assert (NoDup ((λ e : string * JSZipObject,
                    fskey (path.join (path.join levels "A") e.1))
                   <$> unit_entries "Pack/A" (archive (set_archive Pack_zip w0))))
    as Hnodup.
  { apply (bool_decide_unpack _). by vm_compute. }
  assert (entry "Pack/A/Easy.dat" "a" ∈ archive (set_archive Pack_zip w0)) as Hin.
  { simpl. unfold Pack_zip. do 3 apply list_elem_of_further. apply list_elem_of_here. }
  assert (zname (entry "Pack/A/Easy.dat" "a")
          = JSZipModel.forceTrailingSlash "Pack/A" +:+ "Easy.dat") as Hname.
  { by vm_compute. }
  assert ("Easy.dat" ≠ "") as Hrel by done.
  assert ("Easy.dat" ≠ "__proto__") as Hproto by done.
  split; [exact Hmulti|]. split; [exact Hok|]. split; [exact Hnodup|].
  split; [exact Hin|]. split; [reflexivity|]. split; [exact Hname|].
  split; [exact Hrel|]. split; [exact Hproto|].
  apply (importMap_extracts_the_files_of_the_unit "/downloads/Pack.zip" "Pack/A" "A"
           levels (set_archive Pack_zip w0) PackA (entry "Pack/A/Easy.dat" "a")
           "Easy.dat" Hmulti Hok Hnodup Hin eq_refl Hname Hrel Hproto).
Defined.

Lemma importMaps_skips_unreadable_archive_witness :
  "/nope.zip" ∈ ["/downloads/MyMap.zip"; "/nope.zip"]
  ∧ archive_of (fs w0) "/nope.zip" = None
  ∧ WarnCouldNotCount "/nope.zip"
      ∈ logs (importMaps ["/downloads/MyMap.zip"; "/nope.zip"] (Some "1.29.1") w0)
  ∧ emitted (importMaps ["/downloads/MyMap.zip"; "/nope.zip"] (Some "1.29.1") w0)
    = emitted (importMaps (filter (λ p, p ≠ "/nope.zip")
                             ["/downloads/MyMap.zip"; "/nope.zip"])
                 (Some "1.29.1") w0)
  ∧ closed (importMaps ["/downloads/MyMap.zip"; "/nope.zip"] (Some "1.29.1") w0)
    = closed (importMaps (filter (λ p, p ≠ "/nope.zip")
                            ["/downloads/MyMap.zip"; "/nope.zip"])
                (Some "1.29.1") w0)
  ∧ fs (importMaps ["/downloads/MyMap.zip"; "/nope.zip"] (Some "1.29.1") w0)
    = fs (importMaps (filter (λ p, p ≠ "/nope.zip")
                        ["/downloads/MyMap.zip"; "/nope.zip"])
            (Some "1.29.1") w0)
  ∧ songCache (importMaps ["/downloads/MyMap.zip"; "/nope.zip"] (Some "1.29.1") w0)
    = songCache (importMaps (filter (λ p, p ≠ "/nope.zip")
                               ["/downloads/MyMap.zip"; "/nope.zip"])
                   (Some "1.29.1") w0).
Proof.
  assert ("/nope.zip" ∈ ["/downloads/MyMap.zip"; "/nope.zip"]) as Hin.
  { apply list_elem_of_further, list_elem_of_here. }
  assert (archive_of (fs w0) "/nope.zip" = None) as Hnone by (by vm_compute).
  split; [exact Hin|]. split; [exact Hnone|].
  apply (importMaps_skips_unreadable_archive _ (Some "1.29.1") w0 _ Hin Hnone).
Defined.

(** The import of MyMap.zip next to an archive that is not there pushes
    what the import of MyMap.zip alone pushes. *)
Example import_next_to_missing_archive :
  emitted (importMaps ["/downloads/MyMap.zip"; "/nope.zip"] (Some "1.29.1") w0)
  = [Progression 1 0 None; Progression 1 1 (Some MyMap)]
  ∧ closed (importMaps ["/downloads/MyMap.zip"; "/nope.zip"] (Some "1.29.1") w0)
    = Some Completed.
Proof. by vm_compute. Qed.

Example basename_dot : path.basename "." = ".".
Proof. by vm_compute. Qed.

(** The root-level unit of RootPack: the map at the root is not installed,
    the unit fails on the maps folder, which holds no manifest. *)
Lemma root_level_unit_extracts_nothing_witness :
  (∀ f, f ∈ archive (set_archive RootPack_zip w0) →
        String.prefix "./" (zname f) = false)
  ∧ is_Some (node_at (fs (set_archive RootPack_zip w0)) (path.join levels "."))
  ∧ fs (importMap "/downloads/RootPack.zip" "." "." levels
          (set_archive RootPack_zip w0)).2
    = fs (set_archive RootPack_zip w0)
  ∧ ∀ localMap,
      (importMap "/downloads/RootPack.zip" "." "." levels
         (set_archive RootPack_zip w0)).1 = Ok localMap →
      map_path localMap = path.join levels "."
      ∧ ∃ loaded,
          (loadMapInfoFromPath (path.join levels ".")
             (set_archive RootPack_zip w0)).1 = Ok (Some loaded)
          ∧ mapInfo localMap = mapInfo loaded ∧ hash localMap = hash loaded.
Proof.
  assert (∀ f, f ∈ archive (set_archive RootPack_zip w0) →
               String.prefix "./" (zname f) = false) as Hnone.
  { apply Forall_forall. simpl. unfold RootPack_zip. by repeat constructor. }
  assert (is_Some (node_at (fs (set_archive RootPack_zip w0)) (path.join levels ".")))
    as Hex.
  { vm_compute. by eexists. }
  split; [exact Hnone|]. split; [exact Hex|].
  apply (root_level_unit_extracts_nothing "/downloads/RootPack.zip" levels
           (set_archive RootPack_zip w0) Hnone Hex).
Defined.

Example root_level_unit_fails :
  (importMap "/downloads/RootPack.zip" "." "." levels
     (set_archive RootPack_zip w0)).1
  = Err (CustomError None).
Proof. by vm_compute. Qed.

Lemma getMapInfoFromHash_answers_from_cache_witness :
  songCache w_scanned !! "SongA"
  = Some {| cached_mapInfo := easy; cached_hash := "sha1(manifest:easyaaa)" |}
  ∧ (∀ d c', songCache w_scanned !! d = Some c' →
             cached_hash c' = "sha1(manifest:easyaaa)" → d = "SongA")
  ∧ "SongA" ≠ ""
  ∧ path.basename (path.join (mapsFolderPath (Some "1.29.1")) "SongA") = "SongA"
  ∧ is_Some (node_at (fs w_scanned)
               (path.join (mapsFolderPath (Some "1.29.1")) "SongA"))
  ∧ getMapInfoFromHash "sha1(manifest:easyaaa)" (Some "1.29.1") w_scanned
    = (Ok (Some (getUrlsAndReturn easy "sha1(manifest:easyaaa)"
                   (path.join (mapsFolderPath (Some "1.29.1")) "SongA"))),
       w_scanned).
Proof.
  assert (songCache w_scanned !! "SongA"
          = Some {| cached_mapInfo := easy;
                    cached_hash := "sha1(manifest:easyaaa)" |}) as Hc.
  { by vm_compute. }
  assert (∀ d c', songCache w_scanned !! d = Some c' →
                  cached_hash c' = "sha1(manifest:easyaaa)" → d = "SongA") as Huniq.
  { intros d c' Hd _. change (songCache w_scanned) with scanned_cache in Hd.
    unfold scanned_cache in Hd. by apply lookup_singleton_Some in Hd as [<- _]. }
  assert ("SongA" ≠ "") as Hne by done.
  assert (path.basename (path.join (mapsFolderPath (Some "1.29.1")) "SongA")
          = "SongA") as Hbase by (by vm_compute).
  assert (is_Some (node_at (fs w_scanned)
                     (path.join (mapsFolderPath (Some "1.29.1")) "SongA"))) as Hex.
  { exists Dir. by vm_compute. }
  split; [exact Hc|]. split; [exact Huniq|]. split; [exact Hne|].
  split; [exact Hbase|]. split; [exact Hex|].
  exact (getMapInfoFromHash_answers_from_cache "sha1(manifest:easyaaa)" "1.29.1"
           w_scanned "SongA" _ Hc eq_refl Huniq Hne Hbase Hex).
Defined.

Lemma importMap_only_rewrites_its_destinations_witness :
  fs (set_archive Pack_zip w0) !! (levels +:+ "/Notes/readme.txt")
  = Some (File "not a map")
  ∧ (∀ e, e ∈ unit_scope "Pack/A" (archive (set_archive Pack_zip w0)) →
          fskey (path.join (path.join levels "SongA") e.1)
          ≠ levels +:+ "/Notes/readme.txt")
  ∧ fs (importMap "/downloads/Pack.zip" "Pack/A" "SongA" levels
          (set_archive Pack_zip w0)).2 !! (levels +:+ "/Notes/readme.txt")
    = Some (File "not a map").
Proof.
  assert (fs (set_archive Pack_zip w0) !! (levels +:+ "/Notes/readme.txt")
          = Some (File "not a map")) as Hfile by (by vm_compute).
  assert (∀ e, e ∈ unit_scope "Pack/A" (archive (set_archive Pack_zip w0)) →
               fskey (path.join (path.join levels "SongA") e.1)
               ≠ levels +:+ "/Notes/readme.txt") as Hother.
  { apply Forall_forall. apply (bool_decide_unpack _). by vm_compute. }
  split; [exact Hfile|]. split; [exact Hother|].
  exact (importMap_only_rewrites_its_destinations "/downloads/Pack.zip" "Pack/A"
           "SongA" levels (set_archive Pack_zip w0) _ _ Hfile Hother).
Defined.


(** The two archives imported together: MyMap lands under the basename of
    its archive, the maps of the pack under their own folder names. *)
Example import_MyMap_and_Pack :
  (λ s, map_path <$> snap_data s)
    <$> emitted (importMaps two_archives (Some "1.29.1") w0)
  = [None; Some (levels +:+ "/MyMap"); Some (levels +:+ "/A"); None;
     Some (levels +:+ "/C")].
Proof. by vm_compute. Qed.

(** Property keys that are array indices. *)
Example array_index_examples :
  JS.array_index "0" = Some 0%N ∧ JS.array_index "7" = Some 7%N
  ∧ JS.array_index "10" = Some 10%N ∧ JS.array_index "123" = Some 123%N
  ∧ JS.array_index "4294967294" = Some 4294967294%N
  ∧ JS.array_index "4294967295" = None
  ∧ JS.array_index "01" = None ∧ JS.array_index "a1" = None
  ∧ JS.array_index "1a" = None ∧ JS.array_index "" = None.
Proof. by vm_compute. Qed.

Example own_properties_order :
  JS.own_properties [("b", 1); ("10", 2); ("2", 3); ("a", 4)]
  = [("2", 3); ("10", 2); ("b", 1); ("a", 4)].
Proof. by vm_compute. Qed.

(** An entry named ["__proto__"] in the folder of a unit of a pack is not
    extracted, the other entries are. *)
Example import_skips___proto__ :
  (importMap "/downloads/P.zip" "P/A" "A" levels (set_archive ProtoPack_zip w0)).1
  = Ok PackA
  ∧ node_at (fs (importMap "/downloads/P.zip" "P/A" "A" levels
                   (set_archive ProtoPack_zip w0)).2)
      (levels +:+ "/A/__proto__") = None
  ∧ node_at (fs (importMap "/downloads/P.zip" "P/A" "A" levels
                   (set_archive ProtoPack_zip w0)).2)
      (levels +:+ "/A/Easy.dat") = Some (File "a").
Proof. by vm_compute. Qed.

(** Two folders with one hash: a single requested hash removes both, and
    [current] passes [total]. *)
Example deleteMapsFromHashs_twins :
  last (emitted (deleteMapsFromHashs "1.29.1" ["sha1(manifest:easyaaa)"] w_twins))
  = Some (Progression 1 2 None)
  ∧ removed_hashs ["sha1(manifest:easyaaa)"]
      (list_children is_dir levels (fs w_twins)) (fs w_twins) (songCache w_twins)
    = ["sha1(manifest:easyaaa)"; "sha1(manifest:easyaaa)"].
Proof. by vm_compute. Qed.

End Concrete.
